(** * GIndexSet: a shallow embedding of glib/gindexset.c

    The index set of glib/gindexset.c stores a set of [guint] indices as a
    [GArray] of [GRange]s.  This file embeds the range primitives, the
    position resolver, the insertion/coalescing routine, the queries and the
    enumerator as Rocq functions, and proves or refutes the properties the
    specification states about them.

    Conventions.
    - A [guint] is a [Z] in [0, 2^32); every arithmetic operation of the C
      code on [guint]s is written with its wrap-around ([guint_add],
      [guint_sub]).
    - A [GArray] of [GRange] is a [list GRange]; positions inside it are
      [nat]s.
    - [g_return_if_fail] (the default build, without G_DISABLE_CHECKS) logs a
      critical warning and returns: the outcome [Refused].  A failing
      [g_assert] (the default build, without G_DISABLE_ASSERT) and the
      dereference of a NULL [ranges] array end the program: the outcome
      [Aborted]. *)

From Stdlib Require Import ZArith List Lia Bool Sorted Permutation.
Import ListNotations.

Local Open Scope Z_scope.

(** ** guint arithmetic *)

(** [guint] (gtypes.h) is the 32-bit [unsigned int]; [G_MAXUINT] and
    [G_MAXINT] (glibconfig.h) are UINT_MAX and INT_MAX, the largest values
    of [guint] and of the 32-bit [int]. *)
Definition G_MAXUINT : Z := 4294967295.

Definition G_MAXINT : Z := 2147483647.

Definition guint_wrap (z : Z) : Z := z mod 4294967296.

Definition guint_add (a b : Z) : Z := guint_wrap (a + b).
Definition guint_sub (a b : Z) : Z := guint_wrap (a - b).

Definition is_guint (z : Z) : bool := (0 <=? z) && (z <=? G_MAXUINT).

(** Conversion of a [guint] to [int], as in [int offset = a - b]. *)
Definition gint_of_guint (z : Z) : Z :=
  if z <=? G_MAXINT then z else z - 4294967296.

(** ** GRange *)

Record GRange : Set := G_RANGE_INIT { location : Z; length : Z }.

Abbreviation array_len := (@Datatypes.length GRange).

Definition is_range (r : GRange) : bool :=
  is_guint (location r) && is_guint (length r).

Definition g_range_init (location length : Z) : GRange :=
  G_RANGE_INIT location length.

Definition g_range_init_with_range (source : GRange) : GRange := source.

Definition g_range_equals (range_a range_b : GRange) : bool :=
  (location range_b =? location range_a) && (length range_b =? length range_a).

Definition g_range_get_min (range : GRange) : Z := location range.

Definition g_range_get_max (range : GRange) : Z :=
  guint_add (location range) (length range).

Definition g_range_get_center (range : GRange) : Z :=
  guint_add (location range) (length range / 2).

Definition g_range_contains_location (range : GRange) (loc : Z) : bool :=
  (location range <=? loc) && (loc <? guint_add (location range) (length range)).

(** ** GIndexSet *)

Record GIndexSet : Set := mkGIndexSet {
  ref_count : Z;
  ranges : option (list GRange);   (* [None] is the NULL array *)
  is_mutable : bool
}.

Definition set_ranges (s : GIndexSet) (a : list GRange) : GIndexSet :=
  mkGIndexSet (ref_count s) (Some a) (is_mutable s).

Definition g_index_set_get_range (index_set : GIndexSet) (position : nat)
  : option GRange :=
  match ranges index_set with
  | None => None
  | Some a => nth_error a position
  end.

(** *** The position resolver

    [g_index_set_get_position] reads [index_set->ranges->len] without a NULL
    check; its callers test [ranges] first, so the embedding takes the array.

    The [for] loop is the binary search; [fuel] bounds its iterations, and
    [S (array_len a)] iterations always suffice since [upper - lower]
    decreases (lemma [get_position_search_fuel]).  The branch for a missing
    range is never taken: [lower <= pos < upper <= len] inside the loop. *)

Fixpoint get_position_search (fuel : nat) (a : list GRange) (index_ : Z)
    (lower upper pos : nat) {struct fuel} : nat :=
  match fuel with
  | O => pos
  | S fuel' =>
      if Nat.eqb upper lower then pos
      else
        match nth_error a pos with
        | None => pos
        | Some range =>
            if index_ <? location range then
              get_position_search fuel' a index_ lower pos
                (Nat.div (pos + lower) 2)
            else if guint_add (location range) (length range) <? index_ then
              get_position_search fuel' a index_ (pos + 1) upper
                (Nat.div (upper + (pos + 1)) 2)
            else pos
        end
  end.

(** The [while] loop that skips the ranges ending at or before the index; it
    walks the array from [pos] on, so it recurses on that suffix. *)
Fixpoint get_position_skip (index_ : Z) (rest : list GRange) (pos : nat)
    {struct rest} : nat :=
  match rest with
  | [] => pos
  | range :: rest' =>
      if g_range_get_max range <=? index_
      then get_position_skip index_ rest' (S pos)
      else pos
  end.

Definition g_index_set_get_position (a : list GRange) (index_ : Z) : nat :=
  let upper := array_len a in
  let lower := O in
  let pos := get_position_search (S (array_len a)) a index_ lower upper
               (Nat.div upper 2) in
  get_position_skip index_ (skipn pos a) pos.

Definition g_index_set_clear_ranges (index_set : GIndexSet) : GIndexSet :=
  mkGIndexSet (ref_count index_set) (Some []) true.

(** *** The consistency check run after every insertion *)

Fixpoint ensure_ranges_loop (a : list GRange) (i : nat) (last : Z)
    {struct a} : bool :=
  match a with
  | [] => true
  | range :: rest =>
      (if Nat.ltb 0 i then last <? location range
       else last <=? location range)
      && (location range <? g_range_get_max range)
      && ensure_ranges_loop rest (S i) (g_range_get_max range)
  end.

(** [true] when every [g_assert] of [g_index_set_ensure_ranges] holds. *)
Definition g_index_set_ensure_ranges (a : list GRange) : bool :=
  ensure_ranges_loop a O 0.

Definition g_index_set_alloc : GIndexSet := mkGIndexSet 1 None true.

Definition g_index_set_make_immutable (index_set : GIndexSet) : GIndexSet :=
  mkGIndexSet (ref_count index_set) (ranges index_set) false.

Definition g_index_set_init (index_set : GIndexSet) : GIndexSet :=
  g_index_set_clear_ranges index_set.

Definition g_index_set_init_empty (index_set : GIndexSet) : GIndexSet :=
  g_index_set_make_immutable (g_index_set_clear_ranges index_set).

(** *** GArray operations used by the insertion *)

Definition g_array_append_val (a : list GRange) (v : GRange) : list GRange :=
  a ++ [v].

Definition g_array_insert_val (a : list GRange) (pos : nat) (v : GRange)
  : list GRange :=
  firstn pos a ++ v :: skipn pos a.

Definition g_array_remove_index (a : list GRange) (pos : nat) : list GRange :=
  firstn pos a ++ skipn (S pos) a.

(** [r = &a[pos]; r->length += delta] *)
Definition add_to_length (a : list GRange) (pos : nat) (delta : Z)
  : list GRange :=
  match nth_error a pos with
  | None => a
  | Some r =>
      firstn pos a
        ++ G_RANGE_INIT (location r) (guint_add (length r) delta)
        :: skipn (S pos) a
  end.

(** The first [while] loop of [g_index_set_add_range_internal]: every
    iteration either leaves the loop or decrements [pos]. *)
Fixpoint coalesce_preceding (a : list GRange) (range : GRange) (pos : nat)
    {struct pos} : list GRange * nat :=
  match pos with
  | O => (a, pos)
  | S pos' =>
      match nth_error a pos' with
      | None => (a, pos)
      | Some r =>
          if g_range_get_max r <? location range then (a, pos)
          else if g_range_get_max range <=? g_range_get_max r then
            coalesce_preceding (g_array_remove_index a pos) range pos'
          else
            coalesce_preceding
              (g_array_remove_index
                 (add_to_length a pos'
                    (guint_sub (g_range_get_max range) (g_range_get_max r)))
                 pos)
              range pos'
      end
  end.

(** The second [while] loop: every iteration that stays in the loop removes
    one range, so [array_len a] iterations suffice (lemma
    [coalesce_following_fuel]). *)
Fixpoint coalesce_following (fuel : nat) (a : list GRange) (range : GRange)
    (pos : nat) {struct fuel} : list GRange :=
  match fuel with
  | O => a
  | S fuel' =>
      if Nat.ltb (pos + 1) (array_len a) then
        match nth_error a (pos + 1) with
        | None => a
        | Some r =>
            if g_range_get_max range <? location r then a
            else
              let copy := g_range_init_with_range r in
              let a1 := g_array_remove_index a (pos + 1) in
              if g_range_get_max range <? g_range_get_max copy then
                let offset :=
                  gint_of_guint
                    (guint_sub (g_range_get_max copy) (g_range_get_max range)) in
                coalesce_following fuel' (add_to_length a1 pos offset) range pos
              else coalesce_following fuel' a1 range pos
        end
      else a
  end.

(** The array after the insertion and the two coalescing loops, before the
    consistency check. *)
Definition add_range_coalesce (a : list GRange) (range : GRange)
  : list GRange :=
  let pos := g_index_set_get_position a (location range) in
  let '(a1, pos1) :=
    if Nat.leb (array_len a) pos then
      (g_array_append_val a (g_range_init_with_range range), pos)
    else
      match nth_error a pos with
      | None => (a, pos)
      | Some r =>
          let pos' :=
            if g_range_contains_location r (location range)
            then (pos + 1)%nat else pos in
          (g_array_insert_val a pos' (g_range_init_with_range range), pos')
      end in
  let '(a2, pos2) := coalesce_preceding a1 range pos1 in
  coalesce_following (array_len a2) a2 range pos2.

(** [None]: a [g_assert] of the consistency check failed. *)
Definition g_index_set_add_range_internal (a : list GRange) (range : GRange)
  : option (list GRange) :=
  if length range =? 0 then Some a
  else
    let a' := add_range_coalesce a range in
    if g_index_set_ensure_ranges a' then Some a' else None.

(** ** Outcomes of the public mutators *)

Inductive outcome : Set :=
| Done (s : GIndexSet)      (* the call returned normally *)
| Refused (s : GIndexSet)   (* [g_return_if_fail] fired: critical warning, nothing done *)
| Aborted.                  (* failed [g_assert], or NULL [ranges] dereferenced *)

Definition store_result (index_set : GIndexSet) (r : option (list GRange))
  : outcome :=
  match r with
  | Some a => Done (set_ranges index_set a)
  | None => Aborted
  end.

Definition g_index_set_is_mutable (index_set : GIndexSet) : bool :=
  is_mutable index_set.

(** The loop shared by [g_index_set_add_indices], [g_index_set_add_indicesv]
    and [g_index_set_add_set]: one internal insertion per element. *)
Fixpoint add_ranges_loop (a : list GRange) (rs : list GRange)
    {struct rs} : option (list GRange) :=
  match rs with
  | [] => Some a
  | r :: rs' =>
      match g_index_set_add_range_internal a r with
      | None => None
      | Some a' => add_ranges_loop a' rs'
      end
  end.

Definition g_index_set_add_index (index_set : GIndexSet) (index_ : Z)
  : outcome :=
  if negb (g_index_set_is_mutable index_set) then Refused index_set
  else
    match ranges index_set with
    | None => Aborted
    | Some a =>
        store_result index_set
          (g_index_set_add_range_internal a (g_range_init index_ 1))
    end.

(** [indices] stands for the [n_indices] variadic arguments (or the C array
    of [g_index_set_add_indicesv]). *)
Definition g_index_set_add_indices (index_set : GIndexSet) (indices : list Z)
  : outcome :=
  if negb (g_index_set_is_mutable index_set) then Refused index_set
  else
    match indices with
    | [] => Done index_set
    | _ :: _ =>
        match ranges index_set with
        | None => Aborted
        | Some a =>
            store_result index_set
              (add_ranges_loop a (map (fun idx => G_RANGE_INIT idx 1) indices))
        end
    end.

(** On a NULL [ranges] the internal insertion still returns for an empty
    range: the test of the length comes before the array is read. *)
Definition g_index_set_add_range (index_set : GIndexSet) (range : GRange)
  : outcome :=
  if negb (g_index_set_is_mutable index_set) then Refused index_set
  else
    let copy := g_range_init_with_range range in
    match ranges index_set with
    | None => if length copy =? 0 then Done index_set else Aborted
    | Some a => store_result index_set (g_index_set_add_range_internal a copy)
    end.

(** [set] is another instance than [index_set].  On a NULL [ranges] of
    [index_set] the loop runs through as long as the ranges it hands over
    are empty. *)
Definition g_index_set_add_set (index_set set : GIndexSet) : outcome :=
  if negb (g_index_set_is_mutable index_set) then Refused index_set
  else
    match ranges set with
    | None => Done index_set
    | Some [] => Done index_set
    | Some (r :: rs) =>
        match ranges index_set with
        | None =>
            if forallb (fun r' => length r' =? 0) (r :: rs)
            then Done index_set else Aborted
        | Some a => store_result index_set (add_ranges_loop a (r :: rs))
        end
    end.

(** [g_index_set_remove_range] resolves a position and returns: no statement
    of its body writes to the array.  (The body names the index [index_] of
    its caller; the caller passes the range of that one index.) *)
Definition g_index_set_remove_range (index_set : GIndexSet) (range : GRange)
  : GIndexSet :=
  match ranges index_set with
  | None => index_set
  | Some [] => index_set
  | Some a =>
      let pos := g_index_set_get_position a (location range) in
      if Nat.leb (array_len a) pos then index_set else index_set
  end.

(** No [g_return_if_fail (g_index_set_is_mutable (index_set))] here. *)
Definition g_index_set_remove_index (index_set : GIndexSet) (index_ : Z)
  : outcome :=
  let range := G_RANGE_INIT index_ 1 in
  Done (g_index_set_remove_range index_set range).

(** ** Initializers that fill the set and freeze it *)

Definition g_index_set_init_with_index (index_set : GIndexSet) (index_ : Z)
  : GIndexSet :=
  let range := G_RANGE_INIT index_ 1 in
  g_index_set_make_immutable
    (mkGIndexSet (ref_count index_set) (Some (g_array_insert_val [] 0 range))
       true).

Definition g_index_set_init_with_indicesv (index_set : GIndexSet)
    (indices : list Z) : option GIndexSet :=
  match add_ranges_loop [] (map (fun idx => G_RANGE_INIT idx 1) indices) with
  | None => None
  | Some a =>
      Some (g_index_set_make_immutable
              (set_ranges (g_index_set_clear_ranges index_set) a))
  end.

Definition g_index_set_init_with_range (index_set : GIndexSet)
    (range : GRange) : option GIndexSet :=
  match g_index_set_add_range_internal [] (g_range_init_with_range range) with
  | None => None
  | Some a =>
      Some (g_index_set_make_immutable
              (set_ranges (g_index_set_clear_ranges index_set) a))
  end.

(** ** Queries *)

Definition G_INDEX_SET_NOT_FOUND : Z := G_MAXINT.

Definition g_index_set_get_size (index_set : GIndexSet) : Z :=
  match ranges index_set with
  | None => 0
  | Some a => fold_left (fun count range => guint_add count (length range)) a 0
  end.

Definition g_index_set_get_first_index (index_set : GIndexSet) : Z :=
  match ranges index_set with
  | None => G_INDEX_SET_NOT_FOUND
  | Some [] => G_INDEX_SET_NOT_FOUND
  | Some (range :: _) => location range
  end.

Definition g_index_set_get_last_index (index_set : GIndexSet) : Z :=
  match ranges index_set with
  | None => G_INDEX_SET_NOT_FOUND
  | Some a =>
      match nth_error a (array_len a - 1) with
      | None => G_INDEX_SET_NOT_FOUND
      | Some range => guint_sub (g_range_get_max range) 1
      end
  end.

Inductive GIndexSetPredicate : Set :=
| G_INDEX_SET_PREDICATE_LESS_THAN
| G_INDEX_SET_PREDICATE_LESS_THAN_OR_EQUAL
| G_INDEX_SET_PREDICATE_GREATER_THAN_OR_EQUAL
| G_INDEX_SET_PREDICATE_GREATER_THAN.

(** The body of [case G_INDEX_SET_PREDICATE_GREATER_THAN_OR_EQUAL]. *)
Definition get_index_greater_or_equal (a : list GRange) (index_ : Z) : Z :=
  if index_ =? G_INDEX_SET_NOT_FOUND then G_INDEX_SET_NOT_FOUND
  else
    let pos := g_index_set_get_position a index_ in
    match nth_error a pos with
    | None => G_INDEX_SET_NOT_FOUND
    | Some r =>
        if g_range_contains_location r index_ then index_ else location r
    end.

(** The body of [case G_INDEX_SET_PREDICATE_LESS_THAN_OR_EQUAL]. *)
Definition get_index_less_or_equal (a : list GRange) (index_ : Z) : Z :=
  let pos := g_index_set_get_position a index_ in
  match nth_error a pos with
  | None => G_INDEX_SET_NOT_FOUND
  | Some r =>
      if g_range_contains_location r index_ then index_
      else
        match pos with
        | O => G_INDEX_SET_NOT_FOUND
        | S pos' =>
            match nth_error a pos' with
            | None => G_INDEX_SET_NOT_FOUND
            | Some r' => guint_sub (g_range_get_max r') 1
            end
        end
  end.

Definition g_index_set_get_index (index_set : GIndexSet)
    (predicate : GIndexSetPredicate) (index_ : Z) : Z :=
  match ranges index_set with
  | None => G_INDEX_SET_NOT_FOUND
  | Some [] => G_INDEX_SET_NOT_FOUND
  | Some a =>
      match predicate with
      | G_INDEX_SET_PREDICATE_GREATER_THAN =>
          if guint_add index_ 1 =? G_INDEX_SET_NOT_FOUND
          then G_INDEX_SET_NOT_FOUND
          else get_index_greater_or_equal a (guint_add index_ 1)
      | G_INDEX_SET_PREDICATE_GREATER_THAN_OR_EQUAL =>
          get_index_greater_or_equal a index_
      | G_INDEX_SET_PREDICATE_LESS_THAN =>
          if index_ =? 0 then G_INDEX_SET_NOT_FOUND
          else get_index_less_or_equal a (guint_sub index_ 1)
      | G_INDEX_SET_PREDICATE_LESS_THAN_OR_EQUAL =>
          get_index_less_or_equal a index_
      end
  end.

Definition g_index_set_contains_index (index_set : GIndexSet) (index_ : Z)
  : bool :=
  match ranges index_set with
  | None => false
  | Some a =>
      match nth_error a (g_index_set_get_position a index_) with
      | None => false
      | Some range => g_range_contains_location range index_
      end
  end.

Definition g_index_set_contains_range (index_set : GIndexSet) (range : GRange)
  : bool :=
  if length range =? 0 then true
  else if guint_sub G_INDEX_SET_NOT_FOUND (length range) <? location range
  then false
  else
    match ranges index_set with
    | None => false
    | Some a =>
        match nth_error a (g_index_set_get_position a (location range)) with
        | None => false
        | Some r =>
            g_range_contains_location r (location range)
            && g_range_contains_location r
                 (guint_sub (g_range_get_max range) 1)
        end
    end.

(** ** Enumeration

    The callback [func (j, data)] is a function from the index and the
    caller's [data] to the "should stop" flag and the updated [data]. *)

Definition G_INDEX_SET_ENUMERATE_NONE : Z := 0.
Definition G_INDEX_SET_ENUMERATE_REVERSE : Z := Z.shiftl 1 0.

Section Enumerate.

Variable D : Type.
Variable func : Z -> D -> bool * D.

(** The inner [while] loop over the indices [j] of one stored range.  The
    result carries whether the callback asked to stop.  [fuel] is the
    number of indices between [r_start] and [r_stop], which bounds the
    iterations (lemma [enumerate_indices_fuel]). *)
Fixpoint enumerate_indices (fuel : nat) (is_reverse : bool) (j r_stop : Z)
    (data : D) {struct fuel} : bool * D :=
  match fuel with
  | O => (false, data)
  | S fuel' =>
      if (if is_reverse then r_stop <=? j else j <? r_stop) then
        let '(should_stop, data') := func j data in
        if should_stop then (true, data')
        else if is_reverse then
          if j =? 0 then (false, data')
          else enumerate_indices fuel' is_reverse (guint_sub j 1) r_stop data'
        else enumerate_indices fuel' is_reverse (guint_add j 1) r_stop data'
      else (false, data)
  end.

(** The outer [while] loop over the positions [i]; [i] stays below the
    array length, so [S (array_len a)] iterations suffice (lemmas
    [enumerate_ranges_fuel] and [get_position_le]). *)
Fixpoint enumerate_ranges (fuel : nat) (a : list GRange) (is_reverse : bool)
    (i stop : nat) (data : D) {struct fuel} : D :=
  match fuel with
  | O => data
  | S fuel' =>
      if (if is_reverse then Nat.leb stop i else Nat.ltb i stop) then
        match nth_error a i with
        | None => data
        | Some r_range =>
            let r_start :=
              if is_reverse then guint_sub (g_range_get_max r_range) 1
              else location r_range in
            let r_stop :=
              if is_reverse then location r_range
              else g_range_get_max r_range in
            let inner_fuel :=
              if is_reverse then Z.to_nat (r_start - r_stop + 1)
              else Z.to_nat (r_stop - r_start) in
            let '(stopped, data') :=
              enumerate_indices inner_fuel is_reverse r_start r_stop data in
            if stopped then data'
            else if is_reverse then
              match i with
              | O => data'
              | S i' => enumerate_ranges fuel' a is_reverse i' stop data'
              end
            else enumerate_ranges fuel' a is_reverse (i + 1) stop data'
        end
      else data
  end.

Definition g_index_set_enumerate_in_range (index_set : GIndexSet)
    (range : GRange) (flags : Z) (data : D) : D :=
  match ranges index_set with
  | None => data
  | Some [] => data
  | Some a =>
      if length range =? 0 then data
      else
        let is_reverse :=
          negb (Z.land flags G_INDEX_SET_ENUMERATE_REVERSE =? 0) in
        let start := g_index_set_get_position a (location range) in
        let start := if Nat.leb (array_len a) start then O else start in
        let stop :=
          g_index_set_get_position a (guint_sub (g_range_get_max range) 1) in
        enumerate_ranges (S (array_len a)) a is_reverse start stop data
  end.

Definition g_index_set_enumerate (index_set : GIndexSet) (flags : Z)
    (data : D) : D :=
  let first := g_index_set_get_first_index index_set in
  if first =? G_INDEX_SET_NOT_FOUND then data
  else
    let last := g_index_set_get_last_index index_set in
    let range := g_range_init first (guint_add (guint_sub last first) 1) in
    g_index_set_enumerate_in_range index_set range flags data.

End Enumerate.

(** A callback that never asks to stop and records the indices it is given,
    in call order. *)
Definition record_index (j : Z) (visited : list Z) : bool * list Z :=
  (false, visited ++ [j]).

(** The same, asking to stop once it is given [cut_off]. *)
Definition record_until (cut_off : Z) (j : Z) (visited : list Z)
  : bool * list Z :=
  (j =? cut_off, visited ++ [j]).

Definition visited_in_range (index_set : GIndexSet) (range : GRange)
    (flags : Z) : list Z :=
  g_index_set_enumerate_in_range (list Z) record_index index_set range flags [].

Definition visited (index_set : GIndexSet) (flags : Z) : list Z :=
  g_index_set_enumerate (list Z) record_index index_set flags [].

(** ** Sequences of public mutations *)

Inductive mutation : Set :=
| AddIndex (index_ : Z)
| AddIndices (indices : list Z)
| AddRange (range : GRange)
| AddSet (set : GIndexSet)
| RemoveIndex (index_ : Z).

Definition apply_mutation (index_set : GIndexSet) (m : mutation) : outcome :=
  match m with
  | AddIndex index_ => g_index_set_add_index index_set index_
  | AddIndices indices => g_index_set_add_indices index_set indices
  | AddRange range => g_index_set_add_range index_set range
  | AddSet set => g_index_set_add_set index_set set
  | RemoveIndex index_ => g_index_set_remove_index index_set index_
  end.

(** Runs the calls in order; a refused call leaves the set as it was and the
    caller goes on; [None] when a call aborted the program. *)
Fixpoint run (ms : list mutation) (index_set : GIndexSet)
    {struct ms} : option GIndexSet :=
  match ms with
  | [] => Some index_set
  | m :: ms' =>
      match apply_mutation index_set m with
      | Done s | Refused s => run ms' s
      | Aborted => None
      end
  end.

(** ** Predicates and sample sets used by the properties *)

(** A range that is not empty and whose end does not wrap. *)
Definition range_in_bounds (r : GRange) : Prop :=
  0 <= location r /\ 0 < length r /\ location r + length r <= G_MAXUINT.

(** [ranges_above lo a]: every range of [a] is in bounds, the first starts
    at [lo] or later, and each next one starts strictly after the end of the
    one before it. *)
Fixpoint ranges_above (lo : Z) (a : list GRange) {struct a} : Prop :=
  match a with
  | [] => True
  | r :: rest =>
      lo <= location r /\ 0 < length r
      /\ location r + length r <= G_MAXUINT
      /\ ranges_above (location r + length r + 1) rest
  end.

Definition ranges_ok (a : list GRange) : Prop := ranges_above 0 a.

(** The bound the ranges after [a] have to respect. *)
Fixpoint bound_after (lo : Z) (a : list GRange) {struct a} : Z :=
  match a with
  | [] => lo
  | r :: rest => bound_after (location r + length r + 1) rest
  end.

(** The four properties the specification names. *)
Definition sorted_by_location (a : list GRange) : Prop :=
  forall i j r1 r2, (i < j)%nat ->
    nth_error a i = Some r1 -> nth_error a j = Some r2 ->
    location r1 < location r2.

Definition no_overlap (a : list GRange) : Prop :=
  forall i j r1 r2 x, i <> j ->
    nth_error a i = Some r1 -> nth_error a j = Some r2 ->
    location r1 <= x < location r1 + length r1 ->
    ~ (location r2 <= x < location r2 + length r2).

Definition no_adjacent (a : list GRange) : Prop :=
  forall i r1 r2,
    nth_error a i = Some r1 -> nth_error a (S i) = Some r2 ->
    location r1 + length r1 < location r2.

Definition no_empty (a : list GRange) : Prop :=
  forall i r, nth_error a i = Some r -> 0 < length r.

(** What the loop over the preceding ranges leaves: the array split around
    the range [cur] at the final position, which covers the new range. *)
Definition after_preceding (range : GRange) (res : list GRange * nat) : Prop :=
  exists A cur B lb,
    res = (A ++ cur :: B, array_len A)
    /\ ranges_above 0 A /\ bound_after 0 A <= location cur
    /\ 0 < length cur /\ location cur + length cur <= G_MAXUINT
    /\ location range + length range <= location cur + length cur
    /\ 0 <= lb /\ ranges_above lb B
    /\ (location cur + length cur = location range + length range
        \/ ranges_above (location cur + length cur + 1) B).

Abbreviation all_ranges a := (Forall (fun r => is_range r = true) a).

(** The range of an insertion reaches past the largest [guint]. *)
Definition reaches_end (range : GRange) : bool :=
  negb (length range =? 0) && (G_MAXUINT <? location range + length range).

(** The ranges a mutation hands to the internal insertion, in order. *)
Definition mutation_ranges (m : mutation) : list GRange :=
  match m with
  | AddIndex index_ => [G_RANGE_INIT index_ 1]
  | AddIndices indices => map (fun idx => G_RANGE_INIT idx 1) indices
  | AddRange range => [range]
  | AddSet set =>
      match ranges set with
      | None => []
      | Some rs => rs
      end
  | RemoveIndex _ => []
  end.

(** Every number a mutation carries is a [guint]. *)
Definition mutation_ok (m : mutation) : bool :=
  forallb is_range (mutation_ranges m)
  && match m with
     | RemoveIndex index_ => is_guint index_
     | _ => true
     end.

Definition mutation_reaches_end (m : mutation) : bool :=
  existsb reaches_end (mutation_ranges m).

Definition store_invariant (a : list GRange) : Prop :=
  sorted_by_location a /\ no_overlap a /\ no_adjacent a /\ no_empty a.

(** A mutable, initialized set whose store satisfies the invariant. *)
Definition set_ok (s : GIndexSet) : Prop :=
  is_mutable s = true /\ exists a, ranges s = Some a /\ ranges_ok a.

(** Splits a conjunction of closed facts and settles each by evaluation. *)
Ltac eval_conj :=
  repeat match goal with |- _ /\ _ => split end;
  try (vm_compute; reflexivity).

(** The set the tests build with [g_index_set_init_with_range] on [0,10). *)
Definition set_0_10 : GIndexSet :=
  mkGIndexSet 1 (Some [G_RANGE_INIT 0 10]) false.

(** The guard of [g_index_set_contains_range] against ranges that cross
    [G_INDEX_SET_NOT_FOUND]. *)
Definition crosses_not_found (range : GRange) : bool :=
  guint_sub G_INDEX_SET_NOT_FOUND (length range) <? location range.

(** A store whose only range [2147483640, 2147483660) spans the sentinel. *)
Definition set_across_not_found : GIndexSet :=
  mkGIndexSet 1 (Some [G_RANGE_INIT 2147483640 20]) false.

(** The set the tests build from the even indices 0, 2, 4, 6, 8. *)
Definition set_even : GIndexSet :=
  mkGIndexSet 1
    (Some [G_RANGE_INIT 0 1; G_RANGE_INIT 2 1; G_RANGE_INIT 4 1;
           G_RANGE_INIT 6 1; G_RANGE_INIT 8 1])
    false.

(** The index lies in one of the stored ranges. *)
Definition index_in_store (a : list GRange) (i : Z) : Prop :=
  exists r, In r a /\ location r <= i < location r + length r.

(** The index [j] is in the relation the predicate names to [index_]. *)
Definition satisfies (predicate : GIndexSetPredicate) (index_ j : Z) : Prop :=
  match predicate with
  | G_INDEX_SET_PREDICATE_LESS_THAN => j < index_
  | G_INDEX_SET_PREDICATE_LESS_THAN_OR_EQUAL => j <= index_
  | G_INDEX_SET_PREDICATE_GREATER_THAN_OR_EQUAL => index_ <= j
  | G_INDEX_SET_PREDICATE_GREATER_THAN => index_ < j
  end.

(** The index lies in the range, as an interval of integers. *)
Definition in_range (r : GRange) (i : Z) : Prop :=
  location r <= i < location r + length r.

(** The answer the specification gives for a range that is not empty: the
    stored range at the resolved position of the start of [range] contains
    the start and the last index, [max - 1], of [range], where [max] is the
    sum of the location and the length. *)
Definition claimed_contains_range (index_set : GIndexSet) (range : GRange)
  : Prop :=
  exists a r,
    ranges index_set = Some a
    /\ nth_error a (g_index_set_get_position a (location range)) = Some r
    /\ in_range r (location range)
    /\ in_range r (location range + length range - 1).

(** An index the insertion can store: a [guint] below the largest one (the
    end of its one-index range must not wrap). *)
Definition is_storable_index (i : Z) : bool :=
  is_guint i && (i <? G_MAXUINT).

(** The indices of a range, in ascending order. *)
Definition range_indices (r : GRange) : list Z :=
  map (fun k => location r + Z.of_nat k) (seq 0 (Z.to_nat (length r))).

(** The indices of the ranges of an array, range after range. *)
Definition store_indices (a : list GRange) : list Z :=
  flat_map range_indices a.

(** The ranges at the positions [from <= p < to] of an array. *)
Definition segment (a : list GRange) (from to : nat) : list GRange :=
  firstn (to - from) (skipn from a).

(** The prefix of a list up to and including the first occurrence of [c]. *)
Fixpoint up_to (c : Z) (l : list Z) {struct l} : list Z :=
  match l with
  | [] => []
  | x :: l' => if x =? c then [x] else x :: up_to c l'
  end.

(** The indices the walk over one stored range hands to a callback that
    never asks to stop, in call order. *)
Fixpoint indices_walk (fuel : nat) (is_reverse : bool) (j r_stop : Z)
    {struct fuel} : list Z :=
  match fuel with
  | O => []
  | S fuel' =>
      if (if is_reverse then r_stop <=? j else j <? r_stop) then
        j :: (if is_reverse then
                if j =? 0 then []
                else indices_walk fuel' is_reverse (guint_sub j 1) r_stop
              else indices_walk fuel' is_reverse (guint_add j 1) r_stop)
      else []
  end.

(** The same for the walk over the positions. *)
Fixpoint ranges_walk (fuel : nat) (a : list GRange) (is_reverse : bool)
    (i stop : nat) {struct fuel} : list Z :=
  match fuel with
  | O => []
  | S fuel' =>
      if (if is_reverse then Nat.leb stop i else Nat.ltb i stop) then
        match nth_error a i with
        | None => []
        | Some r_range =>
            let r_start :=
              if is_reverse then guint_sub (g_range_get_max r_range) 1
              else location r_range in
            let r_stop :=
              if is_reverse then location r_range
              else g_range_get_max r_range in
            let inner_fuel :=
              if is_reverse then Z.to_nat (r_start - r_stop + 1)
              else Z.to_nat (r_stop - r_start) in
            indices_walk inner_fuel is_reverse r_start r_stop
              ++ (if is_reverse then
                    match i with
                    | O => []
                    | S i' => ranges_walk fuel' a is_reverse i' stop
                    end
                  else ranges_walk fuel' a is_reverse (i + 1) stop)
        end
      else []
  end.

(** ** GRange: union and intersection *)

Definition g_range_union (range_a range_b : GRange) : GRange :=
  let res_location := Z.min (location range_a) (location range_b) in
  G_RANGE_INIT res_location
    (guint_sub
       (Z.max (guint_add (location range_a) (length range_a))
          (guint_add (location range_b) (length range_b)))
       res_location).

(** [None] stands for the return value [FALSE], for which [result] is left
    untouched; [Some res] for [TRUE] with [res] stored in [result]. *)
Definition g_range_intersection (range_a range_b : GRange) : option GRange :=
  let res_location := Z.max (location range_a) (location range_b) in
  let res_length :=
    Z.min (guint_add (location range_a) (length range_a))
      (guint_add (location range_b) (length range_b)) in
  if res_location <? res_length
  then Some (G_RANGE_INIT res_location (guint_sub res_length res_location))
  else None.

(** ** g_index_set_init_with_set

    The loop of the initializer asks [index_set], the set it has just
    emptied, for its [i]-th range, and hands the answer to the internal
    insertion, which reads the length of the range at once: [None] when that
    answer is NULL, or when the consistency check fails. *)
Fixpoint init_with_set_loop (n : nat) (i : nat) (a : list GRange)
    {struct n} : option (list GRange) :=
  match n with
  | O => Some a
  | S n' =>
      match nth_error a i with
      | None => None
      | Some r =>
          match g_index_set_add_range_internal a r with
          | None => None
          | Some a' => init_with_set_loop n' (S i) a'
          end
      end
  end.

(** [set] is another instance than [index_set]. *)
Definition g_index_set_init_with_set (index_set set : GIndexSet)
  : option GIndexSet :=
  let cleared := g_index_set_clear_ranges index_set in
  match ranges set with
  | None => Some (g_index_set_make_immutable cleared)
  | Some [] => Some (g_index_set_make_immutable cleared)
  | Some (r :: rs) =>
      match init_with_set_loop (array_len (r :: rs)) O [] with
      | None => None
      | Some a => Some (g_index_set_make_immutable (set_ranges cleared a))
      end
  end.

(** ** gref.c: reference counted memory areas

    The header [GRef] that precedes every area: the counter, the size and
    whether a [notify] function was given.  The counter is positive for a
    plainly counted area and negative for an atomically counted one; its
    absolute value is the number of references.  The embedding follows one
    thread (the compare-and-exchange of [g_ref_release] succeeds at once),
    the build without G_ENABLE_DEBUG and a run outside valgrind; the bytes
    of the area are not part of it. *)
Module Ref.

Record GRef : Set := mkGRef {
  ref_count : Z;
  alloc_size : Z;
  notify : bool
}.

(** The memory a pointer to an area refers to. *)
Inductive area : Set :=
| Live (real : GRef)
| Freed.

(** The area and the number of calls made to [notify] so far. *)
Definition state : Set := (area * nat)%type.

Definition gint_wrap (z : Z) : Z := (z + 2147483648) mod 4294967296 - 2147483648.

(** [None]: [g_return_val_if_fail (alloc_size != 0, NULL)]. *)
Definition g_ref_alloc_internal (alloc_size : Z) (atomic clear notify : bool)
  : option GRef :=
  if alloc_size =? 0 then None
  else Some (mkGRef (if atomic then -1 else 1) alloc_size notify).

Definition g_ref_alloc (alloc_size : Z) (notify : bool) : option GRef :=
  g_ref_alloc_internal alloc_size false false notify.

Definition g_ref_alloc0 (alloc_size : Z) (notify : bool) : option GRef :=
  g_ref_alloc_internal alloc_size false true notify.

Definition g_atomic_ref_alloc (alloc_size : Z) (notify : bool) : option GRef :=
  g_ref_alloc_internal alloc_size true false notify.

Definition g_atomic_ref_alloc0 (alloc_size : Z) (notify : bool)
  : option GRef :=
  g_ref_alloc_internal alloc_size true true notify.

Definition g_ref_destroy (real : GRef) (notified : nat) : state :=
  (Freed, if notify real then S notified else notified).

(** [None]: the area was freed before (the pointer dangles), or the plain
    increment overflows [int]. *)
Definition g_ref_acquire (st : state) : option state :=
  match st with
  | (Freed, _) => None
  | (Live real, notified) =>
      if ref_count real <? 0 then
        Some (Live (mkGRef (gint_wrap (ref_count real + -1))
                      (alloc_size real) (notify real)), notified)
      else if ref_count real =? G_MAXINT then None
      else
        Some (Live (mkGRef (ref_count real + 1) (alloc_size real)
                      (notify real)), notified)
  end.

(** [None]: the area was freed before, or [g_assert (ref_count != 0)]
    failed. *)
Definition g_ref_release (st : state) : option state :=
  match st with
  | (Freed, _) => None
  | (Live real, notified) =>
      let ref_count := ref_count real in
      if ref_count =? 0 then None
      else if (ref_count =? -1) || (ref_count =? 1) then
        Some (g_ref_destroy real notified)
      else if 0 <? ref_count then
        Some (Live (mkGRef (ref_count - 1) (alloc_size real) (notify real)),
              notified)
      else
        Some (Live (mkGRef (ref_count + 1) (alloc_size real) (notify real)),
              notified)
  end.

Definition g_ref_make_atomic (st : state) : option state :=
  match st with
  | (Freed, _) => None
  | (Live real, notified) =>
      if ref_count real <? 0 then Some st
      else
        Some (Live (mkGRef (- ref_count real) (alloc_size real)
                      (notify real)), notified)
  end.

Definition g_ref_realloc (st : state) (new_size : Z) : option state :=
  match st with
  | (Freed, _) => None
  | (Live real, notified) =>
      let old_notify := notify real in
      let old_ref_count := ref_count real in
      Some (Live (mkGRef old_ref_count new_size old_notify), notified)
  end.

(** [n] calls of the same function in a row. *)
Fixpoint times (n : nat) (f : state -> option state) (st : state)
    {struct n} : option state :=
  match n with
  | O => Some st
  | S n' =>
      match f st with
      | None => None
      | Some st' => times n' f st'
      end
  end.

(** The number of references a header counts. *)
Definition references (real : GRef) : Z := Z.abs (ref_count real).

End Ref.

(** * Properties *)

(** ** guint arithmetic *)

Lemma is_guint_spec (z : Z) : is_guint z = true <-> 0 <= z <= G_MAXUINT.
Proof. unfold is_guint. rewrite andb_true_iff, Z.leb_le, Z.leb_le. tauto. Qed.

Lemma guint_wrap_small (z : Z) : 0 <= z <= G_MAXUINT -> guint_wrap z = z.
Proof. unfold guint_wrap, G_MAXUINT. intros H. apply Z.mod_small. lia. Qed.

Lemma guint_wrap_range (z : Z) : 0 <= guint_wrap z <= G_MAXUINT.
Proof.
  unfold guint_wrap, G_MAXUINT.
  pose proof (Z.mod_pos_bound z 4294967296 ltac:(lia)). lia.
Qed.

Lemma guint_wrap_high (z : Z) :
  G_MAXUINT < z <= 2 * G_MAXUINT + 1 -> guint_wrap z = z - 4294967296.
Proof.
  unfold guint_wrap, G_MAXUINT. intros H.
  replace z with ((z - 4294967296) + 1 * 4294967296) at 1 by lia.
  rewrite Z_mod_plus_full. apply Z.mod_small. lia.
Qed.

Lemma guint_add_int_offset (x d : Z) :
  guint_add x (gint_of_guint (guint_wrap d)) = guint_wrap (x + d).
Proof.
  unfold guint_add, gint_of_guint, guint_wrap.
  destruct (d mod 4294967296 <=? G_MAXINT).
  - apply Zplus_mod_idemp_r.
  - replace (x + (d mod 4294967296 - 4294967296))
      with (x + d mod 4294967296 + (-1) * 4294967296) by lia.
    rewrite Z_mod_plus_full. apply Zplus_mod_idemp_r.
Qed.

(** ** The store invariant *)

Lemma ranges_above_weaken (a : list GRange) (lo lo' : Z) :
  lo' <= lo -> ranges_above lo a -> ranges_above lo' a.
Proof.
  destruct a; simpl; [trivial|].
  intros Hle (H1 & H2 & H3 & H4). repeat split; trivial; lia.
Qed.

Lemma ranges_above_app (a b : list GRange) (lo : Z) :
  ranges_above lo (a ++ b)
  <-> ranges_above lo a /\ ranges_above (bound_after lo a) b.
Proof.
  revert lo. induction a as [|r a IH]; intros lo; simpl.
  - tauto.
  - rewrite IH. tauto.
Qed.

Lemma bound_after_last (a : list GRange) (r : GRange) (lo : Z) :
  bound_after lo (a ++ [r]) = location r + length r + 1.
Proof. revert lo. induction a as [|x a IH]; intros lo; simpl; [reflexivity|apply IH]. Qed.

Lemma bound_after_ge (a : list GRange) (lo : Z) :
  ranges_above lo a -> lo <= bound_after lo a.
Proof.
  revert lo. induction a as [|r a IH]; intros lo; simpl; [lia|].
  intros (H1 & H2 & H3 & H4). specialize (IH _ H4). lia.
Qed.

Lemma ranges_above_nth (a : list GRange) (lo : Z) (i : nat) (r : GRange) :
  ranges_above lo a -> nth_error a i = Some r ->
  lo <= location r /\ 0 < length r /\ location r + length r <= G_MAXUINT.
Proof.
  revert lo i. induction a as [|x a IH]; intros lo i Hok Hi.
  - destruct i; discriminate.
  - destruct Hok as (H1 & H2 & H3 & H4). destruct i as [|i]; simpl in Hi.
    + inversion Hi; subst. auto.
    + destruct (IH _ _ H4 Hi) as (? & ? & ?). repeat split; trivial; lia.
Qed.

Lemma ranges_above_lt (a : list GRange) (lo : Z) (i j : nat) (r1 r2 : GRange) :
  ranges_above lo a -> (i < j)%nat ->
  nth_error a i = Some r1 -> nth_error a j = Some r2 ->
  location r1 + length r1 < location r2.
Proof.
  revert lo i j. induction a as [|x a IH]; intros lo i j Hok Hij Hi Hj.
  - destruct i; discriminate.
  - destruct Hok as (H1 & H2 & H3 & H4).
    destruct j as [|j]; [lia|]. simpl in Hj. destruct i as [|i]; simpl in Hi.
    + inversion Hi; subst.
      destruct (ranges_above_nth _ _ _ _ H4 Hj) as (? & _). lia.
    + apply (IH _ i j H4); trivial; lia.
Qed.

Lemma ranges_ok_in_bounds (a : list GRange) (i : nat) (r : GRange) :
  ranges_ok a -> nth_error a i = Some r -> range_in_bounds r.
Proof. intros Hok Hi. exact (ranges_above_nth _ _ _ _ Hok Hi). Qed.

Lemma ranges_ok_sorted (a : list GRange) : ranges_ok a -> sorted_by_location a.
Proof.
  intros Hok i j r1 r2 Hij H1 H2.
  pose proof (ranges_above_lt _ _ _ _ _ _ Hok Hij H1 H2).
  destruct (ranges_above_nth _ _ _ _ Hok H1) as (_ & ? & _). lia.
Qed.

Lemma ranges_ok_no_overlap (a : list GRange) : ranges_ok a -> no_overlap a.
Proof.
  intros Hok i j r1 r2 x Hij H1 H2 Hx Hx'.
  destruct (Nat.lt_total i j) as [Hlt|[Heq|Hgt]]; [|contradiction|].
  - pose proof (ranges_above_lt _ _ _ _ _ _ Hok Hlt H1 H2). lia.
  - pose proof (ranges_above_lt _ _ _ _ _ _ Hok Hgt H2 H1). lia.
Qed.

Lemma ranges_ok_no_adjacent (a : list GRange) : ranges_ok a -> no_adjacent a.
Proof.
  intros Hok i r1 r2 H1 H2.
  apply (ranges_above_lt _ _ i (S i) _ _ Hok); trivial. lia.
Qed.

Lemma ranges_ok_no_empty (a : list GRange) : ranges_ok a -> no_empty a.
Proof.
  intros Hok i r Hi. destruct (ranges_above_nth _ _ _ _ Hok Hi) as (_ & ? & _).
  trivial.
Qed.

Lemma get_max_in_bounds (r : GRange) :
  0 <= location r -> 0 <= length r -> location r + length r <= G_MAXUINT ->
  g_range_get_max r = location r + length r.
Proof.
  intros. unfold g_range_get_max, guint_add. apply guint_wrap_small. lia.
Qed.

Lemma is_range_spec (r : GRange) :
  is_range r = true
  <-> (0 <= location r <= G_MAXUINT) /\ (0 <= length r <= G_MAXUINT).
Proof. unfold is_range. rewrite andb_true_iff, !is_guint_spec. tauto. Qed.

(** On [guint] fields, the check [max > location] of the consistency check
    says exactly that the range is not empty and does not wrap. *)
Lemma get_max_above_location (r : GRange) :
  is_range r = true ->
  (location r <? g_range_get_max r) = true
  <-> 0 < length r /\ location r + length r <= G_MAXUINT.
Proof.
  rewrite is_range_spec, Z.ltb_lt. intros [Hl Hn].
  unfold g_range_get_max, guint_add.
  destruct (Z_le_gt_dec (location r + length r) G_MAXUINT) as [Hle|Hgt].
  - rewrite guint_wrap_small by lia. lia.
  - rewrite guint_wrap_high by lia. unfold G_MAXUINT in *. lia.
Qed.

Lemma ensure_ranges_loop_spec (a : list GRange) (i : nat) (last : Z) :
  Forall (fun r => is_range r = true) a ->
  ensure_ranges_loop a i last = true
  <-> ranges_above (if Nat.ltb 0 i then last + 1 else last) a.
Proof.
  revert i last. induction a as [|r a IH]; intros i last Hall; simpl.
  - tauto.
  - inversion Hall as [|? ? Hr Ha]; subst.
    rewrite !andb_true_iff, (get_max_above_location r Hr), (IH (S i) _ Ha).
    simpl Nat.ltb. cbv iota.
    split.
    + intros [[H1 [H2 H3]] H4].
      rewrite get_max_in_bounds in H4
        by (apply is_range_spec in Hr; lia).
      repeat split; trivial.
      destruct (Nat.ltb 0 i); [apply Z.ltb_lt in H1|apply Z.leb_le in H1]; lia.
    + intros (H1 & H2 & H3 & H4).
      rewrite get_max_in_bounds by (apply is_range_spec in Hr; lia).
      repeat split; trivial.
      destruct (Nat.ltb 0 i); [apply Z.ltb_lt|apply Z.leb_le]; lia.
Qed.

Lemma ensure_ranges_spec (a : list GRange) :
  Forall (fun r => is_range r = true) a ->
  g_index_set_ensure_ranges a = true <-> ranges_ok a.
Proof. intros Hall. apply (ensure_ranges_loop_spec a O 0 Hall). Qed.

Lemma ranges_above_is_range (a : list GRange) (lo : Z) :
  0 <= lo -> ranges_above lo a -> Forall (fun r => is_range r = true) a.
Proof.
  revert lo. induction a as [|r a IH]; intros lo H0 Hok; constructor.
  - destruct Hok as (H1 & H2 & H3 & _). apply is_range_spec. lia.
  - destruct Hok as (H1 & H2 & H3 & H4).
    apply (IH (location r + length r + 1)); [lia | exact H4].
Qed.

Lemma ranges_ok_is_range (a : list GRange) :
  ranges_ok a -> Forall (fun r => is_range r = true) a.
Proof. apply ranges_above_is_range. lia. Qed.

(** ** The position resolver *)

(** The binary search needs no more iterations than [upper - lower + 1],
    whatever the array holds. *)
Lemma get_position_search_fuel (fuel1 fuel2 : nat) (a : list GRange)
    (index_ : Z) (lower upper : nat) :
  (lower <= upper)%nat ->
  (upper - lower < fuel1)%nat -> (upper - lower < fuel2)%nat ->
  get_position_search fuel1 a index_ lower upper (Nat.div (upper + lower) 2)
  = get_position_search fuel2 a index_ lower upper (Nat.div (upper + lower) 2).
Proof.
  revert fuel2 lower upper.
  induction fuel1 as [|fuel1 IH]; intros fuel2 lower upper Hle H1 H2; [lia|].
  destruct fuel2 as [|fuel2]; [lia|]. cbn [get_position_search].
  destruct (Nat.eqb_spec upper lower) as [Heq|Hne]; [reflexivity|].
  assert (Hpos : (lower <= Nat.div (upper + lower) 2 < upper)%nat).
  { pose proof (Nat.div_mod_eq (upper + lower) 2).
    pose proof (Nat.mod_upper_bound (upper + lower) 2). lia. }
  destruct (nth_error a (Nat.div (upper + lower) 2)) as [range|]; [|reflexivity].
  destruct (index_ <? location range).
  - apply IH; lia.
  - destruct (guint_add (location range) (length range) <? index_);
      [|reflexivity].
    apply IH; lia.
Qed.

Lemma get_position_search_spec (fuel : nat) (a : list GRange) (index_ lo : Z)
    (lower upper : nat) :
  0 <= lo -> ranges_above lo a ->
  (lower <= upper)%nat -> (upper <= array_len a)%nat ->
  (upper - lower < fuel)%nat ->
  (forall j r, (j < lower)%nat -> nth_error a j = Some r ->
     location r + length r < index_) ->
  (forall j r, (upper <= j)%nat -> nth_error a j = Some r ->
     index_ < location r) ->
  let p := get_position_search fuel a index_ lower upper
             (Nat.div (upper + lower) 2) in
  (p <= array_len a)%nat
  /\ forall j r, (j < p)%nat -> nth_error a j = Some r ->
       location r + length r <= index_.
Proof.
  intros Hlo Hok. revert lower upper.
  induction fuel as [|fuel IH]; intros lower upper Hle Hlen Hfuel Hbelow Habove;
    [lia|].
  cbn [get_position_search].
  destruct (Nat.eqb_spec upper lower) as [Heq|Hne].
  - subst upper. replace (Nat.div (lower + lower) 2) with lower.
    + split; [lia|]. intros j r Hj Hr. specialize (Hbelow j r Hj Hr). lia.
    + pose proof (Nat.div_mod_eq (lower + lower) 2).
      pose proof (Nat.mod_upper_bound (lower + lower) 2). lia.
  - assert (Hpos : (lower <= Nat.div (upper + lower) 2 < upper)%nat).
    { pose proof (Nat.div_mod_eq (upper + lower) 2).
      pose proof (Nat.mod_upper_bound (upper + lower) 2). lia. }
    set (pos := Nat.div (upper + lower) 2) in *.
    destruct (nth_error a pos) as [range|] eqn:Hrange.
    2:{ apply nth_error_None in Hrange. lia. }
    destruct (ranges_above_nth _ _ _ _ Hok Hrange) as (Hr1 & Hr2 & Hr3).
    assert (Hmax : guint_add (location range) (length range)
                   = location range + length range).
    { apply (get_max_in_bounds range); lia. }
    rewrite Hmax.
    destruct (Z.ltb_spec index_ (location range)) as [Hlt|Hge].
    + apply IH; try lia; trivial.
      intros j r Hj Hr.
      destruct (Nat.eq_dec j pos) as [->|Hjp]; [congruence|].
      pose proof (ranges_above_lt _ _ pos j _ _ Hok ltac:(lia) Hrange Hr). lia.
    + destruct (Z.ltb_spec (location range + length range) index_) as [Hlt|Hge'].
      * apply IH; try lia; trivial.
        intros j r Hj Hr.
        destruct (Nat.eq_dec j pos) as [->|Hjp];
          [replace r with range by congruence; lia|].
        pose proof (ranges_above_lt _ _ j pos _ _ Hok ltac:(lia) Hr Hrange).
        lia.
      * split; [lia|]. intros j r Hj Hr.
        pose proof (ranges_above_lt _ _ j pos _ _ Hok Hj Hr Hrange). lia.
Qed.

Lemma get_position_skip_spec (rest : list GRange) (index_ lo : Z) (pos : nat) :
  0 <= lo -> ranges_above lo rest ->
  exists L R,
    rest = L ++ R
    /\ get_position_skip index_ rest pos = (pos + array_len L)%nat
    /\ Forall (fun r => location r + length r <= index_) L
    /\ match R with
       | [] => True
       | r :: _ => index_ < location r + length r
       end.
Proof.
  revert lo pos. induction rest as [|r rest IH]; intros lo pos Hlo Hok.
  - exists [], []. simpl. repeat split; auto.
  - destruct Hok as (H1 & H2 & H3 & H4). simpl.
    rewrite get_max_in_bounds by lia.
    destruct (Z.leb_spec (location r + length r) index_) as [Hle|Hgt].
    + destruct (IH (location r + length r + 1) (S pos) ltac:(lia) H4)
        as (L & R & -> & Hp & HL & HR).
      exists (r :: L), R. simpl. repeat split; auto.
      rewrite Hp. lia.
    + exists [], (r :: rest). simpl. repeat split; auto.
Qed.

Lemma Forall_firstn_nth (P : GRange -> Prop) (a : list GRange) (p : nat) :
  (forall j r, (j < p)%nat -> nth_error a j = Some r -> P r) ->
  Forall P (firstn p a).
Proof.
  revert p. induction a as [|x a IH]; intros p H.
  - rewrite firstn_nil. constructor.
  - destruct p as [|p]; simpl; constructor.
    + apply (H O x); [lia|reflexivity].
    + apply IH. intros j r Hj Hr. apply (H (S j) r); [lia|exact Hr].
Qed.

(** On a store that satisfies the invariant, the resolved position of an
    index is the number of ranges that end at or before it: the range at
    that position, if any, is the first one that ends after the index. *)
Lemma get_position_spec (a : list GRange) (index_ : Z) :
  ranges_ok a ->
  exists L R,
    a = L ++ R
    /\ g_index_set_get_position a index_ = array_len L
    /\ Forall (fun r => location r + length r <= index_) L
    /\ match R with
       | [] => True
       | r :: _ => index_ < location r + length r
       end.
Proof.
  intros Hok. unfold g_index_set_get_position.
  pose proof (get_position_search_spec (S (array_len a)) a index_ 0
                O (array_len a) ltac:(lia) Hok ltac:(lia) ltac:(lia) ltac:(lia))
    as Hs.
  rewrite Nat.add_0_r in Hs.
  destruct Hs as [Hp Hbefore].
  - intros j r Hj. lia.
  - intros j r Hj Hr.
    assert (Hn : nth_error a j <> None) by congruence.
    apply nth_error_Some in Hn. lia.
  - set (p := get_position_search _ _ _ _ _ _) in *.
    assert (Hsplit : a = firstn p a ++ skipn p a)
      by (symmetry; apply firstn_skipn).
    assert (Hok' := Hok). unfold ranges_ok in Hok'. rewrite Hsplit in Hok'.
    apply ranges_above_app in Hok'. destruct Hok' as [Hpre Hsuf].
    destruct (get_position_skip_spec (skipn p a) index_ _ p
                (bound_after_ge _ _ Hpre) Hsuf)
      as (L & R & HLR & Hres & HL & HR).
    exists (firstn p a ++ L), R. repeat split.
    + rewrite <- app_assoc, <- HLR. exact Hsplit.
    + rewrite Hres, length_app, firstn_length_le by lia. reflexivity.
    + apply Forall_app. split; [|exact HL].
      apply Forall_firstn_nth. exact Hbefore.
    + exact HR.
Qed.

(** ** GArray operations at the boundary of a split array *)

Lemma nth_error_app_mid (L R : list GRange) (x : GRange) :
  nth_error (L ++ x :: R) (array_len L) = Some x.
Proof. induction L as [|y L IH]; simpl; [reflexivity|exact IH]. Qed.

Lemma nth_error_app_next (L R : list GRange) (x y : GRange) :
  nth_error (L ++ x :: y :: R) (S (array_len L)) = Some y.
Proof. induction L as [|z L IH]; simpl; [reflexivity|exact IH]. Qed.

Lemma firstn_app_len (L R : list GRange) : firstn (array_len L) (L ++ R) = L.
Proof. induction L as [|y L IH]; simpl; [reflexivity|now rewrite IH]. Qed.

Lemma skipn_app_len (L R : list GRange) : skipn (array_len L) (L ++ R) = R.
Proof. induction L as [|y L IH]; simpl; [reflexivity|exact IH]. Qed.

Lemma skipn_app_next (L R : list GRange) (x : GRange) :
  skipn (S (array_len L)) (L ++ x :: R) = R.
Proof. induction L as [|y L IH]; [reflexivity|exact IH]. Qed.

Lemma insert_val_at (L R : list GRange) (v : GRange) :
  g_array_insert_val (L ++ R) (array_len L) v = L ++ v :: R.
Proof.
  unfold g_array_insert_val. now rewrite firstn_app_len, skipn_app_len.
Qed.

Lemma insert_val_next (L R : list GRange) (x v : GRange) :
  g_array_insert_val (L ++ x :: R) (S (array_len L)) v = L ++ x :: v :: R.
Proof.
  pose proof (insert_val_at (L ++ [x]) R v) as H.
  rewrite length_app, Nat.add_1_r, <- !app_assoc in H. exact H.
Qed.

Lemma remove_index_at (L R : list GRange) (x : GRange) :
  g_array_remove_index (L ++ x :: R) (array_len L) = L ++ R.
Proof.
  unfold g_array_remove_index. rewrite firstn_app_len.
  now rewrite skipn_app_next.
Qed.

Lemma remove_index_next (L R : list GRange) (x y : GRange) :
  g_array_remove_index (L ++ x :: y :: R) (S (array_len L)) = L ++ x :: R.
Proof.
  pose proof (remove_index_at (L ++ [x]) R y) as H.
  rewrite length_app, Nat.add_1_r, <- !app_assoc in H. exact H.
Qed.

Lemma add_to_length_at (L R : list GRange) (x : GRange) (delta : Z) :
  add_to_length (L ++ x :: R) (array_len L) delta
  = L ++ G_RANGE_INIT (location x) (guint_add (length x) delta) :: R.
Proof.
  unfold add_to_length. rewrite nth_error_app_mid, firstn_app_len.
  now rewrite skipn_app_next.
Qed.

(** ** Insertion keeps the invariant *)

Lemma coalesce_preceding_S (a : list GRange) (range : GRange) (pos' : nat) :
  coalesce_preceding a range (S pos')
  = match nth_error a pos' with
    | None => (a, S pos')
    | Some r =>
        if g_range_get_max r <? location range then (a, S pos')
        else if g_range_get_max range <=? g_range_get_max r then
          coalesce_preceding (g_array_remove_index a (S pos')) range pos'
        else
          coalesce_preceding
            (g_array_remove_index
               (add_to_length a pos'
                  (guint_sub (g_range_get_max range) (g_range_get_max r)))
               (S pos'))
            range pos'
    end.
Proof. reflexivity. Qed.

(** The loop over the preceding ranges stops at once when the range before
    [pos] ends before the new range starts. *)
Lemma coalesce_preceding_stop (A rest : list GRange) (range : GRange) (x : Z) :
  ranges_above 0 A -> bound_after 0 A <= x -> x <= location range ->
  coalesce_preceding (A ++ rest) range (array_len A) = (A ++ rest, array_len A).
Proof.
  intros Hok Hb Hx.
  induction A as [|p A' _] using rev_ind; [reflexivity|].
  rewrite bound_after_last in Hb.
  apply ranges_above_app in Hok. destruct Hok as [HA' Hp].
  pose proof (bound_after_ge _ _ HA') as Hge.
  destruct Hp as (Hp1 & Hp2 & Hp3 & _).
  rewrite length_app, Nat.add_1_r, <- app_assoc. simpl app.
  rewrite coalesce_preceding_S, nth_error_app_mid.
  rewrite (get_max_in_bounds p) by lia.
  destruct (Z.ltb_spec (location p + length p) (location range)); [reflexivity|lia].
Qed.

(** The new range was inserted at a position whose predecessors all end at
    or before its start, and whose successors start after its start. *)
Lemma preceding_fresh (L R : list GRange) (range : GRange) :
  ranges_above 0 L -> range_in_bounds range ->
  Forall (fun r => location r + length r <= location range) L ->
  ranges_above (location range + 1) R ->
  after_preceding range
    (coalesce_preceding (L ++ range :: R) range (array_len L)).
Proof.
  intros HL (Hr1 & Hr2 & Hr3) Hall HR.
  induction L as [|prev L' _] using rev_ind.
  - exists [], range, R, (location range + 1). simpl.
    repeat split; trivial; lia.
  - apply ranges_above_app in HL. destruct HL as [HL' Hprev].
    pose proof (bound_after_ge _ _ HL') as Hge.
    destruct Hprev as (Hp1 & Hp2 & Hp3 & _).
    apply Forall_app in Hall. destruct Hall as [_ Hall].
    inversion Hall as [|? ? Hpmax _]; subst.
    rewrite length_app, Nat.add_1_r, <- app_assoc. simpl app.
    rewrite coalesce_preceding_S, nth_error_app_mid.
    rewrite (get_max_in_bounds prev), (get_max_in_bounds range) by lia.
    destruct (Z.ltb_spec (location prev + length prev) (location range)).
    + exists (L' ++ [prev]), range, R, (location range + 1).
      rewrite bound_after_last, length_app, Nat.add_1_r, <- app_assoc.
      simpl app. repeat split; trivial; try lia.
      apply ranges_above_app. split; [exact HL'|]. simpl. lia.
    + destruct (Z.leb_spec (location range + length range)
                  (location prev + length prev)); [lia|].
      rewrite add_to_length_at, remove_index_next.
      assert (Hlen : guint_add (length prev)
                       (guint_sub (location range + length range)
                          (location prev + length prev))
                     = length prev + length range).
      { unfold guint_add, guint_sub.
        rewrite (guint_wrap_small (location range + length range
                                   - (location prev + length prev))) by lia.
        rewrite guint_wrap_small; lia. }
      rewrite Hlen.
      rewrite (coalesce_preceding_stop L' _ range (location prev))
        by (trivial; lia).
      exists L', (G_RANGE_INIT (location prev) (length prev + length range)),
        R, (location range + 1).
      simpl. repeat split; trivial; lia.
Qed.

(** The new range was inserted right after the range [r] that contains its
    start. *)
Lemma preceding_inside (L R : list GRange) (r range : GRange) :
  ranges_above 0 (L ++ r :: R) -> range_in_bounds range ->
  location r <= location range < location r + length r ->
  after_preceding range
    (coalesce_preceding (L ++ r :: range :: R) range (S (array_len L))).
Proof.
  intros Hok (Hr1 & Hr2 & Hr3) Hin.
  apply ranges_above_app in Hok. destruct Hok as [HL Hr].
  pose proof (bound_after_ge _ _ HL) as Hge.
  destruct Hr as (Hq1 & Hq2 & Hq3 & HR).
  rewrite coalesce_preceding_S, nth_error_app_mid.
  rewrite (get_max_in_bounds r), (get_max_in_bounds range) by lia.
  destruct (Z.ltb_spec (location r + length r) (location range)); [lia|].
  destruct (Z.leb_spec (location range + length range)
              (location r + length r)).
  - rewrite remove_index_next.
    rewrite (coalesce_preceding_stop L _ range (location r)) by (trivial; lia).
    exists L, r, R, (location r + length r + 1).
    repeat split; trivial; try lia. right; exact HR.
  - rewrite add_to_length_at, remove_index_next.
    assert (Hlen : guint_add (length r)
                     (guint_sub (location range + length range)
                        (location r + length r))
                   = location range + length range - location r).
    { unfold guint_add, guint_sub.
      rewrite (guint_wrap_small (location range + length range
                                 - (location r + length r))) by lia.
      rewrite guint_wrap_small; lia. }
    rewrite Hlen.
    rewrite (coalesce_preceding_stop L _ range (location r)) by (trivial; lia).
    exists L,
      (G_RANGE_INIT (location r)
         (location range + length range - location r)),
      R, (location r + length r + 1).
    simpl. repeat split; trivial; lia.
Qed.

(** The loop over the following ranges, started on a state left by the loop
    over the preceding ones: it returns the array with the ranges that the
    new range reaches merged into [cur]. *)
Lemma coalesce_following_spec (B : list GRange) :
  forall (fuel : nat) (A : list GRange) (cur : GRange) (lb : Z)
         (range : GRange),
    range_in_bounds range ->
    0 <= location cur -> 0 < length cur ->
    location cur + length cur <= G_MAXUINT ->
    location range + length range <= location cur + length cur ->
    0 <= lb -> ranges_above lb B ->
    (location cur + length cur = location range + length range
     \/ ranges_above (location cur + length cur + 1) B) ->
    (array_len B <= fuel)%nat ->
    exists cur' B',
      coalesce_following fuel (A ++ cur :: B) range (array_len A)
      = A ++ cur' :: B'
      /\ location cur' = location cur
      /\ ranges_above (location cur) (cur' :: B').
Proof.
  induction B as [|b B' IH];
    intros fuel A cur lb range Hrange Hc0 Hc1 Hc2 Hcover Hlb HB Hend Hfuel.
  - exists cur, []. split; [|simpl; repeat split; trivial; lia].
    destruct fuel as [|fuel]; [reflexivity|]. cbn [coalesce_following].
    replace (Nat.ltb (array_len A + 1) (array_len (A ++ [cur]))) with false;
      [reflexivity|].
    symmetry. apply Nat.ltb_ge. rewrite length_app. simpl. lia.
  - destruct fuel as [|fuel]; [simpl in Hfuel; lia|].
    simpl in Hfuel.
    destruct Hrange as (Hr1 & Hr2 & Hr3).
    destruct HB as (Hb1 & Hb2 & Hb3 & HB').
    cbn [coalesce_following]. rewrite Nat.add_1_r.
    replace (Nat.ltb (S (array_len A)) (array_len (A ++ cur :: b :: B')))
      with true
      by (symmetry; apply Nat.ltb_lt; rewrite length_app; simpl; lia).
    rewrite nth_error_app_next. unfold g_range_init_with_range.
    rewrite (get_max_in_bounds range), (get_max_in_bounds b) by lia.
    destruct (Z.ltb_spec (location range + length range) (location b))
      as [Hfar|Hnear].
    + exists cur, (b :: B'). split; [reflexivity|]. split; [reflexivity|].
      simpl. repeat split; trivial; try lia.
      destruct Hend as [Heq|(Hb & _)]; lia.
    + assert (Heq : location cur + length cur = location range + length range).
      { destruct Hend as [Heq|(Hb & _)]; lia. }
      rewrite remove_index_next.
      destruct (Z.ltb_spec (location range + length range)
                  (location b + length b)) as [Hlonger|Hinside].
      * rewrite add_to_length_at.
        unfold guint_sub. rewrite guint_add_int_offset.
        rewrite guint_wrap_small by lia.
        destruct (IH fuel A
                    (G_RANGE_INIT (location cur)
                       (length cur
                        + (location b + length b
                           - (location range + length range))))
                    (location b + length b + 1) range)
          as (cur' & B'' & Hres & Hloc & Hok);
          simpl; try lia; trivial.
        { repeat split; lia. }
        { right.
          replace (location cur
                   + (length cur
                      + (location b + length b
                         - (location range + length range))) + 1)
            with (location b + length b + 1) by lia.
          exact HB'. }
        simpl in Hloc, Hok. exists cur', B''. auto.
      * destruct (IH fuel A cur (location b + length b + 1) range)
          as (cur' & B'' & Hres & Hloc & Hok); trivial; try lia.
        { repeat split; lia. }
        exists cur', B''. auto.
Qed.

Lemma after_preceding_following (range : GRange) (res : list GRange * nat) :
  range_in_bounds range -> after_preceding range res ->
  ranges_ok (coalesce_following (array_len (fst res)) (fst res) range (snd res)).
Proof.
  intros Hrange (A & cur & B & lb & -> & HA & Hb & Hc1 & Hc2 & Hcover & Hlb
                 & HB & Hend).
  pose proof (bound_after_ge _ _ HA) as Hge. simpl fst. simpl snd.
  destruct (coalesce_following_spec B (array_len (A ++ cur :: B)) A cur lb range)
    as (cur' & B' & -> & Hloc & Hok); trivial; try lia.
  { rewrite length_app. simpl. lia. }
  unfold ranges_ok. apply ranges_above_app. split; [exact HA|].
  apply (ranges_above_weaken _ (location cur)); trivial.
Qed.

(** The insertion with its two coalescing loops keeps the invariant, for any
    range that is not empty and does not reach past [G_MAXUINT]. *)
Lemma add_range_coalesce_ok (a : list GRange) (range : GRange) :
  ranges_ok a -> range_in_bounds range ->
  ranges_ok (add_range_coalesce a range).
Proof.
  intros Hok Hrange.
  destruct (get_position_spec a (location range) Hok)
    as (L & R & -> & Hpos & HL & HR).
  unfold add_range_coalesce. rewrite Hpos.
  assert (Hsplit := Hok). apply ranges_above_app in Hsplit.
  destruct Hsplit as [HokL HokR].
  pose proof (bound_after_ge _ _ HokL) as Hge.
  pose proof Hrange as (Hr1 & Hr2 & Hr3).
  unfold g_range_init_with_range, g_array_append_val.
  destruct R as [|r R'].
  - rewrite app_nil_r, Nat.leb_refl.
    pose proof (preceding_fresh L [] range HokL Hrange HL I) as Hafter.
    destruct (coalesce_preceding (L ++ [range]) range (array_len L))
      as [a2 pos2] eqn:Hcp.
    apply (after_preceding_following range (a2, pos2) Hrange Hafter).
  - replace (Nat.leb (array_len (L ++ r :: R')) (array_len L)) with false
      by (symmetry; apply Nat.leb_gt; rewrite length_app; simpl; lia).
    rewrite nth_error_app_mid.
    destruct HokR as (Hq1 & Hq2 & Hq3 & HokR').
    unfold g_range_contains_location.
    fold (g_range_get_max r). rewrite (get_max_in_bounds r) by lia.
    destruct (Z.leb_spec (location r) (location range)) as [Hin|Hout];
      destruct (Z.ltb_spec (location range) (location r + length r));
      try lia; cbn [andb].
    + rewrite Nat.add_1_r, insert_val_next.
      pose proof (preceding_inside L R' r range Hok Hrange ltac:(lia))
        as Hafter.
      destruct (coalesce_preceding (L ++ r :: range :: R') range
                  (S (array_len L))) as [a2 pos2] eqn:Hcp.
      apply (after_preceding_following range (a2, pos2) Hrange Hafter).
    + rewrite insert_val_at.
      assert (HR1 : ranges_above (location range + 1) (r :: R')).
      { simpl. repeat split; trivial; lia. }
      pose proof (preceding_fresh L (r :: R') range HokL Hrange HL HR1)
        as Hafter.
      destruct (coalesce_preceding (L ++ range :: r :: R') range
                  (array_len L)) as [a2 pos2] eqn:Hcp.
      apply (after_preceding_following range (a2, pos2) Hrange Hafter).
Qed.

(** ** Stored fields stay [guint]s *)

Lemma all_ranges_firstn (a : list GRange) (n : nat) :
  all_ranges a -> all_ranges (firstn n a).
Proof.
  intros H. rewrite <- (firstn_skipn n a) in H. apply Forall_app in H. tauto.
Qed.

Lemma all_ranges_skipn (a : list GRange) (n : nat) :
  all_ranges a -> all_ranges (skipn n a).
Proof.
  intros H. rewrite <- (firstn_skipn n a) in H. apply Forall_app in H. tauto.
Qed.

Lemma all_ranges_insert_val (a : list GRange) (pos : nat) (v : GRange) :
  all_ranges a -> is_range v = true -> all_ranges (g_array_insert_val a pos v).
Proof.
  intros Ha Hv. unfold g_array_insert_val. apply Forall_app. split.
  - now apply all_ranges_firstn.
  - constructor; [exact Hv|now apply all_ranges_skipn].
Qed.

Lemma all_ranges_remove_index (a : list GRange) (pos : nat) :
  all_ranges a -> all_ranges (g_array_remove_index a pos).
Proof.
  intros Ha. unfold g_array_remove_index. apply Forall_app. split.
  - now apply all_ranges_firstn.
  - now apply all_ranges_skipn.
Qed.

Lemma all_ranges_add_to_length (a : list GRange) (pos : nat) (delta : Z) :
  all_ranges a -> all_ranges (add_to_length a pos delta).
Proof.
  intros Ha. unfold add_to_length.
  destruct (nth_error a pos) as [r|] eqn:Hr; [|exact Ha].
  apply Forall_app. split; [now apply all_ranges_firstn|].
  constructor; [|now apply all_ranges_skipn].
  apply nth_error_In in Hr.
  pose proof (proj1 (Forall_forall _ a) Ha r Hr) as Hrr.
  apply is_range_spec in Hrr. apply is_range_spec. simpl.
  split; [tauto|apply guint_wrap_range].
Qed.

Lemma all_ranges_coalesce_preceding (pos : nat) :
  forall (a : list GRange) (range : GRange),
    all_ranges a -> all_ranges (fst (coalesce_preceding a range pos)).
Proof.
  induction pos as [|pos IH]; intros a range Ha; [exact Ha|].
  rewrite coalesce_preceding_S.
  destruct (nth_error a pos) as [r|]; [|exact Ha].
  destruct (g_range_get_max r <? location range); [exact Ha|].
  destruct (g_range_get_max range <=? g_range_get_max r); apply IH.
  - now apply all_ranges_remove_index.
  - now apply all_ranges_remove_index, all_ranges_add_to_length.
Qed.

Lemma all_ranges_coalesce_following (fuel : nat) :
  forall (a : list GRange) (range : GRange) (pos : nat),
    all_ranges a -> all_ranges (coalesce_following fuel a range pos).
Proof.
  induction fuel as [|fuel IH]; intros a range pos Ha; [exact Ha|].
  cbn [coalesce_following].
  destruct (Nat.ltb (pos + 1) (array_len a)); [|exact Ha].
  destruct (nth_error a (pos + 1)) as [r|]; [|exact Ha].
  destruct (g_range_get_max range <? location r); [exact Ha|].
  destruct (g_range_get_max range <? g_range_get_max (g_range_init_with_range r));
    apply IH.
  - now apply all_ranges_add_to_length, all_ranges_remove_index.
  - now apply all_ranges_remove_index.
Qed.

Lemma all_ranges_add_range_coalesce (a : list GRange) (range : GRange) :
  all_ranges a -> is_range range = true ->
  all_ranges (add_range_coalesce a range).
Proof.
  intros Ha Hr. unfold add_range_coalesce.
  set (pos := g_index_set_get_position a (location range)).
  assert (H1 : all_ranges
                 (fst (if Nat.leb (array_len a) pos
                       then (g_array_append_val a (g_range_init_with_range range), pos)
                       else match nth_error a pos with
                            | None => (a, pos)
                            | Some r =>
                                let pos' :=
                                  if g_range_contains_location r (location range)
                                  then (pos + 1)%nat else pos in
                                (g_array_insert_val a pos'
                                   (g_range_init_with_range range), pos')
                            end))).
  { destruct (Nat.leb (array_len a) pos).
    - simpl. apply Forall_app. split; [exact Ha|]. constructor; [exact Hr|constructor].
    - destruct (nth_error a pos); [|exact Ha].
      simpl. now apply all_ranges_insert_val. }
  destruct (if Nat.leb (array_len a) pos then _ else _) as [a1 pos1].
  simpl in H1.
  pose proof (all_ranges_coalesce_preceding pos1 a1 range H1) as H2.
  destruct (coalesce_preceding a1 range pos1) as [a2 pos2]. simpl in H2.
  now apply all_ranges_coalesce_following.
Qed.

(** ** The internal insertion *)

(** Whatever [guint] range is inserted, an insertion that returns leaves a
    store that satisfies the invariant. *)
Lemma add_range_internal_ok (a a' : list GRange) (range : GRange) :
  ranges_ok a -> is_range range = true ->
  g_index_set_add_range_internal a range = Some a' -> ranges_ok a'.
Proof.
  intros Hok Hr. unfold g_index_set_add_range_internal.
  destruct (length range =? 0); [now intros [= <-]|].
  destruct (g_index_set_ensure_ranges (add_range_coalesce a range)) eqn:He;
    [|discriminate].
  intros [= <-]. apply ensure_ranges_spec; [|exact He].
  apply all_ranges_add_range_coalesce; [|exact Hr].
  now apply ranges_ok_is_range.
Qed.

(** An insertion whose range stays within the [guint]s always returns. *)
Lemma add_range_internal_returns (a : list GRange) (range : GRange) :
  ranges_ok a -> is_range range = true -> reaches_end range = false ->
  exists a', g_index_set_add_range_internal a range = Some a'.
Proof.
  intros Hok Hr Hend. unfold g_index_set_add_range_internal.
  unfold reaches_end in Hend. apply is_range_spec in Hr.
  destruct (Z.eqb_spec (length range) 0) as [H0|H0]; [eauto|].
  simpl in Hend. apply Z.ltb_ge in Hend.
  assert (Hb : range_in_bounds range) by (unfold range_in_bounds; lia).
  pose proof (add_range_coalesce_ok a range Hok Hb) as Hok'.
  apply ensure_ranges_spec in Hok'; [|now apply ranges_ok_is_range].
  rewrite Hok'. eauto.
Qed.

Lemma add_ranges_loop_ok (rs : list GRange) :
  forall a a', ranges_ok a -> forallb is_range rs = true ->
    add_ranges_loop a rs = Some a' -> ranges_ok a'.
Proof.
  induction rs as [|r rs IH]; intros a a' Hok Hrs; simpl.
  - now intros [= <-].
  - simpl in Hrs. apply andb_true_iff in Hrs. destruct Hrs as [Hr Hrs].
    destruct (g_index_set_add_range_internal a r) as [a1|] eqn:Ha1;
      [|discriminate].
    apply IH; trivial. exact (add_range_internal_ok a a1 r Hok Hr Ha1).
Qed.

Lemma add_ranges_loop_returns (rs : list GRange) :
  forall a, ranges_ok a -> forallb is_range rs = true ->
    existsb reaches_end rs = false ->
    exists a', add_ranges_loop a rs = Some a'.
Proof.
  induction rs as [|r rs IH]; intros a Hok Hrs Hend; simpl; [eauto|].
  simpl in Hrs, Hend. apply andb_true_iff in Hrs. destruct Hrs as [Hr Hrs].
  apply orb_false_iff in Hend. destruct Hend as [Hend Hends].
  destruct (add_range_internal_returns a r Hok Hr Hend) as [a1 Ha1].
  rewrite Ha1. apply IH; trivial.
  exact (add_range_internal_ok a a1 r Hok Hr Ha1).
Qed.

(** ** Sequences of mutations *)

Lemma ranges_ok_store_invariant (a : list GRange) :
  ranges_ok a -> store_invariant a.
Proof.
  intros Hok. repeat split.
  - now apply ranges_ok_sorted.
  - now apply ranges_ok_no_overlap.
  - now apply ranges_ok_no_adjacent.
  - now apply ranges_ok_no_empty.
Qed.

Lemma set_ok_store_result (s : GIndexSet) (a : list GRange)
    (rs : list GRange) :
  is_mutable s = true -> ranges_ok a -> forallb is_range rs = true ->
  match store_result s (add_ranges_loop a rs) with
  | Done s' => set_ok s'
  | Refused _ => False
  | Aborted => existsb reaches_end rs = true
  end.
Proof.
  intros Hm Hok Hrs.
  destruct (add_ranges_loop a rs) as [a'|] eqn:Hloop; simpl.
  - split; [exact Hm|]. exists a'. split; [reflexivity|].
    exact (add_ranges_loop_ok rs a a' Hok Hrs Hloop).
  - destruct (existsb reaches_end rs) eqn:Hend; [reflexivity|].
    destruct (add_ranges_loop_returns rs a Hok Hrs Hend) as [a' Ha'].
    congruence.
Qed.

Lemma add_ranges_loop_one (a : list GRange) (r : GRange) :
  add_ranges_loop a [r] = g_index_set_add_range_internal a r.
Proof. simpl. now destruct (g_index_set_add_range_internal a r). Qed.

Lemma apply_mutation_ok (s : GIndexSet) (m : mutation) :
  set_ok s -> mutation_ok m = true ->
  match apply_mutation s m with
  | Done s' => set_ok s'
  | Refused _ => False
  | Aborted => mutation_reaches_end m = true
  end.
Proof.
  intros Hs Hm. pose proof Hs as (Hmut & a & Ha & Hok).
  unfold mutation_ok in Hm. apply andb_true_iff in Hm. destruct Hm as [Hrs _].
  unfold mutation_reaches_end.
  destruct m as [index_|indices|range|set|index_]; simpl apply_mutation.
  - unfold g_index_set_add_index, g_index_set_is_mutable.
    rewrite Hmut, Ha. simpl negb. cbv iota.
    rewrite <- add_ranges_loop_one.
    exact (set_ok_store_result s a _ Hmut Hok Hrs).
  - unfold g_index_set_add_indices, g_index_set_is_mutable.
    rewrite Hmut, Ha. simpl negb. cbv iota.
    destruct indices as [|i indices]; [exact Hs|].
    exact (set_ok_store_result s a _ Hmut Hok Hrs).
  - unfold g_index_set_add_range, g_index_set_is_mutable.
    rewrite Hmut, Ha. simpl negb. cbv iota.
    rewrite <- add_ranges_loop_one.
    exact (set_ok_store_result s a _ Hmut Hok Hrs).
  - unfold g_index_set_add_set, g_index_set_is_mutable.
    rewrite Hmut, Ha. simpl negb. cbv iota.
    simpl mutation_ranges in *.
    destruct (ranges set) as [[|r rs]|]; try exact Hs.
    exact (set_ok_store_result s a _ Hmut Hok Hrs).
  - unfold g_index_set_remove_index, g_index_set_remove_range.
    rewrite Ha. destruct a as [|r a']; [exact Hs|].
    destruct (Nat.leb _ _); exact Hs.
Qed.

Lemma run_ok (ms : list mutation) :
  forall s, set_ok s -> forallb mutation_ok ms = true ->
    match run ms s with
    | Some s' => set_ok s'
    | None => existsb mutation_reaches_end ms = true
    end.
Proof.
  induction ms as [|m ms IH]; intros s Hs Hms; simpl; [exact Hs|].
  simpl in Hms. apply andb_true_iff in Hms. destruct Hms as [Hm Hms].
  pose proof (apply_mutation_ok s m Hs Hm) as Hstep.
  destruct (apply_mutation s m) as [s'|s'|]; [|contradiction|].
  - specialize (IH s' Hstep Hms).
    destruct (run ms s'); [exact IH|]. rewrite IH. apply orb_true_r.
  - now rewrite Hstep.
Qed.

Lemma set_ok_init : set_ok (g_index_set_init g_index_set_alloc).
Proof. split; [reflexivity|]. exists []. split; [reflexivity|exact I]. Qed.

Lemma run_store_invariant (ms : list mutation) :
  forallb mutation_ok ms = true ->
  match run ms (g_index_set_init g_index_set_alloc) with
  | Some s => exists a, ranges s = Some a /\ store_invariant a
  | None => existsb mutation_reaches_end ms = true
  end.
Proof.
  intros Hms.
  pose proof (run_ok ms _ set_ok_init Hms) as H.
  destruct (run ms (g_index_set_init g_index_set_alloc)) as [s|]; [|exact H].
  destruct H as (_ & a & Ha & Hok). exists a. split; [exact Ha|].
  now apply ranges_ok_store_invariant.
Qed.

Lemma forallb_firstn (A : Type) (f : A -> bool) (l : list A) (k : nat) :
  forallb f l = true -> forallb f (firstn k l) = true.
Proof.
  revert k. induction l as [|x l IH]; intros k H.
  - now rewrite firstn_nil.
  - destruct k as [|k]; [reflexivity|]. simpl in *.
    apply andb_true_iff in H. destruct H as [Hx Hl].
    rewrite Hx. simpl. now apply IH.
Qed.

Lemma existsb_firstn (A : Type) (f : A -> bool) (l : list A) (k : nat) :
  existsb f l = false -> existsb f (firstn k l) = false.
Proof.
  revert k. induction l as [|x l IH]; intros k H.
  - now rewrite firstn_nil.
  - destruct k as [|k]; [reflexivity|]. simpl in *.
    apply orb_false_iff in H. destruct H as [Hx Hl].
    rewrite Hx. simpl. now apply IH.
Qed.

(** C1 fails on the code.  Adding the largest [guint] to a freshly
    initialized set is a valid call of [g_index_set_add_index], yet it
    leaves no store that satisfies the invariant: the range
    [{4294967295, 1}] is appended, its end wraps to 0, and the consistency
    check that closes the insertion fails, which stops the program.  The
    check is all that stands between a range that reaches past the largest
    [guint] and the store: the insertion of [{3, 4294967295}] into
    [{0,1}; {5,1}], a valid call of [g_index_set_add_range] after two valid
    calls of [g_index_set_add_index], leaves overlapping ranges before the
    check, and the check stops the program there too. *)
Theorem add_largest_index_aborts :
  forallb mutation_ok [AddIndex 4294967295] = true
  /\ add_range_coalesce [] (G_RANGE_INIT 4294967295 1)
     = [G_RANGE_INIT 4294967295 1]
  /\ g_index_set_ensure_ranges [G_RANGE_INIT 4294967295 1] = false
  /\ run [AddIndex 4294967295] (g_index_set_init g_index_set_alloc) = None
  /\ forallb mutation_ok
       [AddIndex 0; AddIndex 5; AddRange (G_RANGE_INIT 3 4294967295)] = true
  /\ run [AddIndex 0; AddIndex 5] (g_index_set_init g_index_set_alloc)
     = Some (mkGIndexSet 1 (Some [G_RANGE_INIT 0 1; G_RANGE_INIT 5 1]) true)
  /\ add_range_coalesce [G_RANGE_INIT 0 1; G_RANGE_INIT 5 1]
       (G_RANGE_INIT 3 4294967295)
     = [G_RANGE_INIT 0 1; G_RANGE_INIT 3 4294967295; G_RANGE_INIT 5 1]
  /\ ~ no_overlap
         [G_RANGE_INIT 0 1; G_RANGE_INIT 3 4294967295; G_RANGE_INIT 5 1]
  /\ run [AddIndex 0; AddIndex 5; AddRange (G_RANGE_INIT 3 4294967295)]
       (g_index_set_init g_index_set_alloc) = None.
Proof.
  eval_conj.
  intros H.
  apply (H 1%nat 2%nat (G_RANGE_INIT 3 4294967295) (G_RANGE_INIT 5 1) 5);
    simpl; try reflexivity; lia.
Qed.

(** X30.  Every sequence of add-index, add-index-list, add-range,
    add-other-set and remove-index calls with [guint] arguments in which no
    inserted range reaches past the largest [guint] runs through on a
    freshly initialized set: no consistency check fails, and after each
    call of the sequence (after its first [k] calls, for every [k]) the set
    is still mutable and its store is sorted by location, has no
    overlapping ranges, has no adjacent ranges and has no empty range. *)
Theorem invariant_preserved_below_end (ms : list mutation) (k : nat) :
  forallb mutation_ok ms = true ->
  existsb mutation_reaches_end ms = false ->
  exists s a,
    run (firstn k ms) (g_index_set_init g_index_set_alloc) = Some s
    /\ is_mutable s = true
    /\ ranges s = Some a
    /\ store_invariant a.
Proof.
  intros Hms Hend.
  pose proof (run_ok (firstn k ms) _ set_ok_init
                (forallb_firstn _ _ _ k Hms)) as H.
  rewrite (existsb_firstn _ _ _ k Hend) in H.
  destruct (run (firstn k ms) (g_index_set_init g_index_set_alloc)) as [s|];
    [|discriminate H].
  destruct H as (Hmut & a & Ha & Hok).
  exists s, a. split; [reflexivity|]. split; [exact Hmut|].
  split; [exact Ha|]. now apply ranges_ok_store_invariant.
Qed.

Lemma invariant_preserved_below_end_witness :
  exists s a,
    run
      (firstn 4
         [AddIndex 5; AddIndices [0; 1; 2]; AddRange (G_RANGE_INIT 9 3);
          AddSet (mkGIndexSet 1 (Some [G_RANGE_INIT 2 4; G_RANGE_INIT 20 1])
                    false);
          RemoveIndex 1])
      (g_index_set_init g_index_set_alloc) = Some s
    /\ is_mutable s = true
    /\ ranges s = Some a
    /\ store_invariant a.
Proof.
  apply (invariant_preserved_below_end
           [AddIndex 5; AddIndices [0; 1; 2]; AddRange (G_RANGE_INIT 9 3);
            AddSet (mkGIndexSet 1
                      (Some [G_RANGE_INIT 2 4; G_RANGE_INIT 20 1]) false);
            RemoveIndex 1]
           4); reflexivity.
Defined.

(** ** The scenario of the add test *)

(** C6.  From an empty, mutable set, adding 5, then 0, 1, 2, then 7, 6, 2
    with [g_index_set_add_index] leaves the two ranges [0,3) and [5,8):
    size 6, first index 0, last index 7. *)
Theorem add_index_scenario :
  exists s,
    run [AddIndex 5; AddIndex 0; AddIndex 1; AddIndex 2;
         AddIndex 7; AddIndex 6; AddIndex 2]
      (g_index_set_init g_index_set_alloc) = Some s
    /\ is_mutable s = true
    /\ ranges s = Some [G_RANGE_INIT 0 3; G_RANGE_INIT 5 3]
    /\ g_index_set_get_size s = 6
    /\ g_index_set_get_first_index s = 0
    /\ g_index_set_get_last_index s = 7.
Proof.
  eexists. split; [vm_compute; reflexivity|]. eval_conj.
Qed.

(** ** Containment of a range *)

Lemma set_0_10_init :
  g_index_set_init_with_range g_index_set_alloc (G_RANGE_INIT 0 10)
  = Some set_0_10.
Proof. vm_compute. reflexivity. Qed.

Lemma set_across_not_found_init :
  g_index_set_init_with_range g_index_set_alloc (G_RANGE_INIT 2147483640 20)
  = Some set_across_not_found.
Proof. vm_compute. reflexivity. Qed.

(** C10.  An empty range is contained in every index set: the answer is
    [true] whatever the set holds (empty, NULL or filled store). *)
Theorem contains_empty_range (index_set : GIndexSet) (range : GRange) :
  length range = 0 -> g_index_set_contains_range index_set range = true.
Proof.
  intros H. unfold g_index_set_contains_range. now rewrite H.
Qed.

Lemma contains_empty_range_witness :
  g_index_set_contains_range (g_index_set_init_empty g_index_set_alloc)
    (G_RANGE_INIT 7 0) = true.
Proof.
  apply (contains_empty_range (g_index_set_init_empty g_index_set_alloc)
           (G_RANGE_INIT 7 0)).
  reflexivity.
Defined.

(** ** The "not found" sentinel *)

(** C5 fails as stated: the sentinel is not the largest [guint], and adding
    it with [g_index_set_add_index] makes it a contained index. *)
Lemma not_found_counterexample :
  G_INDEX_SET_NOT_FOUND <> G_MAXUINT
  /\ exists s,
       run [AddIndex G_INDEX_SET_NOT_FOUND]
         (g_index_set_init g_index_set_alloc) = Some s
       /\ g_index_set_contains_index s G_INDEX_SET_NOT_FOUND = true.
Proof.
  split; [discriminate|].
  eexists. split; [vm_compute; reflexivity|]. vm_compute. reflexivity.
Qed.

Lemma get_index_not_found_ge (index_set : GIndexSet) :
  g_index_set_get_index index_set
    G_INDEX_SET_PREDICATE_GREATER_THAN_OR_EQUAL G_INDEX_SET_NOT_FOUND
  = G_INDEX_SET_NOT_FOUND.
Proof.
  unfold g_index_set_get_index.
  destruct (ranges index_set) as [[|r a]|]; reflexivity.
Qed.

Lemma get_index_not_found_gt (index_set : GIndexSet) (index_ : Z) :
  guint_add index_ 1 = G_INDEX_SET_NOT_FOUND ->
  g_index_set_get_index index_set G_INDEX_SET_PREDICATE_GREATER_THAN index_
  = G_INDEX_SET_NOT_FOUND.
Proof.
  intros H. unfold g_index_set_get_index.
  destruct (ranges index_set) as [[|r a]|]; try reflexivity.
  now rewrite H, Z.eqb_refl.
Qed.

Lemma contains_range_past_not_found (index_set : GIndexSet) (range : GRange) :
  0 < length range <= G_INDEX_SET_NOT_FOUND ->
  G_INDEX_SET_NOT_FOUND < location range + length range ->
  g_index_set_contains_range index_set range = false.
Proof.
  intros Hlen Hpast. unfold g_index_set_contains_range.
  destruct (Z.eqb_spec (length range) 0) as [H0|_]; [lia|].
  unfold guint_sub. rewrite guint_wrap_small.
  - destruct (Z.ltb_spec (G_INDEX_SET_NOT_FOUND - length range)
                (location range)); [reflexivity|lia].
  - unfold G_INDEX_SET_NOT_FOUND, G_MAXINT, G_MAXUINT in *. lia.
Qed.

(** C5, amended.  The sentinel is [G_MAXINT], the largest [int], which lies
    below the largest [guint]; the queries whose upper bound meets it report
    "not found" or [false]: "greater than" on the index just below the
    sentinel, "greater or equal" on the sentinel, and the containment of a
    range, not longer than the sentinel, whose end lies past it. *)
Theorem not_found_guards :
  G_INDEX_SET_NOT_FOUND = 2147483647
  /\ G_INDEX_SET_NOT_FOUND < G_MAXUINT
  /\ (forall index_set index_,
        guint_add index_ 1 = G_INDEX_SET_NOT_FOUND ->
        g_index_set_get_index index_set
          G_INDEX_SET_PREDICATE_GREATER_THAN index_ = G_INDEX_SET_NOT_FOUND)
  /\ (forall index_set,
        g_index_set_get_index index_set
          G_INDEX_SET_PREDICATE_GREATER_THAN_OR_EQUAL G_INDEX_SET_NOT_FOUND
        = G_INDEX_SET_NOT_FOUND)
  /\ (forall index_set range,
        0 < length range <= G_INDEX_SET_NOT_FOUND ->
        G_INDEX_SET_NOT_FOUND < location range + length range ->
        g_index_set_contains_range index_set range = false).
Proof.
  split; [reflexivity|]. split; [reflexivity|].
  split; [exact get_index_not_found_gt|].
  split; [exact get_index_not_found_ge|exact contains_range_past_not_found].
Qed.

Lemma not_found_guards_witness :
  g_index_set_get_index set_across_not_found
    G_INDEX_SET_PREDICATE_GREATER_THAN 2147483646 = G_INDEX_SET_NOT_FOUND
  /\ g_index_set_contains_range set_across_not_found
       (G_RANGE_INIT 2147483640 8) = false.
Proof.
  destruct not_found_guards as (_ & _ & Hgt & _ & Hrange). split.
  - apply Hgt. reflexivity.
  - apply Hrange; simpl; unfold G_INDEX_SET_NOT_FOUND, G_MAXINT; lia.
Defined.

(** ** Nearest index *)

Lemma set_even_init :
  g_index_set_init_with_indicesv g_index_set_alloc [0; 2; 4; 6; 8]
  = Some set_even.
Proof. vm_compute. reflexivity. Qed.

(** "Greater than" is "greater or equal" on the next index, computed as a
    [guint]. *)
Lemma get_index_greater_than (index_set : GIndexSet) (index_ : Z) :
  g_index_set_get_index index_set G_INDEX_SET_PREDICATE_GREATER_THAN index_
  = g_index_set_get_index index_set
      G_INDEX_SET_PREDICATE_GREATER_THAN_OR_EQUAL (guint_add index_ 1).
Proof.
  unfold g_index_set_get_index.
  destruct (ranges index_set) as [[|r a]|]; try reflexivity.
  unfold get_index_greater_or_equal.
  now destruct (guint_add index_ 1 =? G_INDEX_SET_NOT_FOUND).
Qed.

(** "Less than" is "less or equal" on the previous index, and "not found"
    at index 0. *)
Lemma get_index_less_than (index_set : GIndexSet) (index_ : Z) :
  g_index_set_get_index index_set G_INDEX_SET_PREDICATE_LESS_THAN index_
  = if index_ =? 0 then G_INDEX_SET_NOT_FOUND
    else g_index_set_get_index index_set
           G_INDEX_SET_PREDICATE_LESS_THAN_OR_EQUAL (guint_sub index_ 1).
Proof.
  unfold g_index_set_get_index.
  destruct (ranges index_set) as [[|r a]|]; try reflexivity;
    now destruct (index_ =? 0).
Qed.

(** The scenario of the specification on the even set. *)
Lemma get_index_even_scenario :
  g_index_set_get_index set_even G_INDEX_SET_PREDICATE_GREATER_THAN 4 = 6
  /\ g_index_set_get_index set_even G_INDEX_SET_PREDICATE_LESS_THAN 0
     = G_INDEX_SET_NOT_FOUND.
Proof. eval_conj. Qed.

(** C8, at the failing input.  No index is greater than the largest [guint],
    yet "greater than" on it wraps to index 0 and answers 0, the first
    index of the even set, instead of the sentinel. *)
Theorem get_index_greater_than_wraps :
  g_index_set_get_index set_even G_INDEX_SET_PREDICATE_GREATER_THAN G_MAXUINT
  = 0
  /\ g_index_set_contains_index set_even 0 = true
  /\ 0 <> G_INDEX_SET_NOT_FOUND.
Proof. eval_conj. discriminate. Qed.

(** ** Removal *)

(** [g_index_set_remove_range] never changes the set. *)
Lemma remove_range_unchanged (index_set : GIndexSet) (range : GRange) :
  g_index_set_remove_range index_set range = index_set.
Proof.
  unfold g_index_set_remove_range.
  destruct (ranges index_set) as [[|r a]|]; try reflexivity.
  now destruct (Nat.leb _ _).
Qed.

(** C2, at the failing input.  Removing index 5 from the mutable set that
    holds [0,10) leaves the set as it was: 5 is still contained. *)
Theorem remove_index_keeps_index :
  exists s,
    run [AddRange (G_RANGE_INIT 0 10)] (g_index_set_init g_index_set_alloc)
    = Some s
    /\ g_index_set_contains_index s 5 = true
    /\ g_index_set_remove_range s (G_RANGE_INIT 5 1) = s
    /\ g_index_set_remove_index s 5 = Done s
    /\ run [AddRange (G_RANGE_INIT 0 10); RemoveIndex 5]
         (g_index_set_init g_index_set_alloc) = Some s.
Proof.
  eexists. split; [vm_compute; reflexivity|]. eval_conj.
Qed.

(** ** Enumeration *)

(** C3, at the failing input.  On the set that holds [0,10), of size 10, the
    forward enumeration of the whole set calls the callback for no index,
    and the backward one for the ten indices 9 down to 0. *)
Theorem enumerate_forward_visits_nothing :
  g_index_set_get_size set_0_10 = 10
  /\ visited set_0_10 G_INDEX_SET_ENUMERATE_NONE = []
  /\ visited set_0_10 G_INDEX_SET_ENUMERATE_REVERSE
     = [9; 8; 7; 6; 5; 4; 3; 2; 1; 0].
Proof. eval_conj. Qed.

(** On a set of several ranges it is the backward enumeration that visits
    nothing, and the forward one misses the last range. *)
Lemma enumerate_even_set :
  visited set_even G_INDEX_SET_ENUMERATE_NONE = [0; 2; 4; 6]
  /\ visited set_even G_INDEX_SET_ENUMERATE_REVERSE = [].
Proof. eval_conj. Qed.

(** C4, at the failing input.  On the set that holds [0,10), with the query
    range of location 3 and length 4, the backward enumeration hands all of
    9 down to 0 to the callback, six of them outside the query range, and
    the forward enumeration hands it nothing. *)
Theorem enumerate_in_range_not_clipped :
  visited_in_range set_0_10 (G_RANGE_INIT 3 4) G_INDEX_SET_ENUMERATE_REVERSE
  = [9; 8; 7; 6; 5; 4; 3; 2; 1; 0]
  /\ g_range_contains_location (G_RANGE_INIT 3 4) 9 = false
  /\ visited_in_range set_0_10 (G_RANGE_INIT 3 4) G_INDEX_SET_ENUMERATE_NONE
     = [].
Proof. eval_conj. Qed.

(** ** Immutable sets *)

(** The insertions check [g_index_set_is_mutable] first: on an immutable set
    they are refused and the set is returned as it was. *)
Lemma add_refused_when_immutable (index_set : GIndexSet) (m : mutation) :
  is_mutable index_set = false ->
  match m with
  | RemoveIndex _ => True
  | _ => apply_mutation index_set m = Refused index_set
  end.
Proof.
  intros H. destruct m; simpl; trivial;
    unfold g_index_set_add_index, g_index_set_add_indices,
      g_index_set_add_range, g_index_set_add_set, g_index_set_is_mutable;
    now rewrite H.
Qed.

(** No mutation makes an immutable set mutable, or changes it. *)
Lemma immutable_unchanged (index_set : GIndexSet) (m : mutation) :
  is_mutable index_set = false ->
  apply_mutation index_set m = Refused index_set
  \/ apply_mutation index_set m = Done index_set.
Proof.
  intros H. destruct m as [i|l|r|s|i].
  - left. exact (add_refused_when_immutable index_set (AddIndex i) H).
  - left. exact (add_refused_when_immutable index_set (AddIndices l) H).
  - left. exact (add_refused_when_immutable index_set (AddRange r) H).
  - left. exact (add_refused_when_immutable index_set (AddSet s) H).
  - right. cbn [apply_mutation]. unfold g_index_set_remove_index.
    now rewrite remove_range_unchanged.
Qed.

(** C9, at the failing input.  On the immutable set that holds [0,10),
    [g_index_set_remove_index] returns normally, no precondition violation
    is reported, whereas [g_index_set_add_index] is refused. *)
Theorem remove_index_not_refused :
  is_mutable set_0_10 = false
  /\ g_index_set_remove_index set_0_10 5 = Done set_0_10
  /\ g_index_set_add_index set_0_10 5 = Refused set_0_10.
Proof. eval_conj. Qed.

(** ** The iteration bounds of the loops are large enough

    Each loop that is embedded with a bound on its iterations leaves through
    its own exit test before the bound is used up: a larger bound gives the
    same result.  (For the binary search this is
    [get_position_search_fuel].) *)

Lemma remove_index_length (a : list GRange) (pos : nat) :
  (pos < array_len a)%nat ->
  array_len (g_array_remove_index a pos) = (array_len a - 1)%nat.
Proof.
  intros H. unfold g_array_remove_index.
  rewrite length_app, firstn_length_le, length_skipn by lia. lia.
Qed.

Lemma add_to_length_length (a : list GRange) (pos : nat) (delta : Z) :
  array_len (add_to_length a pos delta) = array_len a.
Proof.
  unfold add_to_length. destruct (nth_error a pos) as [r|] eqn:Hr; [|reflexivity].
  assert (Hlt : (pos < array_len a)%nat)
    by (apply nth_error_Some; congruence).
  rewrite length_app, firstn_length_le by lia. cbn [Datatypes.length].
  rewrite length_skipn. lia.
Qed.

Lemma coalesce_following_fuel (fuel1 : nat) :
  forall (fuel2 : nat) (a : list GRange) (range : GRange) (pos : nat),
    (array_len a - pos <= fuel1)%nat -> (array_len a - pos <= fuel2)%nat ->
    coalesce_following fuel1 a range pos = coalesce_following fuel2 a range pos.
Proof.
  induction fuel1 as [|fuel1 IH]; intros fuel2 a range pos H1 H2.
  - destruct fuel2 as [|fuel2]; [reflexivity|]. cbn [coalesce_following].
    replace (Nat.ltb (pos + 1) (array_len a)) with false; [reflexivity|].
    symmetry. apply Nat.ltb_ge. lia.
  - cbn [coalesce_following].
    destruct (Nat.ltb_spec (pos + 1) (array_len a)) as [Hlt|Hge].
    + destruct fuel2 as [|fuel2]; [lia|]. cbn [coalesce_following].
      replace (Nat.ltb (pos + 1) (array_len a)) with true
        by (symmetry; apply Nat.ltb_lt; exact Hlt).
      destruct (nth_error a (pos + 1)) as [r|]; [|reflexivity].
      destruct (g_range_get_max range <? location r); [reflexivity|].
      destruct (g_range_get_max range
                <? g_range_get_max (g_range_init_with_range r));
        apply IH;
        rewrite ?add_to_length_length, remove_index_length by lia; lia.
    + destruct fuel2 as [|fuel2]; [reflexivity|]. cbn [coalesce_following].
      replace (Nat.ltb (pos + 1) (array_len a)) with false; [reflexivity|].
      symmetry. apply Nat.ltb_ge. exact Hge.
Qed.

(** The number of iterations the walk over one stored range can make. *)
Lemma enumerate_indices_fuel (D : Type) (func : Z -> D -> bool * D)
    (is_reverse : bool) (r_stop : Z) (fuel1 : nat) :
  forall (fuel2 : nat) (j : Z) (data : D),
    0 <= j <= G_MAXUINT -> 0 <= r_stop <= G_MAXUINT ->
    let needed :=
      if is_reverse then Z.to_nat (j - r_stop + 1) else Z.to_nat (r_stop - j) in
    (needed <= fuel1)%nat -> (needed <= fuel2)%nat ->
    enumerate_indices D func fuel1 is_reverse j r_stop data
    = enumerate_indices D func fuel2 is_reverse j r_stop data.
Proof.
  assert (Hexit : forall fuel j data,
             (if is_reverse then Z.to_nat (j - r_stop + 1)
              else Z.to_nat (r_stop - j)) = O ->
             enumerate_indices D func fuel is_reverse j r_stop data
             = (false, data)).
  { intros fuel j data H0. destruct fuel as [|fuel]; [reflexivity|].
    cbn [enumerate_indices]. destruct is_reverse.
    - destruct (Z.leb_spec r_stop j); [lia|reflexivity].
    - destruct (Z.ltb_spec j r_stop); [lia|reflexivity]. }
  induction fuel1 as [|fuel1 IH]; intros fuel2 j data Hj Hs needed H1 H2.
  - rewrite (Hexit fuel2) by (subst needed; lia). reflexivity.
  - destruct fuel2 as [|fuel2].
    + rewrite (Hexit (S fuel1)) by (subst needed; lia). reflexivity.
    + cbn [enumerate_indices].
      destruct (if is_reverse then r_stop <=? j else j <? r_stop) eqn:Hcond;
        [|reflexivity].
      destruct (func j data) as [should_stop data'].
      destruct should_stop; [reflexivity|].
      subst needed. destruct is_reverse.
      * apply Z.leb_le in Hcond.
        destruct (Z.eqb_spec j 0) as [Hz|Hnz]; [reflexivity|].
        assert (Hsub : guint_sub j 1 = j - 1)
          by (apply guint_wrap_small; lia).
        rewrite Hsub. apply IH; lia.
      * apply Z.ltb_lt in Hcond.
        assert (Hadd : guint_add j 1 = j + 1)
          by (apply guint_wrap_small; lia).
        rewrite Hadd. apply IH; lia.
Qed.

(** The number of iterations the walk over the positions can make. *)
Lemma enumerate_ranges_fuel (D : Type) (func : Z -> D -> bool * D)
    (a : list GRange) (is_reverse : bool) (stop : nat) (fuel1 : nat) :
  forall (fuel2 i : nat) (data : D),
    let needed := if is_reverse then S i else (stop - i)%nat in
    (needed <= fuel1)%nat -> (needed <= fuel2)%nat ->
    enumerate_ranges D func fuel1 a is_reverse i stop data
    = enumerate_ranges D func fuel2 a is_reverse i stop data.
Proof.
  induction fuel1 as [|fuel1 IH]; intros fuel2 i data needed H1 H2.
  - destruct is_reverse; [subst needed; lia|].
    destruct fuel2 as [|fuel2]; [reflexivity|]. cbn [enumerate_ranges].
    destruct (Nat.ltb_spec i stop); [subst needed; lia|reflexivity].
  - destruct fuel2 as [|fuel2].
    + destruct is_reverse; [subst needed; lia|]. cbn [enumerate_ranges].
      destruct (Nat.ltb_spec i stop); [subst needed; lia|reflexivity].
    + cbn [enumerate_ranges].
      destruct (if is_reverse then Nat.leb stop i else Nat.ltb i stop)
        eqn:Hcond; [|reflexivity].
      destruct (nth_error a i) as [r_range|]; [|reflexivity].
      destruct (enumerate_indices D func _ is_reverse _ _ data)
        as [stopped data'].
      destruct stopped; [reflexivity|].
      subst needed. destruct is_reverse.
      * destruct i as [|i']; [reflexivity|]. apply IH; lia.
      * apply Nat.ltb_lt in Hcond. apply IH; lia.
Qed.

(** The resolved position never lies past the end of the array, whatever the
    array holds: the walk over the positions starts inside the array. *)
Lemma get_position_search_le (fuel : nat) (a : list GRange) (index_ : Z) :
  forall lower upper : nat,
    (lower <= upper)%nat ->
    (get_position_search fuel a index_ lower upper (Nat.div (upper + lower) 2)
     <= upper)%nat.
Proof.
  induction fuel as [|fuel IH]; intros lower upper Hle;
    assert (Hpos : (lower <= Nat.div (upper + lower) 2 <= upper)%nat)
      by (pose proof (Nat.div_mod_eq (upper + lower) 2);
          pose proof (Nat.mod_upper_bound (upper + lower) 2); lia);
    cbn [get_position_search]; [lia|].
  destruct (Nat.eqb_spec upper lower); [lia|].
  assert (Hlt : (Nat.div (upper + lower) 2 < upper)%nat)
    by (pose proof (Nat.div_mod_eq (upper + lower) 2);
        pose proof (Nat.mod_upper_bound (upper + lower) 2); lia).
  destruct (nth_error a (Nat.div (upper + lower) 2)) as [range|]; [|lia].
  destruct (index_ <? location range).
  - specialize (IH lower (Nat.div (upper + lower) 2) ltac:(lia)). lia.
  - destruct (guint_add (location range) (length range) <? index_); [|lia].
    apply IH. lia.
Qed.

Lemma get_position_skip_le (index_ : Z) (rest : list GRange) :
  forall pos : nat,
    (get_position_skip index_ rest pos <= pos + array_len rest)%nat.
Proof.
  induction rest as [|r rest IH]; intros pos; simpl; [lia|].
  destruct (g_range_get_max r <=? index_); [|lia].
  specialize (IH (S pos)). lia.
Qed.

Lemma get_position_le (a : list GRange) (index_ : Z) :
  (g_index_set_get_position a index_ <= array_len a)%nat.
Proof.
  unfold g_index_set_get_position.
  pose proof (get_position_search_le (S (array_len a)) a index_ O
                (array_len a) ltac:(lia)) as Hs.
  rewrite Nat.add_0_r in Hs.
  set (p := get_position_search _ _ _ _ _ _) in *.
  pose proof (get_position_skip_le index_ (skipn p a) p) as Hk.
  rewrite length_skipn in Hk. lia.
Qed.

(** ** What the queries mean on a store that satisfies the invariant *)

Lemma ranges_above_In (a : list GRange) (lo : Z) (r : GRange) :
  ranges_above lo a -> In r a ->
  lo <= location r /\ 0 < length r /\ location r + length r <= G_MAXUINT.
Proof.
  intros Hok Hin. apply In_nth_error in Hin. destruct Hin as [i Hi].
  exact (ranges_above_nth a lo i r Hok Hi).
Qed.

Lemma ends_before_In (L : list GRange) (i : Z) (r : GRange) :
  Forall (fun r => location r + length r <= i) L -> In r L ->
  location r + length r <= i.
Proof. intros H Hin. exact (proj1 (Forall_forall _ L) H r Hin). Qed.

Lemma contains_location_in_bounds (r : GRange) (i : Z) :
  range_in_bounds r ->
  g_range_contains_location r i = true
  <-> location r <= i < location r + length r.
Proof.
  intros (H1 & H2 & H3). unfold g_range_contains_location.
  fold (g_range_get_max r). rewrite get_max_in_bounds by lia.
  rewrite andb_true_iff, Z.leb_le, Z.ltb_lt. tauto.
Qed.

(** [g_index_set_contains_index] answers [true] exactly for the indices that
    lie in a stored range. *)
Lemma contains_index_spec (index_set : GIndexSet) (a : list GRange) (i : Z) :
  ranges index_set = Some a -> ranges_ok a ->
  g_index_set_contains_index index_set i = true <-> index_in_store a i.
Proof.
  intros Ha Hok. unfold g_index_set_contains_index, index_in_store.
  rewrite Ha.
  destruct (get_position_spec a i Hok) as (L & R & -> & -> & HL & HR).
  assert (Hsplit := Hok). apply ranges_above_app in Hsplit.
  destruct Hsplit as [HokL HokR].
  destruct R as [|r0 R'].
  - rewrite app_nil_r in *.
    replace (nth_error L (array_len L)) with (@None GRange)
      by (symmetry; apply nth_error_None; lia).
    split; [discriminate|]. intros (r & Hin & Hr).
    pose proof (ends_before_In L i r HL Hin). lia.
  - rewrite nth_error_app_mid.
    destruct HokR as (Hq1 & Hq2 & Hq3 & HokR').
    pose proof (bound_after_ge _ _ HokL) as Hge.
    rewrite contains_location_in_bounds by (unfold range_in_bounds; lia).
    split.
    + intros Hr. exists r0. split; [|exact Hr].
      apply in_or_app. right. left. reflexivity.
    + intros (r & Hin & Hr). apply in_app_or in Hin.
      destruct Hin as [Hin|[<-|Hin]]; [| exact Hr |].
      * pose proof (ends_before_In L i r HL Hin). lia.
      * destruct (ranges_above_In _ _ _ HokR' Hin) as (? & _). lia.
Qed.

(** On a store that satisfies the invariant, [g_index_set_get_index] returns
    the sentinel whenever no stored index satisfies the predicate; for
    "greater than" this needs an index below the largest [guint], so that
    the next index does not wrap. *)
Lemma get_index_not_found (index_set : GIndexSet) (a : list GRange)
    (predicate : GIndexSetPredicate) (index_ : Z) :
  ranges index_set = Some a -> ranges_ok a ->
  0 <= index_ <= G_MAXUINT ->
  (predicate = G_INDEX_SET_PREDICATE_GREATER_THAN -> index_ < G_MAXUINT) ->
  (forall j, index_in_store a j -> ~ satisfies predicate index_ j) ->
  g_index_set_get_index index_set predicate index_ = G_INDEX_SET_NOT_FOUND.
Proof.
  intros Ha Hok Hi Hgt Hnone.
  assert (Hge : forall i,
             (forall j, index_in_store a j -> ~ i <= j) ->
             get_index_greater_or_equal a i = G_INDEX_SET_NOT_FOUND).
  { intros i Hno. unfold get_index_greater_or_equal.
    destruct (i =? G_INDEX_SET_NOT_FOUND); [reflexivity|].
    destruct (get_position_spec a i Hok) as (L & R & HLR & -> & HL & HR).
    subst a. destruct R as [|r R'].
    - rewrite app_nil_r.
      replace (nth_error L (array_len L)) with (@None GRange)
        by (symmetry; apply nth_error_None; lia).
      reflexivity.
    - exfalso.
      assert (Hin : In r (L ++ r :: R'))
        by (apply in_or_app; right; left; reflexivity).
      destruct (ranges_above_In _ _ _ Hok Hin) as (Hr1 & Hr2 & Hr3).
      apply (Hno (Z.max i (location r))); [|lia].
      exists r. split; [exact Hin|lia]. }
  assert (Hle : forall i,
             (forall j, index_in_store a j -> ~ j <= i) ->
             get_index_less_or_equal a i = G_INDEX_SET_NOT_FOUND).
  { intros i Hno. unfold get_index_less_or_equal.
    destruct (get_position_spec a i Hok) as (L & R & HLR & -> & HL & HR).
    subst a. destruct R as [|r R'].
    - rewrite app_nil_r.
      replace (nth_error L (array_len L)) with (@None GRange)
        by (symmetry; apply nth_error_None; lia).
      reflexivity.
    - rewrite nth_error_app_mid.
      assert (Hin : In r (L ++ r :: R'))
        by (apply in_or_app; right; left; reflexivity).
      pose proof (ranges_above_In _ _ _ Hok Hin) as Hr.
      destruct (g_range_contains_location r i) eqn:Hc.
      + exfalso. apply contains_location_in_bounds in Hc; [|exact Hr].
        apply (Hno i); [|lia]. exists r. split; [exact Hin|exact Hc].
      + destruct L as [|p L' _] using rev_ind; [reflexivity|].
        exfalso.
        assert (Hinp : In p ((L' ++ [p]) ++ r :: R')).
        { apply in_or_app. left. apply in_or_app. right. left. reflexivity. }
        destruct (ranges_above_In _ _ _ Hok Hinp) as (Hp1 & Hp2 & Hp3).
        apply Forall_app in HL. destruct HL as [_ HL].
        inversion HL as [|? ? Hpmax _]; subst.
        apply (Hno (location p + length p - 1)); [|lia].
        exists p. split; [exact Hinp|lia]. }
  destruct predicate.
  - rewrite get_index_less_than.
    destruct (Z.eqb_spec index_ 0) as [H0|H0]; [reflexivity|].
    unfold g_index_set_get_index. rewrite Ha.
    destruct a as [|r0 a0]; [reflexivity|].
    apply Hle. intros j Hj Hsat. apply (Hnone j Hj). simpl.
    unfold guint_sub in Hsat. rewrite guint_wrap_small in Hsat; lia.
  - unfold g_index_set_get_index. rewrite Ha.
    destruct a as [|r0 a0]; [reflexivity|].
    apply Hle. exact Hnone.
  - unfold g_index_set_get_index. rewrite Ha.
    destruct a as [|r0 a0]; [reflexivity|].
    apply Hge. exact Hnone.
  - rewrite get_index_greater_than.
    unfold g_index_set_get_index. rewrite Ha.
    destruct a as [|r0 a0]; [reflexivity|].
    specialize (Hgt eq_refl).
    apply Hge. intros j Hj Hsat. apply (Hnone j Hj). simpl.
    unfold guint_add in Hsat. rewrite guint_wrap_small in Hsat; lia.
Qed.

(** ** What an insertion does to the set of indices *)

Lemma index_in_store_nil (i : Z) : ~ index_in_store [] i.
Proof. intros (r & [] & _). Qed.

Lemma index_in_store_cons (r : GRange) (a : list GRange) (i : Z) :
  index_in_store (r :: a) i <-> in_range r i \/ index_in_store a i.
Proof.
  unfold index_in_store, in_range. split.
  - intros (q & [<-|Hin] & Hq); [left; exact Hq|right; eauto].
  - intros [Hr|(q & Hin & Hq)]; [exists r|exists q]; simpl; auto.
Qed.

Lemma index_in_store_app (a b : list GRange) (i : Z) :
  index_in_store (a ++ b) i <-> index_in_store a i \/ index_in_store b i.
Proof.
  unfold index_in_store. split.
  - intros (q & Hin & Hq). apply in_app_or in Hin.
    destruct Hin; [left|right]; eauto.
  - intros [(q & Hin & Hq)|(q & Hin & Hq)]; exists q; split; trivial;
      apply in_or_app; auto.
Qed.

(** The indices of a store that satisfies the invariant lie at or above its
    lower bound. *)
Lemma index_in_store_above (a : list GRange) (lo i : Z) :
  ranges_above lo a -> index_in_store a i -> lo <= i.
Proof.
  intros Hok (r & Hin & Hr).
  destruct (ranges_above_In _ _ _ Hok Hin) as (? & _). lia.
Qed.

Lemma preceding_fresh_sem (L R : list GRange) (range : GRange) :
  ranges_above 0 L -> range_in_bounds range ->
  Forall (fun r => location r + length r <= location range) L ->
  exists A cur,
    coalesce_preceding (L ++ range :: R) range (array_len L)
    = (A ++ cur :: R, array_len A)
    /\ ranges_above 0 A /\ bound_after 0 A <= location cur
    /\ location cur <= location range /\ 0 < length cur
    /\ location cur + length cur = location range + length range
    /\ forall i, index_in_store (A ++ [cur]) i
                 <-> index_in_store L i \/ in_range range i.
Proof.
  intros HL (Hr1 & Hr2 & Hr3) Hall.
  induction L as [|prev L' _] using rev_ind.
  - exists [], range. simpl. repeat split; trivial; try lia.
    + intros H. right. apply index_in_store_cons in H.
      destruct H as [H|H]; [exact H|destruct (index_in_store_nil i H)].
    + intros [H|H]; [destruct (index_in_store_nil i H)|].
      apply index_in_store_cons. left. exact H.
  - apply ranges_above_app in HL. destruct HL as [HL' Hprev].
    pose proof (bound_after_ge _ _ HL') as Hge.
    destruct Hprev as (Hp1 & Hp2 & Hp3 & _).
    apply Forall_app in Hall. destruct Hall as [_ Hall].
    inversion Hall as [|? ? Hpmax _]; subst.
    rewrite length_app, Nat.add_1_r, <- app_assoc. simpl app.
    rewrite coalesce_preceding_S, nth_error_app_mid.
    rewrite (get_max_in_bounds prev), (get_max_in_bounds range) by lia.
    destruct (Z.ltb_spec (location prev + length prev) (location range)).
    + exists (L' ++ [prev]), range.
      rewrite bound_after_last, length_app, Nat.add_1_r, <- app_assoc.
      simpl app. repeat split; trivial; try lia.
      * apply ranges_above_app. split; [exact HL'|]. simpl. lia.
      * intros H'. apply index_in_store_app in H'.
        destruct H' as [H'|H']; [left; exact H'|right].
        apply index_in_store_cons in H'.
        destruct H' as [H'|H']; [exact H'|destruct (index_in_store_nil i H')].
      * intros [H'|H']; apply index_in_store_app; [left; exact H'|right].
        apply index_in_store_cons. left. exact H'.
    + destruct (Z.leb_spec (location range + length range)
                  (location prev + length prev)); [lia|].
      rewrite add_to_length_at, remove_index_next.
      assert (Hlen : guint_add (length prev)
                       (guint_sub (location range + length range)
                          (location prev + length prev))
                     = length prev + length range).
      { unfold guint_add, guint_sub.
        rewrite (guint_wrap_small (location range + length range
                                   - (location prev + length prev))) by lia.
        rewrite guint_wrap_small; lia. }
      rewrite Hlen.
      rewrite (coalesce_preceding_stop L' _ range (location prev))
        by (trivial; lia).
      exists L', (G_RANGE_INIT (location prev) (length prev + length range)).
      simpl. repeat split; trivial; try lia.
      * intros H'. apply index_in_store_app in H'.
        destruct H' as [H'|H'].
        -- left. apply index_in_store_app. left. exact H'.
        -- apply index_in_store_cons in H'.
           destruct H' as [H'|H']; [|destruct (index_in_store_nil i H')].
           unfold in_range in H'. simpl in H'.
           destruct (Z_lt_le_dec i (location range)).
           ++ left. apply index_in_store_app. right.
              apply index_in_store_cons. left. unfold in_range. lia.
           ++ right. unfold in_range. lia.
      * intros [H'|H'].
        -- apply index_in_store_app in H'. apply index_in_store_app.
           destruct H' as [H'|H']; [left; exact H'|right].
           apply index_in_store_cons in H'. apply index_in_store_cons.
           destruct H' as [H'|H']; [|destruct (index_in_store_nil i H')].
           left. unfold in_range in *. simpl. lia.
        -- apply index_in_store_app. right. apply index_in_store_cons. left.
           unfold in_range in *. simpl. lia.
Qed.

Lemma preceding_inside_sem (L R : list GRange) (r range : GRange) :
  ranges_above 0 (L ++ r :: R) -> range_in_bounds range ->
  location r <= location range < location r + length r ->
  exists cur,
    coalesce_preceding (L ++ r :: range :: R) range (S (array_len L))
    = (L ++ cur :: R, array_len L)
    /\ location cur = location r
    /\ location cur + length cur
       = Z.max (location r + length r) (location range + length range).
Proof.
  intros Hok (Hr1 & Hr2 & Hr3) Hin.
  apply ranges_above_app in Hok. destruct Hok as [HL Hr].
  pose proof (bound_after_ge _ _ HL) as Hge.
  destruct Hr as (Hq1 & Hq2 & Hq3 & HR).
  rewrite coalesce_preceding_S, nth_error_app_mid.
  rewrite (get_max_in_bounds r), (get_max_in_bounds range) by lia.
  destruct (Z.ltb_spec (location r + length r) (location range)); [lia|].
  destruct (Z.leb_spec (location range + length range)
              (location r + length r)).
  - rewrite remove_index_next.
    rewrite (coalesce_preceding_stop L _ range (location r)) by (trivial; lia).
    exists r. repeat split; lia.
  - rewrite add_to_length_at, remove_index_next.
    assert (Hlen : guint_add (length r)
                     (guint_sub (location range + length range)
                        (location r + length r))
                   = location range + length range - location r).
    { unfold guint_add, guint_sub.
      rewrite (guint_wrap_small (location range + length range
                                 - (location r + length r))) by lia.
      rewrite guint_wrap_small; lia. }
    rewrite Hlen.
    rewrite (coalesce_preceding_stop L _ range (location r)) by (trivial; lia).
    eexists. split; [reflexivity|]. simpl. lia.
Qed.

Lemma coalesce_following_sem (B : list GRange) :
  forall (fuel : nat) (A : list GRange) (cur : GRange) (lb : Z)
         (range : GRange),
    range_in_bounds range ->
    0 <= location cur -> 0 < length cur ->
    location cur + length cur <= G_MAXUINT ->
    location range + length range <= location cur + length cur ->
    location cur < lb -> ranges_above lb B ->
    (location cur + length cur = location range + length range
     \/ ranges_above (location cur + length cur + 1) B) ->
    (array_len B <= fuel)%nat ->
    exists cur' B',
      coalesce_following fuel (A ++ cur :: B) range (array_len A)
      = A ++ cur' :: B'
      /\ forall i, index_in_store (cur' :: B') i
                   <-> index_in_store (cur :: B) i.
Proof.
  induction B as [|b B' IH];
    intros fuel A cur lb range Hrange Hc0 Hc1 Hc2 Hcover Hlb HB Hend Hfuel.
  - exists cur, []. split; [|tauto].
    destruct fuel as [|fuel]; [reflexivity|]. cbn [coalesce_following].
    replace (Nat.ltb (array_len A + 1) (array_len (A ++ [cur]))) with false;
      [reflexivity|].
    symmetry. apply Nat.ltb_ge. rewrite length_app. simpl. lia.
  - destruct fuel as [|fuel]; [simpl in Hfuel; lia|].
    simpl in Hfuel.
    destruct Hrange as (Hr1 & Hr2 & Hr3).
    destruct HB as (Hb1 & Hb2 & Hb3 & HB').
    cbn [coalesce_following]. rewrite Nat.add_1_r.
    replace (Nat.ltb (S (array_len A)) (array_len (A ++ cur :: b :: B')))
      with true
      by (symmetry; apply Nat.ltb_lt; rewrite length_app; simpl; lia).
    rewrite nth_error_app_next. unfold g_range_init_with_range.
    rewrite (get_max_in_bounds range), (get_max_in_bounds b) by lia.
    destruct (Z.ltb_spec (location range + length range) (location b))
      as [Hfar|Hnear].
    + exists cur, (b :: B'). split; [reflexivity|tauto].
    + assert (Heq : location cur + length cur = location range + length range).
      { destruct Hend as [Heq|(Hb & _)]; lia. }
      rewrite remove_index_next.
      destruct (Z.ltb_spec (location range + length range)
                  (location b + length b)) as [Hlonger|Hinside].
      * rewrite add_to_length_at.
        unfold guint_sub. rewrite guint_add_int_offset.
        rewrite guint_wrap_small by lia.
        set (cur1 := G_RANGE_INIT (location cur)
                       (length cur
                        + (location b + length b
                           - (location range + length range)))).
        destruct (IH fuel A cur1 (location b + length b + 1) range)
          as (cur' & B'' & Hres & Hsem);
          subst cur1; simpl; try lia; trivial.
        { repeat split; lia. }
        { right.
          replace (location cur
                   + (length cur
                      + (location b + length b
                         - (location range + length range))) + 1)
            with (location b + length b + 1) by lia.
          exact HB'. }
        exists cur', B''. split; [exact Hres|].
        intros i. rewrite Hsem, !index_in_store_cons.
        unfold in_range. simpl. split.
        -- intros [H|H]; [|tauto].
           destruct (Z_lt_le_dec i (location b)); [left|right; left]; lia.
        -- intros [H|[H|H]]; [left|left|right]; trivial; lia.
      * destruct (IH fuel A cur (location b + length b + 1) range)
          as (cur' & B'' & Hres & Hsem); trivial; try lia.
        { repeat split; lia. }
        exists cur', B''. split; [exact Hres|].
        intros i. rewrite Hsem, !index_in_store_cons.
        unfold in_range. split.
        -- intros [H|H]; tauto.
        -- intros [H|[H|H]]; [left|left|right]; trivial; lia.
Qed.

(** The array left by the insertion holds the indices it held before and
    the indices of the new range, and no other. *)
Lemma add_range_coalesce_index (a : list GRange) (range : GRange) (i : Z) :
  ranges_ok a -> range_in_bounds range ->
  index_in_store (add_range_coalesce a range) i
  <-> index_in_store a i \/ in_range range i.
Proof.
  intros Hok Hrange.
  destruct (get_position_spec a (location range) Hok)
    as (L & R & -> & Hpos & HL & HR).
  unfold add_range_coalesce. rewrite Hpos.
  assert (Hsplit := Hok). apply ranges_above_app in Hsplit.
  destruct Hsplit as [HokL HokR].
  pose proof (bound_after_ge _ _ HokL) as Hge.
  pose proof Hrange as (Hr1 & Hr2 & Hr3).
  unfold g_range_init_with_range, g_array_append_val.
  assert (Hfresh : forall R0,
             ranges_above (location range + 1) R0 ->
             index_in_store
               (let '(a2, pos2) :=
                  coalesce_preceding (L ++ range :: R0) range (array_len L) in
                coalesce_following (array_len a2) a2 range pos2) i
             <-> index_in_store (L ++ R0) i \/ in_range range i).
  { intros R0 HR0.
    destruct (preceding_fresh_sem L R0 range HokL Hrange HL)
      as (A & cur & -> & HA & HbA & Hcl & Hcn & Hcm & Hsem).
    pose proof (bound_after_ge _ _ HA) as HgeA.
    destruct (coalesce_following_sem R0 (array_len (A ++ cur :: R0)) A cur
                (location range + 1) range)
      as (cur' & B' & -> & Hsem'); trivial; try lia.
    { rewrite length_app. simpl. lia. }
    rewrite index_in_store_app, Hsem', index_in_store_cons.
    rewrite index_in_store_app.
    specialize (Hsem i). rewrite index_in_store_app in Hsem.
    rewrite index_in_store_cons in Hsem.
    pose proof (index_in_store_nil i). tauto. }
  destruct R as [|r R'].
  - rewrite app_nil_r, Nat.leb_refl.
    specialize (Hfresh [] I). rewrite app_nil_r in Hfresh. exact Hfresh.
  - replace (Nat.leb (array_len (L ++ r :: R')) (array_len L)) with false
      by (symmetry; apply Nat.leb_gt; rewrite length_app; simpl; lia).
    rewrite nth_error_app_mid.
    destruct HokR as (Hq1 & Hq2 & Hq3 & HokR').
    unfold g_range_contains_location.
    fold (g_range_get_max r). rewrite (get_max_in_bounds r) by lia.
    destruct (Z.leb_spec (location r) (location range)) as [Hin|Hout];
      destruct (Z.ltb_spec (location range) (location r + length r));
      try lia; cbn [andb].
    + rewrite Nat.add_1_r, insert_val_next.
      destruct (preceding_inside_sem L R' r range Hok Hrange ltac:(lia))
        as (cur & -> & Hcl & Hcm).
      destruct (coalesce_following_sem R' (array_len (L ++ cur :: R')) L cur
                  (location r + length r + 1) range)
        as (cur' & B' & -> & Hsem'); trivial; try lia.
      { destruct (Z.max_spec (location r + length r)
                    (location range + length range)) as [[? Hm]|[? Hm]];
          [left; lia|right].
        replace (location cur + length cur) with (location r + length r)
          by lia.
        exact HokR'. }
      { rewrite length_app. simpl. lia. }
      rewrite !index_in_store_app, Hsem', !index_in_store_cons.
      unfold in_range. split.
      * intros [Hx|[Hx|Hx]]; [tauto| |tauto].
        destruct (Z_lt_le_dec i (location r + length r));
          [left; right; left|right]; lia.
      * intros [[Hx|[Hx|Hx]]|Hx]; [tauto| |tauto|]; right; left; lia.
    + rewrite insert_val_at. apply Hfresh.
      simpl. repeat split; trivial; lia.
Qed.

Lemma contains_location_no_wrap (r : GRange) (i : Z) :
  0 <= location r -> 0 <= length r -> location r + length r <= G_MAXUINT ->
  g_range_contains_location r i = true <-> in_range r i.
Proof.
  intros H1 H2 H3. unfold g_range_contains_location, in_range.
  fold (g_range_get_max r). rewrite get_max_in_bounds by lia.
  rewrite andb_true_iff, Z.leb_le, Z.ltb_lt. tauto.
Qed.

Lemma reaches_end_false (range : GRange) :
  is_range range = true -> reaches_end range = false ->
  0 <= location range /\ 0 <= length range
  /\ location range + length range <= G_MAXUINT.
Proof.
  intros Hr Hend. apply is_range_spec in Hr. unfold reaches_end in Hend.
  destruct (Z.eqb_spec (length range) 0) as [H0|H0].
  - rewrite H0. lia.
  - simpl in Hend. apply Z.ltb_ge in Hend. lia.
Qed.

Lemma add_range_internal_index (a : list GRange) (range : GRange) :
  ranges_ok a -> is_range range = true -> reaches_end range = false ->
  exists a',
    g_index_set_add_range_internal a range = Some a'
    /\ ranges_ok a'
    /\ forall i, index_in_store a' i
                 <-> index_in_store a i \/ in_range range i.
Proof.
  intros Hok Hr Hend.
  destruct (reaches_end_false range Hr Hend) as (H1 & H2 & H3).
  unfold g_index_set_add_range_internal.
  destruct (Z.eqb_spec (length range) 0) as [H0|H0].
  - exists a. repeat split; trivial; [tauto|].
    intros [H|H]; [exact H|]. unfold in_range in H. lia.
  - assert (Hb : range_in_bounds range) by (unfold range_in_bounds; lia).
    pose proof (add_range_coalesce_ok a range Hok Hb) as Hok'.
    assert (He := Hok').
    apply ensure_ranges_spec in He; [|now apply ranges_ok_is_range].
    rewrite He. exists (add_range_coalesce a range).
    repeat split; trivial; apply add_range_coalesce_index; trivial.
Qed.

Lemma add_ranges_loop_index (rs : list GRange) :
  forall a,
    ranges_ok a -> forallb is_range rs = true ->
    existsb reaches_end rs = false ->
    exists a',
      add_ranges_loop a rs = Some a'
      /\ ranges_ok a'
      /\ forall i, index_in_store a' i
                   <-> index_in_store a i \/ index_in_store rs i.
Proof.
  induction rs as [|r rs IH]; intros a Hok Hrs Hend; simpl.
  - exists a. repeat split; trivial; [tauto|].
    intros [H|H]; [exact H|destruct (index_in_store_nil i H)].
  - simpl in Hrs, Hend. apply andb_true_iff in Hrs. destruct Hrs as [Hr Hrs].
    apply orb_false_iff in Hend. destruct Hend as [Hend Hends].
    destruct (add_range_internal_index a r Hok Hr Hend)
      as (a1 & -> & Hok1 & Hsem1).
    destruct (IH a1 Hok1 Hrs Hends) as (a' & -> & Hok' & Hsem').
    exists a'. repeat split; trivial.
    + intros H. apply Hsem' in H. rewrite Hsem1 in H.
      rewrite index_in_store_cons. tauto.
    + intros H. apply Hsem'. rewrite Hsem1.
      rewrite index_in_store_cons in H. tauto.
Qed.

(** Two stores that satisfy the invariant and hold the same indices are the
    same array. *)
Lemma ranges_above_unique (a : list GRange) :
  forall (b : list GRange) (lo : Z),
    ranges_above lo a -> ranges_above lo b ->
    (forall i, index_in_store a i <-> index_in_store b i) ->
    a = b.
Proof.
  assert (Hhead : forall (r : GRange) (a' b : list GRange) (lo : Z),
             ranges_above lo (r :: a') -> ranges_above lo b ->
             (forall i, index_in_store (r :: a') i -> index_in_store b i) ->
             exists q b', b = q :: b' /\ location q <= location r).
  { intros r a' b lo (H1 & H2 & H3 & H4) Hb Hsub.
    destruct b as [|q b'].
    - destruct (index_in_store_nil (location r)).
      apply Hsub, index_in_store_cons. left. unfold in_range. lia.
    - exists q, b'. split; [reflexivity|].
      assert (Hin : index_in_store (q :: b') (location r)).
      { apply Hsub, index_in_store_cons. left. unfold in_range. lia. }
      destruct Hb as (Hq1 & Hq2 & Hq3 & Hq4).
      apply index_in_store_cons in Hin. destruct Hin as [Hin|Hin].
      + unfold in_range in Hin. lia.
      + pose proof (index_in_store_above _ _ _ Hq4 Hin). lia. }
  assert (Hlen : forall (r q : GRange) (a' b' : list GRange) (lo : Z),
             ranges_above lo (r :: a') -> ranges_above lo (q :: b') ->
             location r = location q ->
             (forall i, index_in_store (q :: b') i ->
                        index_in_store (r :: a') i) ->
             length q <= length r).
  { intros r q a' b' lo (H1 & H2 & H3 & H4) (Hq1 & Hq2 & Hq3 & Hq4) Hloc Hsub.
    destruct (Z_le_gt_dec (length q) (length r)) as [Hle|Hgt]; [exact Hle|].
    exfalso.
    assert (Hin : index_in_store (r :: a') (location r + length r)).
    { apply Hsub, index_in_store_cons. left. unfold in_range. lia. }
    apply index_in_store_cons in Hin. destruct Hin as [Hin|Hin].
    - unfold in_range in Hin. lia.
    - pose proof (index_in_store_above _ _ _ H4 Hin). lia. }
  induction a as [|r a' IH]; intros b lo Ha Hb Hsame.
  - destruct b as [|q b']; [reflexivity|].
    destruct (Hhead q b' [] lo Hb I) as (? & ? & Heq & _);
      [intros i Hi; apply Hsame; exact Hi|discriminate Heq].
  - destruct (Hhead r a' b lo Ha Hb) as (q & b' & -> & Hqr);
      [intros i Hi; apply Hsame; exact Hi|].
    destruct (Hhead q b' (r :: a') lo Hb Ha) as (r0 & a0 & [= <- <-] & Hrq);
      [intros i Hi; apply Hsame; exact Hi|].
    assert (Hloc : location r = location q) by lia.
    pose proof (Hlen r q a' b' lo Ha Hb Hloc
                  (fun i Hi => proj2 (Hsame i) Hi)) as Hl1.
    pose proof (Hlen q r b' a' lo Hb Ha (eq_sym Hloc)
                  (fun i Hi => proj1 (Hsame i) Hi)) as Hl2.
    assert (Hrq' : r = q).
    { destruct r as [rl rn], q as [ql qn]. simpl in *. f_equal; lia. }
    subst q. f_equal.
    destruct Ha as (H1 & H2 & H3 & H4). destruct Hb as (_ & _ & _ & Hb4).
    apply (IH b' (location r + length r + 1)); trivial.
    intros i. split; intros Hi.
    + pose proof (index_in_store_above _ _ _ H4 Hi) as Hge.
      assert (Hin : index_in_store (r :: b') i)
        by (apply Hsame, index_in_store_cons; right; exact Hi).
      apply index_in_store_cons in Hin. destruct Hin as [Hin|Hin];
        [unfold in_range in Hin; lia|exact Hin].
    + pose proof (index_in_store_above _ _ _ Hb4 Hi) as Hge.
      assert (Hin : index_in_store (r :: a') i)
        by (apply Hsame, index_in_store_cons; right; exact Hi).
      apply index_in_store_cons in Hin. destruct Hin as [Hin|Hin];
        [unfold in_range in Hin; lia|exact Hin].
Qed.

(** ** Properties of the position resolver and of the queries *)

(** X1.  On a store that satisfies the invariant, the resolved position of
    an index lies within the array or just past it, every range before it
    ends at or before the index, and the range at it, if there is one, ends
    after the index. *)
Theorem position_resolved (a : list GRange) (index_ : Z) :
  ranges_ok a ->
  (g_index_set_get_position a index_ <= array_len a)%nat
  /\ (forall j r,
        (j < g_index_set_get_position a index_)%nat ->
        nth_error a j = Some r -> location r + length r <= index_)
  /\ (forall r,
        nth_error a (g_index_set_get_position a index_) = Some r ->
        index_ < location r + length r).
Proof.
  intros Hok.
  destruct (get_position_spec a index_ Hok) as (L & R & -> & -> & HL & HR).
  split; [rewrite length_app; lia|]. split.
  - intros j r Hj Hr. rewrite nth_error_app1 in Hr by exact Hj.
    apply nth_error_In in Hr. exact (ends_before_In L index_ r HL Hr).
  - intros r Hr. destruct R as [|r0 R'].
    + rewrite app_nil_r in Hr.
      assert (Hn : nth_error L (array_len L) = None)
        by (apply nth_error_None; lia).
      congruence.
    + rewrite nth_error_app_mid in Hr. injection Hr as <-. exact HR.
Qed.

Lemma position_resolved_witness :
  (g_index_set_get_position [G_RANGE_INIT 0 3; G_RANGE_INIT 5 3] 4 <= 2)%nat
  /\ (forall j r,
        (j < g_index_set_get_position [G_RANGE_INIT 0 3; G_RANGE_INIT 5 3] 4)%nat ->
        nth_error [G_RANGE_INIT 0 3; G_RANGE_INIT 5 3] j = Some r ->
        location r + length r <= 4)
  /\ (forall r,
        nth_error [G_RANGE_INIT 0 3; G_RANGE_INIT 5 3]
          (g_index_set_get_position [G_RANGE_INIT 0 3; G_RANGE_INIT 5 3] 4)
        = Some r ->
        4 < location r + length r).
Proof.
  apply (position_resolved [G_RANGE_INIT 0 3; G_RANGE_INIT 5 3] 4).
  unfold ranges_ok. simpl. unfold G_MAXUINT. lia.
Defined.

(** X2.  On a store that satisfies the invariant,
    [g_index_set_contains_index] answers [TRUE] exactly for the indices that
    lie in one of the stored ranges. *)
Theorem contains_index_exact (index_set : GIndexSet) (a : list GRange)
    (i : Z) :
  ranges index_set = Some a -> ranges_ok a ->
  g_index_set_contains_index index_set i = true
  <-> exists r, In r a /\ location r <= i < location r + length r.
Proof. intros Ha Hok. exact (contains_index_spec index_set a i Ha Hok). Qed.

Lemma contains_index_exact_witness :
  g_index_set_contains_index set_even 4 = true
  <-> exists r,
        In r [G_RANGE_INIT 0 1; G_RANGE_INIT 2 1; G_RANGE_INIT 4 1;
              G_RANGE_INIT 6 1; G_RANGE_INIT 8 1]
        /\ location r <= 4 < location r + length r.
Proof.
  apply (contains_index_exact set_even _ 4 eq_refl).
  unfold ranges_ok. simpl. unfold G_MAXUINT. lia.
Defined.

Lemma set_ranges_same (s : GIndexSet) (a : list GRange) :
  ranges s = Some a -> set_ranges s a = s.
Proof. destruct s as [rc rs m]. simpl. intros ->. reflexivity. Qed.

Lemma contains_index_set_ranges (s : GIndexSet) (a : list GRange) (i : Z) :
  ranges_ok a ->
  g_index_set_contains_index (set_ranges s a) i = true <-> index_in_store a i.
Proof. intros Hok. now apply contains_index_spec. Qed.

(** X3.  On a mutable set whose store satisfies the invariant,
    [g_index_set_add_range] with a range that does not reach past the
    largest [guint] returns, keeps the invariant, and adds exactly the
    indices of the range: afterwards an index is contained when it was
    contained before or lies in the range. *)
Theorem add_range_adds_exactly (index_set : GIndexSet) (a : list GRange)
    (range : GRange) :
  is_mutable index_set = true -> ranges index_set = Some a -> ranges_ok a ->
  is_range range = true -> reaches_end range = false ->
  exists s' a',
    g_index_set_add_range index_set range = Done s'
    /\ is_mutable s' = true /\ ranges s' = Some a' /\ ranges_ok a'
    /\ forall i,
         g_index_set_contains_index s' i
         = g_index_set_contains_index index_set i
           || g_range_contains_location range i.
Proof.
  intros Hm Ha Hok Hr Hend.
  destruct (add_range_internal_index a range Hok Hr Hend)
    as (a' & Hadd & Hok' & Hsem).
  destruct (reaches_end_false range Hr Hend) as (H1 & H2 & H3).
  exists (set_ranges index_set a'), a'.
  unfold g_index_set_add_range, g_index_set_is_mutable,
    g_range_init_with_range.
  rewrite Hm, Ha, Hadd. simpl. repeat split; trivial.
  intros i. apply eq_true_iff_eq.
  rewrite orb_true_iff, (contains_index_set_ranges index_set a' i Hok'),
    (contains_index_spec index_set a i Ha Hok),
    (contains_location_no_wrap range i H1 H2 H3).
  apply Hsem.
Qed.

Lemma add_range_adds_exactly_witness :
  exists s' a',
    g_index_set_add_range
      (mkGIndexSet 1 (Some [G_RANGE_INIT 0 3; G_RANGE_INIT 5 3]) true)
      (G_RANGE_INIT 2 4) = Done s'
    /\ is_mutable s' = true /\ ranges s' = Some a' /\ ranges_ok a'
    /\ forall i,
         g_index_set_contains_index s' i
         = g_index_set_contains_index
             (mkGIndexSet 1 (Some [G_RANGE_INIT 0 3; G_RANGE_INIT 5 3]) true) i
           || g_range_contains_location (G_RANGE_INIT 2 4) i.
Proof.
  apply (add_range_adds_exactly
           (mkGIndexSet 1 (Some [G_RANGE_INIT 0 3; G_RANGE_INIT 5 3]) true)
           [G_RANGE_INIT 0 3; G_RANGE_INIT 5 3] (G_RANGE_INIT 2 4));
    try reflexivity.
  unfold ranges_ok. simpl. unfold G_MAXUINT. lia.
Defined.

(** X4.  Adding a range whose indices are all contained already leaves the
    set exactly as it was: the same array of ranges, hence the same size. *)
Theorem add_contained_range_unchanged (index_set : GIndexSet)
    (a : list GRange) (range : GRange) :
  is_mutable index_set = true -> ranges index_set = Some a -> ranges_ok a ->
  is_range range = true -> reaches_end range = false ->
  (forall i, location range <= i < location range + length range ->
             g_index_set_contains_index index_set i = true) ->
  g_index_set_add_range index_set range = Done index_set.
Proof.
  intros Hm Ha Hok Hr Hend Hin.
  destruct (add_range_internal_index a range Hok Hr Hend)
    as (a' & Hadd & Hok' & Hsem).
  unfold g_index_set_add_range, g_index_set_is_mutable,
    g_range_init_with_range.
  rewrite Hm, Ha, Hadd. simpl.
  assert (Heq : a' = a).
  { apply (ranges_above_unique a' a 0 Hok' Hok). intros i. rewrite Hsem.
    split; [|tauto]. intros [H|H]; [exact H|].
    apply (contains_index_spec index_set a i Ha Hok). apply Hin. exact H. }
  rewrite Heq, (set_ranges_same index_set a Ha). reflexivity.
Qed.

Lemma add_contained_range_unchanged_witness :
  g_index_set_add_range
    (mkGIndexSet 1 (Some [G_RANGE_INIT 0 3; G_RANGE_INIT 5 3]) true)
    (G_RANGE_INIT 6 2)
  = Done (mkGIndexSet 1 (Some [G_RANGE_INIT 0 3; G_RANGE_INIT 5 3]) true).
Proof.
  apply (add_contained_range_unchanged
           (mkGIndexSet 1 (Some [G_RANGE_INIT 0 3; G_RANGE_INIT 5 3]) true)
           [G_RANGE_INIT 0 3; G_RANGE_INIT 5 3] (G_RANGE_INIT 6 2));
    try reflexivity.
  - unfold ranges_ok. simpl. unfold G_MAXUINT. lia.
  - simpl. intros i Hi.
    assert (Hc : i = 6 \/ i = 7) by lia.
    destruct Hc as [-> | ->]; vm_compute; reflexivity.
Defined.

(** X5.  The consistency check admits one array per set of indices: two
    arrays of [guint] ranges that pass [g_index_set_ensure_ranges] and hold
    the same indices are equal. *)
Theorem checked_store_unique (a b : list GRange) :
  forallb is_range a = true -> forallb is_range b = true ->
  g_index_set_ensure_ranges a = true -> g_index_set_ensure_ranges b = true ->
  (forall i, index_in_store a i <-> index_in_store b i) ->
  a = b.
Proof.
  intros Ha Hb Hea Heb Hsame.
  apply (ranges_above_unique a b 0); trivial.
  - apply ensure_ranges_spec; [|exact Hea].
    apply Forall_forall. intros r Hr.
    exact (proj1 (forallb_forall _ a) Ha r Hr).
  - apply ensure_ranges_spec; [|exact Heb].
    apply Forall_forall. intros r Hr.
    exact (proj1 (forallb_forall _ b) Hb r Hr).
Qed.

Lemma checked_store_unique_witness :
  [G_RANGE_INIT 0 3; G_RANGE_INIT 5 3] = [G_RANGE_INIT 0 3; G_RANGE_INIT 5 3].
Proof.
  apply (checked_store_unique [G_RANGE_INIT 0 3; G_RANGE_INIT 5 3]
           [G_RANGE_INIT 0 3; G_RANGE_INIT 5 3]); reflexivity.
Defined.

(** ** Insertion of index lists, of other sets, and the initializers *)

Lemma singles_ok (l : list Z) :
  forallb is_storable_index l = true ->
  forallb is_range (map (fun idx => G_RANGE_INIT idx 1) l) = true
  /\ existsb reaches_end (map (fun idx => G_RANGE_INIT idx 1) l) = false.
Proof.
  induction l as [|x l IH]; simpl; [auto|].
  intros H. apply andb_true_iff in H. destruct H as [Hx Hl].
  destruct (IH Hl) as [IH1 IH2]. rewrite IH1, IH2.
  unfold is_storable_index in Hx. apply andb_true_iff in Hx.
  destruct Hx as [Hg Hlt]. apply Z.ltb_lt in Hlt.
  unfold is_range, reaches_end. simpl. rewrite Hg. split; [reflexivity|].
  rewrite orb_false_r. apply Z.ltb_ge. lia.
Qed.

Lemma index_in_store_singles (l : list Z) (i : Z) :
  index_in_store (map (fun idx => G_RANGE_INIT idx 1) l) i <-> In i l.
Proof.
  induction l as [|x l IH]; simpl.
  - split; [apply index_in_store_nil|tauto].
  - rewrite index_in_store_cons, IH. unfold in_range. simpl.
    split; intros [H|H]; auto; left; lia.
Qed.

Lemma ranges_above_loop_ok (b : list GRange) (lo : Z) :
  0 <= lo -> ranges_above lo b ->
  forallb is_range b = true /\ existsb reaches_end b = false.
Proof.
  revert lo. induction b as [|r b IH]; intros lo Hlo Hok; simpl; [auto|].
  destruct Hok as (H1 & H2 & H3 & H4).
  destruct (IH (location r + length r + 1) ltac:(lia) H4) as [IH1 IH2].
  rewrite IH1, IH2.
  assert (Hr : is_range r = true) by (apply is_range_spec; lia).
  rewrite Hr. split; [reflexivity|].
  rewrite orb_false_r. unfold reaches_end.
  replace (G_MAXUINT <? location r + length r) with false
    by (symmetry; apply Z.ltb_ge; lia).
  apply andb_false_r.
Qed.

Lemma add_indices_done (index_set : GIndexSet) (a : list GRange)
    (l : list Z) :
  is_mutable index_set = true -> ranges index_set = Some a -> ranges_ok a ->
  forallb is_storable_index l = true ->
  exists a',
    g_index_set_add_indices index_set l = Done (set_ranges index_set a')
    /\ ranges_ok a'
    /\ forall i, index_in_store a' i <-> index_in_store a i \/ In i l.
Proof.
  intros Hm Ha Hok Hl.
  unfold g_index_set_add_indices, g_index_set_is_mutable. rewrite Hm, Ha.
  simpl negb. cbv iota.
  destruct l as [|x l].
  - exists a. rewrite (set_ranges_same index_set a Ha).
    repeat split; trivial; simpl; tauto.
  - destruct (singles_ok (x :: l) Hl) as [H1 H2].
    destruct (add_ranges_loop_index _ a Hok H1 H2)
      as (a' & Hloop & Hok' & Hsem).
    rewrite Hloop. exists a'. repeat split; trivial.
    + intros H. apply Hsem in H.
      rewrite index_in_store_singles in H. exact H.
    + intros H. apply Hsem. rewrite index_in_store_singles. exact H.
Qed.

(** X6.  On a mutable set whose store satisfies the invariant, for indices
    below the largest [guint], the order and the repetitions of the indices
    handed to [g_index_set_add_indices] do not matter: with two lists that
    have the same elements the call returns and leaves the same set. *)
Theorem add_indices_order_irrelevant (index_set : GIndexSet)
    (a : list GRange) (l1 l2 : list Z) :
  is_mutable index_set = true -> ranges index_set = Some a -> ranges_ok a ->
  forallb is_storable_index l1 = true ->
  forallb is_storable_index l2 = true ->
  (forall x, In x l1 <-> In x l2) ->
  exists s',
    g_index_set_add_indices index_set l1 = Done s'
    /\ g_index_set_add_indices index_set l2 = Done s'.
Proof.
  intros Hm Ha Hok H1 H2 Hsame.
  destruct (add_indices_done index_set a l1 Hm Ha Hok H1)
    as (a1 & -> & Hok1 & Hsem1).
  destruct (add_indices_done index_set a l2 Hm Ha Hok H2)
    as (a2 & -> & Hok2 & Hsem2).
  exists (set_ranges index_set a1). split; [reflexivity|].
  f_equal. f_equal. apply (ranges_above_unique a2 a1 0 Hok2 Hok1).
  intros i. rewrite Hsem1, Hsem2, Hsame. tauto.
Qed.

Lemma add_indices_order_irrelevant_witness :
  exists s',
    g_index_set_add_indices (g_index_set_init g_index_set_alloc)
      [4; 8; 2; 8; 0; 2; 6] = Done s'
    /\ g_index_set_add_indices (g_index_set_init g_index_set_alloc)
         [0; 2; 4; 6; 8] = Done s'.
Proof.
  apply (add_indices_order_irrelevant (g_index_set_init g_index_set_alloc) []);
    try reflexivity; try exact I.
  intros x. simpl. tauto.
Defined.

(** X7.  On a mutable set whose store satisfies the invariant, for a range
    with [guint] fields that does not reach past the largest [guint] (it is
    empty, or its location plus its length is at most 4294967295), adding
    the indices of the range one by one with [g_index_set_add_indices], in
    any order and with repetitions, returns and leaves the same set as
    adding the range at once with [g_index_set_add_range]. *)
Theorem add_indices_as_range (index_set : GIndexSet) (a : list GRange)
    (l : list Z) (range : GRange) :
  is_mutable index_set = true -> ranges index_set = Some a -> ranges_ok a ->
  is_range range = true -> reaches_end range = false ->
  (forall x, In x l <-> location range <= x < location range + length range) ->
  exists s',
    g_index_set_add_indices index_set l = Done s'
    /\ g_index_set_add_range index_set range = Done s'.
Proof.
  intros Hm Ha Hok Hr Hend Hl.
  destruct (reaches_end_false range Hr Hend) as (Hb1 & Hb2 & Hb3).
  assert (Hstor : forallb is_storable_index l = true).
  { apply forallb_forall. intros x Hx. apply Hl in Hx.
    unfold is_storable_index. apply andb_true_iff. split.
    - apply is_guint_spec. lia.
    - apply Z.ltb_lt. lia. }
  destruct (add_indices_done index_set a l Hm Ha Hok Hstor)
    as (a1 & -> & Hok1 & Hsem1).
  destruct (add_range_internal_index a range Hok Hr Hend)
    as (a2 & Hadd & Hok2 & Hsem2).
  exists (set_ranges index_set a1). split; [reflexivity|].
  unfold g_index_set_add_range, g_index_set_is_mutable,
    g_range_init_with_range.
  rewrite Hm, Ha, Hadd. simpl. f_equal. f_equal.
  apply (ranges_above_unique a2 a1 0 Hok2 Hok1).
  intros i. rewrite Hsem1, Hsem2, Hl. unfold in_range. tauto.
Qed.

Lemma add_indices_as_range_witness :
  exists s',
    g_index_set_add_indices (g_index_set_init g_index_set_alloc) [7; 5; 6; 5]
    = Done s'
    /\ g_index_set_add_range (g_index_set_init g_index_set_alloc)
         (G_RANGE_INIT 5 3) = Done s'.
Proof.
  apply (add_indices_as_range (g_index_set_init g_index_set_alloc) []);
    try reflexivity; try exact I.
  intros x. simpl. lia.
Defined.

(** X8.  [g_index_set_init_with_indicesv] on indices below the largest
    [guint] returns an immutable set whose store passes the consistency
    check and which contains exactly the listed indices, whatever their
    order and repetitions. *)
Theorem init_with_indicesv_contains (index_set : GIndexSet) (l : list Z) :
  forallb is_storable_index l = true ->
  exists s' a',
    g_index_set_init_with_indicesv index_set l = Some s'
    /\ is_mutable s' = false
    /\ ranges s' = Some a' /\ g_index_set_ensure_ranges a' = true
    /\ forall i, g_index_set_contains_index s' i = true <-> In i l.
Proof.
  intros Hl. destruct (singles_ok l Hl) as [H1 H2].
  destruct (add_ranges_loop_index _ [] I H1 H2) as (a' & Hloop & Hok' & Hsem).
  unfold g_index_set_init_with_indicesv. rewrite Hloop.
  set (s' := g_index_set_make_immutable
               (set_ranges (g_index_set_clear_ranges index_set) a')).
  exists s', a'. split; [reflexivity|].
  split; [reflexivity|]. split; [reflexivity|]. split.
  - apply ensure_ranges_spec; [now apply ranges_ok_is_range|exact Hok'].
  - intros i.
    rewrite (contains_index_spec s' a' i eq_refl Hok'), Hsem,
      index_in_store_singles.
    pose proof (index_in_store_nil i). tauto.
Qed.

Lemma init_with_indicesv_contains_witness :
  exists s' a',
    g_index_set_init_with_indicesv g_index_set_alloc [4; 8; 2; 8; 0; 2; 6]
    = Some s'
    /\ is_mutable s' = false
    /\ ranges s' = Some a' /\ g_index_set_ensure_ranges a' = true
    /\ forall i, g_index_set_contains_index s' i = true
                 <-> In i [4; 8; 2; 8; 0; 2; 6].
Proof.
  apply (init_with_indicesv_contains g_index_set_alloc [4; 8; 2; 8; 0; 2; 6]).
  reflexivity.
Defined.

(** X9.  [g_index_set_add_set] makes the union: on a mutable set, with
    another set whose store satisfies the invariant, it returns and
    afterwards an index is contained when either set contained it. *)
Theorem add_set_union (index_set set : GIndexSet) (a b : list GRange) :
  is_mutable index_set = true -> ranges index_set = Some a -> ranges_ok a ->
  ranges set = Some b -> ranges_ok b ->
  exists s',
    g_index_set_add_set index_set set = Done s'
    /\ forall i,
         g_index_set_contains_index s' i
         = g_index_set_contains_index index_set i
           || g_index_set_contains_index set i.
Proof.
  intros Hm Ha Hok Hb Hokb.
  destruct (ranges_above_loop_ok b 0 ltac:(lia) Hokb) as [H1 H2].
  destruct (add_ranges_loop_index b a Hok H1 H2) as (a' & Hloop & Hok' & Hsem).
  exists (set_ranges index_set a'). split.
  - unfold g_index_set_add_set, g_index_set_is_mutable. rewrite Hm, Hb, Ha.
    simpl negb. cbv iota.
    destruct b as [|r b'].
    + simpl in Hloop. injection Hloop as <-.
      now rewrite (set_ranges_same index_set a Ha).
    + rewrite Hloop. reflexivity.
  - intros i. apply eq_true_iff_eq.
    rewrite orb_true_iff, (contains_index_set_ranges index_set a' i Hok'),
      (contains_index_spec index_set a i Ha Hok),
      (contains_index_spec set b i Hb Hokb).
    apply Hsem.
Qed.

Lemma add_set_union_witness :
  exists s',
    g_index_set_add_set
      (mkGIndexSet 1 (Some [G_RANGE_INIT 0 3; G_RANGE_INIT 5 3]) true)
      set_even = Done s'
    /\ forall i,
         g_index_set_contains_index s' i
         = g_index_set_contains_index
             (mkGIndexSet 1 (Some [G_RANGE_INIT 0 3; G_RANGE_INIT 5 3]) true) i
           || g_index_set_contains_index set_even i.
Proof.
  apply (add_set_union
           (mkGIndexSet 1 (Some [G_RANGE_INIT 0 3; G_RANGE_INIT 5 3]) true)
           set_even [G_RANGE_INIT 0 3; G_RANGE_INIT 5 3]
           [G_RANGE_INIT 0 1; G_RANGE_INIT 2 1; G_RANGE_INIT 4 1;
            G_RANGE_INIT 6 1; G_RANGE_INIT 8 1]);
    try reflexivity; unfold ranges_ok; simpl; unfold G_MAXUINT; lia.
Defined.

(** X10.  [g_index_set_init_with_range] on a range that is not empty and
    does not reach past the largest [guint] returns an immutable set that
    stores the range as it is: its size is the length of the range, its
    first index the location, its last index the location plus the length
    minus one, and it contains exactly the indices of the range. *)
Theorem init_with_range_queries (index_set : GIndexSet) (range : GRange) :
  is_range range = true -> reaches_end range = false -> length range <> 0 ->
  exists s',
    g_index_set_init_with_range index_set range = Some s'
    /\ is_mutable s' = false
    /\ ranges s' = Some [range]
    /\ g_index_set_get_size s' = length range
    /\ g_index_set_get_first_index s' = location range
    /\ g_index_set_get_last_index s' = location range + length range - 1
    /\ forall i, g_index_set_contains_index s' i
                 = g_range_contains_location range i.
Proof.
  intros Hr Hend Hlen.
  destruct (reaches_end_false range Hr Hend) as (H1 & H2 & H3).
  destruct (add_range_internal_index [] range I Hr Hend)
    as (a' & Hadd & Hok' & Hsem).
  assert (Hone : ranges_ok [range]) by (unfold ranges_ok; simpl; lia).
  assert (Heq : a' = [range]).
  { apply (ranges_above_unique a' [range] 0 Hok' Hone). intros i.
    rewrite Hsem, index_in_store_cons.
    pose proof (index_in_store_nil i). tauto. }
  subst a'.
  unfold g_index_set_init_with_range, g_range_init_with_range.
  rewrite Hadd.
  set (s' := g_index_set_make_immutable
               (set_ranges (g_index_set_clear_ranges index_set) [range])).
  exists s'. split; [reflexivity|]. split; [reflexivity|].
  split; [reflexivity|]. split; [|split; [reflexivity|split]].
  - unfold g_index_set_get_size. simpl. unfold guint_add.
    apply guint_wrap_small. lia.
  - unfold g_index_set_get_last_index. simpl.
    rewrite get_max_in_bounds by lia. unfold guint_sub.
    apply guint_wrap_small. lia.
  - intros i. apply eq_true_iff_eq.
    rewrite (contains_index_spec s' [range] i eq_refl Hone),
      (contains_location_no_wrap range i H1 H2 H3), index_in_store_cons.
    pose proof (index_in_store_nil i). tauto.
Qed.

Lemma init_with_range_queries_witness :
  exists s',
    g_index_set_init_with_range g_index_set_alloc (G_RANGE_INIT 17 60)
    = Some s'
    /\ is_mutable s' = false
    /\ ranges s' = Some [G_RANGE_INIT 17 60]
    /\ g_index_set_get_size s' = 60
    /\ g_index_set_get_first_index s' = 17
    /\ g_index_set_get_last_index s' = 17 + 60 - 1
    /\ forall i, g_index_set_contains_index s' i
                 = g_range_contains_location (G_RANGE_INIT 17 60) i.
Proof.
  apply (init_with_range_queries g_index_set_alloc (G_RANGE_INIT 17 60));
    [reflexivity|reflexivity|discriminate].
Defined.

(** X11.  On a store that satisfies the invariant, for a range that is not
    empty, does not reach past the largest [guint] and does not cross the
    sentinel, [g_index_set_contains_range] answers [TRUE] exactly when every
    index of the range is contained in the set. *)
Theorem contains_range_all_indices (index_set : GIndexSet) (a : list GRange)
    (range : GRange) :
  ranges index_set = Some a -> ranges_ok a ->
  range_in_bounds range -> crosses_not_found range = false ->
  g_index_set_contains_range index_set range = true
  <-> forall i, location range <= i < location range + length range ->
                g_index_set_contains_index index_set i = true.
Proof.
  intros Ha Hok (Hr1 & Hr2 & Hr3) Hcross.
  unfold g_index_set_contains_range. unfold crosses_not_found in Hcross.
  rewrite Hcross, Ha.
  destruct (Z.eqb_spec (length range) 0) as [H0|_]; [lia|].
  rewrite get_max_in_bounds by lia.
  assert (Hlast : guint_sub (location range + length range) 1
                  = location range + length range - 1)
    by (apply guint_wrap_small; lia).
  rewrite Hlast.
  assert (Hspec : forall i, g_index_set_contains_index index_set i = true
                            <-> index_in_store a i)
    by (intros i; now apply contains_index_spec).
  destruct (get_position_spec a (location range) Hok)
    as (L & R & -> & -> & HL & HR).
  assert (Hsplit := Hok). apply ranges_above_app in Hsplit.
  destruct Hsplit as [HokL HokR].
  pose proof (bound_after_ge _ _ HokL) as Hge.
  assert (HnotL : forall i, location range <= i -> ~ index_in_store L i).
  { intros i Hi (r & Hin & Hr).
    pose proof (ends_before_In L _ r HL Hin). lia. }
  destruct R as [|r0 R'].
  - rewrite app_nil_r in *.
    replace (nth_error L (array_len L)) with (@None GRange)
      by (symmetry; apply nth_error_None; lia).
    split; [discriminate|]. intros Hall. exfalso.
    apply (HnotL (location range)); [lia|]. apply Hspec, Hall. lia.
  - rewrite nth_error_app_mid.
    destruct HokR as (Hq1 & Hq2 & Hq3 & HokR').
    assert (Hb0 : range_in_bounds r0) by (unfold range_in_bounds; lia).
    rewrite andb_true_iff, !(contains_location_in_bounds r0) by exact Hb0.
    split.
    + intros [Hlo Hhi] i Hi. apply Hspec, index_in_store_app. right.
      apply index_in_store_cons. left. unfold in_range. lia.
    + intros Hall.
      assert (Hin0 : forall i,
                 location range <= i < location range + length range ->
                 i < location r0 + length r0 -> in_range r0 i).
      { intros i Hi Hlt.
        assert (Hs : index_in_store (L ++ r0 :: R') i)
          by (apply Hspec, Hall; exact Hi).
        apply index_in_store_app in Hs. destruct Hs as [Hs|Hs];
          [destruct (HnotL i ltac:(lia) Hs)|].
        apply index_in_store_cons in Hs. destruct Hs as [Hs|Hs];
          [exact Hs|].
        pose proof (index_in_store_above _ _ _ HokR' Hs). lia. }
      assert (Hfirst := Hin0 (location range) ltac:(lia) HR).
      unfold in_range in Hfirst.
      destruct (Z_lt_le_dec (location range + length range - 1)
                  (location r0 + length r0)) as [Hlt|Hle]; [lia|].
      exfalso.
      assert (Hs : index_in_store (L ++ r0 :: R') (location r0 + length r0))
        by (apply Hspec, Hall; lia).
      apply index_in_store_app in Hs. destruct Hs as [Hs|Hs];
        [destruct (HnotL (location r0 + length r0) ltac:(lia) Hs)|].
      apply index_in_store_cons in Hs. destruct Hs as [Hs|Hs];
        [unfold in_range in Hs; lia|].
      pose proof (index_in_store_above _ _ _ HokR' Hs). lia.
Qed.

Lemma contains_range_all_indices_witness :
  g_index_set_contains_range set_0_10 (G_RANGE_INIT 6 2) = true
  <-> forall i, 6 <= i < 6 + 2 ->
                g_index_set_contains_index set_0_10 i = true.
Proof.
  apply (contains_range_all_indices set_0_10 [G_RANGE_INIT 0 10]
           (G_RANGE_INIT 6 2) eq_refl).
  - unfold ranges_ok. simpl. unfold G_MAXUINT. lia.
  - unfold range_in_bounds. simpl. unfold G_MAXUINT. lia.
  - reflexivity.
Defined.

Lemma ranges_above_In_bound (a : list GRange) (lo : Z) (r : GRange) :
  ranges_above lo a -> In r a ->
  location r + length r + 1 <= bound_after lo a.
Proof.
  revert lo. induction a as [|x a IH]; intros lo Hok Hin; [destruct Hin|].
  destruct Hok as (H1 & H2 & H3 & H4). simpl.
  destruct Hin as [<-|Hin].
  - exact (bound_after_ge _ _ H4).
  - exact (IH _ H4 Hin).
Qed.

(** X12.  On a non-empty store that satisfies the invariant, the first and
    the last index are contained in the set, and every contained index lies
    between them. *)
Theorem first_last_bounds (index_set : GIndexSet) (a : list GRange) :
  ranges index_set = Some a -> ranges_ok a -> a <> [] ->
  g_index_set_contains_index index_set
    (g_index_set_get_first_index index_set) = true
  /\ g_index_set_contains_index index_set
       (g_index_set_get_last_index index_set) = true
  /\ forall i, g_index_set_contains_index index_set i = true ->
               g_index_set_get_first_index index_set <= i
               <= g_index_set_get_last_index index_set.
Proof.
  intros Ha Hok Hne.
  assert (Hspec : forall i, g_index_set_contains_index index_set i = true
                            <-> index_in_store a i)
    by (intros i; now apply contains_index_spec).
  unfold g_index_set_get_first_index, g_index_set_get_last_index. rewrite Ha.
  destruct a as [|rf a'] using rev_ind; [contradiction|]. clear IHa'.
  rename a' into a0, rf into rl.
  replace (array_len (a0 ++ [rl]) - 1)%nat with (array_len a0)
    by (rewrite length_app; simpl; lia).
  rewrite nth_error_app_mid.
  assert (Hsplit := Hok). apply ranges_above_app in Hsplit.
  destruct Hsplit as [Hok0 (Hl1 & Hl2 & Hl3 & _)].
  pose proof (bound_after_ge _ _ Hok0) as Hge.
  rewrite get_max_in_bounds by lia.
  assert (Hlast : guint_sub (location rl + length rl) 1
                  = location rl + length rl - 1)
    by (apply guint_wrap_small; lia).
  rewrite Hlast.
  assert (Hfirst : exists rf rest, a0 ++ [rl] = rf :: rest).
  { destruct a0 as [|x a0]; simpl; eauto. }
  destruct Hfirst as (rf & rest & Hfr). rewrite Hfr.
  assert (Hokf : ranges_above 0 (rf :: rest)) by (rewrite <- Hfr; exact Hok).
  destruct Hokf as (Hf1 & Hf2 & Hf3 & Hf4).
  split; [|split].
  - apply Hspec. rewrite Hfr. apply index_in_store_cons. left.
    unfold in_range. lia.
  - apply Hspec, index_in_store_app. right. apply index_in_store_cons. left.
    unfold in_range. lia.
  - intros i Hi. apply Hspec in Hi. split.
    + rewrite Hfr in Hi. apply index_in_store_cons in Hi.
      destruct Hi as [Hi|Hi]; [unfold in_range in Hi; lia|].
      pose proof (index_in_store_above _ _ _ Hf4 Hi). lia.
    + apply index_in_store_app in Hi. destruct Hi as [(r & Hin & Hr)|Hi].
      * pose proof (ranges_above_In_bound _ _ _ Hok0 Hin). lia.
      * apply index_in_store_cons in Hi. destruct Hi as [Hi|Hi];
          [unfold in_range in Hi; lia|destruct (index_in_store_nil i Hi)].
Qed.

Lemma first_last_bounds_witness :
  g_index_set_contains_index set_even
    (g_index_set_get_first_index set_even) = true
  /\ g_index_set_contains_index set_even
       (g_index_set_get_last_index set_even) = true
  /\ forall i, g_index_set_contains_index set_even i = true ->
               g_index_set_get_first_index set_even <= i
               <= g_index_set_get_last_index set_even.
Proof.
  apply (first_last_bounds set_even
           [G_RANGE_INIT 0 1; G_RANGE_INIT 2 1; G_RANGE_INIT 4 1;
            G_RANGE_INIT 6 1; G_RANGE_INIT 8 1] eq_refl).
  - unfold ranges_ok. simpl. unfold G_MAXUINT. lia.
  - discriminate.
Defined.

(** ** Nearest index *)

(** X13.  With the predicate "greater or equal" and an index other than the
    sentinel, if some contained index lies at or above the index,
    [g_index_set_get_index] returns the least such index. *)
Theorem get_index_ge_least (index_set : GIndexSet) (a : list GRange)
    (i j : Z) :
  ranges index_set = Some a -> ranges_ok a ->
  i <> G_INDEX_SET_NOT_FOUND ->
  g_index_set_contains_index index_set j = true -> i <= j ->
  g_index_set_contains_index index_set
    (g_index_set_get_index index_set
       G_INDEX_SET_PREDICATE_GREATER_THAN_OR_EQUAL i) = true
  /\ i <= g_index_set_get_index index_set
            G_INDEX_SET_PREDICATE_GREATER_THAN_OR_EQUAL i <= j.
Proof.
  intros Ha Hok Hnf Hj Hij.
  assert (Hspec : forall x, g_index_set_contains_index index_set x = true
                            <-> index_in_store a x)
    by (intros x; now apply contains_index_spec).
  apply Hspec in Hj. rewrite Hspec.
  unfold g_index_set_get_index. rewrite Ha.
  destruct a as [|x0 a0]; [destruct (index_in_store_nil j Hj)|].
  remember (x0 :: a0) as a1 eqn:Ha1. clear Ha1 x0 a0.
  unfold get_index_greater_or_equal.
  destruct (Z.eqb_spec i G_INDEX_SET_NOT_FOUND) as [|_]; [contradiction|].
  destruct (get_position_spec a1 i Hok) as (L & R & -> & -> & HL & HR).
  assert (Hsplit := Hok). apply ranges_above_app in Hsplit.
  destruct Hsplit as [HokL HokR].
  pose proof (bound_after_ge _ _ HokL) as Hge.
  apply index_in_store_app in Hj.
  assert (HjR : index_in_store R j).
  { destruct Hj as [(r & Hin & Hr)|Hj]; [|exact Hj].
    pose proof (ends_before_In L i r HL Hin). lia. }
  destruct R as [|r1 R']; [destruct (index_in_store_nil j HjR)|].
  rewrite nth_error_app_mid.
  destruct HokR as (Hq1 & Hq2 & Hq3 & HokR').
  assert (Hb1 : range_in_bounds r1) by (unfold range_in_bounds; lia).
  assert (Hj1 : location r1 <= j).
  { apply index_in_store_cons in HjR. destruct HjR as [Hx|Hx].
    - unfold in_range in Hx. lia.
    - pose proof (index_in_store_above _ _ _ HokR' Hx). lia. }
  destruct (g_range_contains_location r1 i) eqn:Hc.
  - apply (contains_location_in_bounds r1 i Hb1) in Hc.
    split; [|lia]. apply index_in_store_app. right.
    apply index_in_store_cons. left. exact Hc.
  - assert (Hlt : i < location r1).
    { destruct (Z_lt_le_dec i (location r1)) as [Hlt|Hle]; [exact Hlt|].
      assert (Hc' : g_range_contains_location r1 i = true)
        by (apply (contains_location_in_bounds r1 i Hb1); lia).
      congruence. }
    split; [|lia]. apply index_in_store_app. right.
    apply index_in_store_cons. left. unfold in_range. lia.
Qed.

Lemma get_index_ge_least_witness :
  g_index_set_contains_index set_even
    (g_index_set_get_index set_even
       G_INDEX_SET_PREDICATE_GREATER_THAN_OR_EQUAL 5) = true
  /\ 5 <= g_index_set_get_index set_even
            G_INDEX_SET_PREDICATE_GREATER_THAN_OR_EQUAL 5 <= 8.
Proof.
  apply (get_index_ge_least set_even
           [G_RANGE_INIT 0 1; G_RANGE_INIT 2 1; G_RANGE_INIT 4 1;
            G_RANGE_INIT 6 1; G_RANGE_INIT 8 1] 5 8 eq_refl).
  - unfold ranges_ok. simpl. unfold G_MAXUINT. lia.
  - discriminate.
  - reflexivity.
  - lia.
Defined.

(** X14.  With the predicate "less or equal", if some contained index lies
    at or below the index and some contained index lies at or above it,
    [g_index_set_get_index] returns the greatest contained index at or
    below the index. *)
Theorem get_index_le_greatest (index_set : GIndexSet) (a : list GRange)
    (i j k : Z) :
  ranges index_set = Some a -> ranges_ok a ->
  g_index_set_contains_index index_set j = true -> j <= i ->
  g_index_set_contains_index index_set k = true -> i <= k ->
  g_index_set_contains_index index_set
    (g_index_set_get_index index_set
       G_INDEX_SET_PREDICATE_LESS_THAN_OR_EQUAL i) = true
  /\ j <= g_index_set_get_index index_set
            G_INDEX_SET_PREDICATE_LESS_THAN_OR_EQUAL i <= i.
Proof.
  intros Ha Hok Hj Hji Hk Hik.
  assert (Hspec : forall x, g_index_set_contains_index index_set x = true
                            <-> index_in_store a x)
    by (intros x; now apply contains_index_spec).
  apply Hspec in Hj. apply Hspec in Hk. rewrite Hspec.
  unfold g_index_set_get_index. rewrite Ha.
  destruct a as [|x0 a0]; [destruct (index_in_store_nil j Hj)|].
  remember (x0 :: a0) as a1 eqn:Ha1. clear Ha1 x0 a0.
  unfold get_index_less_or_equal.
  destruct (get_position_spec a1 i Hok) as (L & R & -> & -> & HL & HR).
  assert (Hsplit := Hok). apply ranges_above_app in Hsplit.
  destruct Hsplit as [HokL HokR].
  pose proof (bound_after_ge _ _ HokL) as Hge.
  apply index_in_store_app in Hk.
  assert (HkR : index_in_store R k).
  { destruct Hk as [(r & Hin & Hr)|Hk]; [|exact Hk].
    pose proof (ends_before_In L i r HL Hin). lia. }
  destruct R as [|r1 R']; [destruct (index_in_store_nil k HkR)|].
  rewrite nth_error_app_mid.
  destruct HokR as (Hq1 & Hq2 & Hq3 & HokR').
  assert (Hb1 : range_in_bounds r1) by (unfold range_in_bounds; lia).
  destruct (g_range_contains_location r1 i) eqn:Hc.
  - apply (contains_location_in_bounds r1 i Hb1) in Hc.
    split; [|lia]. apply index_in_store_app. right.
    apply index_in_store_cons. left. exact Hc.
  - assert (Hlt : i < location r1).
    { destruct (Z_lt_le_dec i (location r1)) as [Hlt|Hle]; [exact Hlt|].
      assert (Hc' : g_range_contains_location r1 i = true)
        by (apply (contains_location_in_bounds r1 i Hb1); lia).
      congruence. }
    apply index_in_store_app in Hj.
    assert (HjL : index_in_store L j).
    { destruct Hj as [Hj|Hj]; [exact Hj|].
      apply index_in_store_cons in Hj. destruct Hj as [Hx|Hx].
      - unfold in_range in Hx. lia.
      - pose proof (index_in_store_above _ _ _ HokR' Hx). lia. }
    clear Hj Hk HkR.
    destruct L as [|p L' _] using rev_ind;
      [destruct (index_in_store_nil j HjL)|].
    rewrite length_app, Nat.add_1_r, <- app_assoc. simpl app.
    rewrite nth_error_app_mid.
    apply ranges_above_app in HokL. destruct HokL as [HokL' Hp].
    pose proof (bound_after_ge _ _ HokL') as Hge'.
    destruct Hp as (Hp1 & Hp2 & Hp3 & _).
    apply Forall_app in HL. destruct HL as [_ HL].
    inversion HL as [|? ? Hpmax _]; subst.
    rewrite get_max_in_bounds by lia.
    assert (Hlast : guint_sub (location p + length p) 1
                    = location p + length p - 1)
      by (apply guint_wrap_small; lia).
    rewrite Hlast. split.
    + apply index_in_store_app. right.
      apply index_in_store_cons. left. unfold in_range. lia.
    + split; [|lia].
      apply index_in_store_app in HjL. destruct HjL as [(r & Hin & Hr)|Hx].
      * pose proof (ranges_above_In_bound _ _ _ HokL' Hin). lia.
      * apply index_in_store_cons in Hx. destruct Hx as [Hx|Hx];
          [unfold in_range in Hx; lia|destruct (index_in_store_nil j Hx)].
Qed.

Lemma get_index_le_greatest_witness :
  g_index_set_contains_index set_even
    (g_index_set_get_index set_even
       G_INDEX_SET_PREDICATE_LESS_THAN_OR_EQUAL 5) = true
  /\ 0 <= g_index_set_get_index set_even
            G_INDEX_SET_PREDICATE_LESS_THAN_OR_EQUAL 5 <= 5.
Proof.
  apply (get_index_le_greatest set_even
           [G_RANGE_INIT 0 1; G_RANGE_INIT 2 1; G_RANGE_INIT 4 1;
            G_RANGE_INIT 6 1; G_RANGE_INIT 8 1] 5 0 8 eq_refl).
  - unfold ranges_ok. simpl. unfold G_MAXUINT. lia.
  - reflexivity.
  - lia.
  - reflexivity.
  - lia.
Defined.

(** X15.  With the predicate "less or equal", an index above every
    contained index gives the sentinel, also when the set is not empty:
    the search gives up when the resolved position is past the last range. *)
Theorem get_index_le_past_end (index_set : GIndexSet) (a : list GRange)
    (i : Z) :
  ranges index_set = Some a -> ranges_ok a ->
  (forall k, g_index_set_contains_index index_set k = true -> k < i) ->
  g_index_set_get_index index_set G_INDEX_SET_PREDICATE_LESS_THAN_OR_EQUAL i
  = G_INDEX_SET_NOT_FOUND.
Proof.
  intros Ha Hok Hall.
  assert (Hspec : forall x, g_index_set_contains_index index_set x = true
                            <-> index_in_store a x)
    by (intros x; now apply contains_index_spec).
  unfold g_index_set_get_index. rewrite Ha.
  destruct a as [|x0 a0]; [reflexivity|].
  remember (x0 :: a0) as a1 eqn:Ha1. clear Ha1 x0 a0.
  unfold get_index_less_or_equal.
  destruct (get_position_spec a1 i Hok) as (L & R & -> & -> & HL & HR).
  destruct R as [|r1 R'].
  - rewrite app_nil_r.
    replace (nth_error L (array_len L)) with (@None GRange)
      by (symmetry; apply nth_error_None; lia).
    reflexivity.
  - exfalso.
    assert (Hin : In r1 (L ++ r1 :: R'))
      by (apply in_or_app; right; left; reflexivity).
    destruct (ranges_above_In _ _ _ Hok Hin) as (Hr1 & Hr2 & Hr3).
    assert (Hs : index_in_store (L ++ r1 :: R')
                   (location r1 + length r1 - 1)).
    { exists r1. split; [exact Hin|lia]. }
    apply Hspec, Hall in Hs. lia.
Qed.

Lemma get_index_le_past_end_witness :
  g_index_set_get_index set_even G_INDEX_SET_PREDICATE_LESS_THAN_OR_EQUAL 9
  = G_INDEX_SET_NOT_FOUND.
Proof.
  apply (get_index_le_past_end set_even
           [G_RANGE_INIT 0 1; G_RANGE_INIT 2 1; G_RANGE_INIT 4 1;
            G_RANGE_INIT 6 1; G_RANGE_INIT 8 1] 9 eq_refl).
  - unfold ranges_ok. simpl. unfold G_MAXUINT. lia.
  - intros k Hk.
    apply (contains_index_spec set_even _ k eq_refl) in Hk;
      [|unfold ranges_ok; simpl; unfold G_MAXUINT; lia].
    destruct Hk as (r & Hin & Hr). simpl in Hin.
    repeat (destruct Hin as [<-|Hin]; [simpl in Hr; lia|]).
    destruct Hin.
Defined.

(** X16.  On a store that satisfies the invariant, every predicate gives
    the sentinel when no contained index satisfies it, for "greater than"
    provided the index is below the largest [guint]. *)
Theorem nearest_index_none (index_set : GIndexSet) (a : list GRange)
    (predicate : GIndexSetPredicate) (index_ : Z) :
  ranges index_set = Some a -> ranges_ok a ->
  0 <= index_ <= G_MAXUINT ->
  (predicate = G_INDEX_SET_PREDICATE_GREATER_THAN -> index_ < G_MAXUINT) ->
  (forall j, g_index_set_contains_index index_set j = true ->
             ~ satisfies predicate index_ j) ->
  g_index_set_get_index index_set predicate index_ = G_INDEX_SET_NOT_FOUND.
Proof.
  intros Ha Hok Hi Hgt Hnone.
  apply (get_index_not_found index_set a predicate index_ Ha Hok Hi Hgt).
  intros j Hj. apply Hnone. now apply (contains_index_spec index_set a j Ha Hok).
Qed.

Lemma nearest_index_none_witness :
  g_index_set_get_index set_even G_INDEX_SET_PREDICATE_GREATER_THAN 8
  = G_INDEX_SET_NOT_FOUND.
Proof.
  apply (nearest_index_none set_even
           [G_RANGE_INIT 0 1; G_RANGE_INIT 2 1; G_RANGE_INIT 4 1;
            G_RANGE_INIT 6 1; G_RANGE_INIT 8 1]
           G_INDEX_SET_PREDICATE_GREATER_THAN 8 eq_refl).
  - unfold ranges_ok. simpl. unfold G_MAXUINT. lia.
  - unfold G_MAXUINT. lia.
  - intros _. unfold G_MAXUINT. lia.
  - intros j Hj.
    apply (contains_index_spec set_even _ j eq_refl) in Hj;
      [|unfold ranges_ok; simpl; unfold G_MAXUINT; lia].
    destruct Hj as (r & Hin & Hr). simpl in Hin. simpl.
    repeat (destruct Hin as [<-|Hin]; [simpl in Hr; lia|]).
    destruct Hin.
Defined.

(** ** Counting the indices *)

Lemma range_indices_In (r : GRange) (i : Z) :
  In i (range_indices r) <-> in_range r i.
Proof.
  unfold range_indices, in_range. rewrite in_map_iff. split.
  - intros (k & <- & Hk). apply in_seq in Hk. lia.
  - intros Hi. exists (Z.to_nat (i - location r)). split; [lia|].
    apply in_seq. lia.
Qed.

Lemma range_indices_length (r : GRange) :
  Datatypes.length (range_indices r) = Z.to_nat (length r).
Proof. unfold range_indices. now rewrite length_map, length_seq. Qed.

Lemma range_indices_sorted (r : GRange) :
  StronglySorted Z.lt (range_indices r).
Proof.
  unfold range_indices. generalize (Z.to_nat (length r)) as n.
  generalize O as s. intros s n. revert s.
  induction n as [|n IH]; intros s; simpl; constructor.
  - apply IH.
  - apply Forall_forall. intros x Hx. apply in_map_iff in Hx.
    destruct Hx as (k & <- & Hk). apply in_seq in Hk. lia.
Qed.

Lemma store_indices_In (a : list GRange) (i : Z) :
  In i (store_indices a) <-> index_in_store a i.
Proof.
  unfold store_indices, index_in_store. rewrite in_flat_map.
  split; intros (r & Hin & Hr); exists r; split; trivial;
    now apply range_indices_In.
Qed.

Lemma StronglySorted_app_lt (l1 l2 : list Z) :
  StronglySorted Z.lt l1 -> StronglySorted Z.lt l2 ->
  (forall x y, In x l1 -> In y l2 -> x < y) ->
  StronglySorted Z.lt (l1 ++ l2).
Proof.
  intros H1 H2 H12. induction l1 as [|x l1 IH]; simpl; [exact H2|].
  inversion H1 as [|? ? Hs Hall]; subst. constructor.
  - apply IH; [exact Hs|]. intros x' y Hx Hy. apply H12; [now right|exact Hy].
  - apply Forall_app. split; [exact Hall|].
    apply Forall_forall. intros y Hy. apply H12; [now left|exact Hy].
Qed.

(** The indices of a store that satisfies the invariant, read range after
    range, are strictly ascending. *)
Lemma store_indices_sorted (a : list GRange) (lo : Z) :
  ranges_above lo a -> StronglySorted Z.lt (store_indices a).
Proof.
  revert lo. induction a as [|r a IH]; intros lo Hok; simpl; [constructor|].
  destruct Hok as (H1 & H2 & H3 & H4).
  apply StronglySorted_app_lt.
  - apply range_indices_sorted.
  - exact (IH _ H4).
  - intros x y Hx Hy. apply range_indices_In in Hx. unfold in_range in Hx.
    apply store_indices_In in Hy.
    pose proof (index_in_store_above _ _ _ H4 Hy). lia.
Qed.

Lemma StronglySorted_lt_NoDup (l : list Z) :
  StronglySorted Z.lt l -> NoDup l.
Proof.
  induction 1 as [|x l Hs IH Hall]; constructor; [|exact IH].
  intros Hin. pose proof (proj1 (Forall_forall _ l) Hall x Hin). lia.
Qed.

Lemma get_size_fold (a : list GRange) :
  forall lo acc : Z,
    0 <= acc <= lo -> ranges_above lo a ->
    fold_left (fun count range => guint_add count (length range)) a acc
    = acc + Z.of_nat (Datatypes.length (store_indices a)).
Proof.
  induction a as [|r a IH]; intros lo acc Hacc Hok; simpl; [lia|].
  destruct Hok as (H1 & H2 & H3 & H4).
  assert (Hadd : guint_add acc (length r) = acc + length r)
    by (apply guint_wrap_small; lia).
  rewrite Hadd, (IH (location r + length r + 1)) by (trivial; lia).
  unfold store_indices. rewrite length_app, range_indices_length. lia.
Qed.

(** X17.  On a store that satisfies the invariant, [g_index_set_get_size]
    is the number of contained indices: it equals the length of any list
    that names every contained index once. *)
Theorem size_counts_indices (index_set : GIndexSet) (a : list GRange)
    (l : list Z) :
  ranges index_set = Some a -> ranges_ok a -> NoDup l ->
  (forall i, In i l <-> g_index_set_contains_index index_set i = true) ->
  g_index_set_get_size index_set = Z.of_nat (Datatypes.length l).
Proof.
  intros Ha Hok Hnd Hl. unfold g_index_set_get_size. rewrite Ha.
  rewrite (get_size_fold a 0 0 ltac:(lia) Hok). simpl. f_equal.
  apply Permutation_length, NoDup_Permutation.
  - apply StronglySorted_lt_NoDup. exact (store_indices_sorted a 0 Hok).
  - exact Hnd.
  - intros i. rewrite store_indices_In, Hl.
    symmetry. now apply contains_index_spec.
Qed.

Lemma size_counts_indices_witness :
  g_index_set_get_size set_even
  = Z.of_nat (Datatypes.length [8; 2; 0; 6; 4]).
Proof.
  apply (size_counts_indices set_even
           [G_RANGE_INIT 0 1; G_RANGE_INIT 2 1; G_RANGE_INIT 4 1;
            G_RANGE_INIT 6 1; G_RANGE_INIT 8 1] [8; 2; 0; 6; 4] eq_refl).
  - unfold ranges_ok. simpl. unfold G_MAXUINT. lia.
  - repeat constructor; simpl; intuition lia.
  - intros i. split.
    + simpl. intros [<-|[<-|[<-|[<-|[<-|[]]]]]]; reflexivity.
    + intros Hi.
      apply (contains_index_spec set_even _ i eq_refl) in Hi;
        [|unfold ranges_ok; simpl; unfold G_MAXUINT; lia].
      destruct Hi as (r & Hin & Hr). simpl in Hin.
      repeat (destruct Hin as [<-|Hin]; [simpl in Hr; simpl; lia|]).
      destruct Hin.
Defined.

(** ** Enumeration *)

Lemma enumerate_indices_walk (fuel : nat) :
  forall (is_reverse : bool) (j r_stop : Z) (acc : list Z),
    enumerate_indices (list Z) record_index fuel is_reverse j r_stop acc
    = (false, acc ++ indices_walk fuel is_reverse j r_stop).
Proof.
  induction fuel as [|fuel IH]; intros is_reverse j r_stop acc;
    cbn [enumerate_indices indices_walk]; [now rewrite app_nil_r|].
  destruct (if is_reverse then r_stop <=? j else j <? r_stop);
    [|now rewrite app_nil_r].
  unfold record_index at 1. destruct is_reverse.
  - destruct (j =? 0); [reflexivity|].
    rewrite IH, <- app_assoc. reflexivity.
  - rewrite IH, <- app_assoc. reflexivity.
Qed.

Lemma up_to_app_in (c : Z) (l1 l2 : list Z) :
  existsb (fun x => x =? c) l1 = true -> up_to c (l1 ++ l2) = up_to c l1.
Proof.
  induction l1 as [|x l1 IH]; simpl; [discriminate|].
  destruct (x =? c); [reflexivity|]. simpl. intros H. now rewrite IH.
Qed.

Lemma up_to_app_out (c : Z) (l1 l2 : list Z) :
  existsb (fun x => x =? c) l1 = false ->
  up_to c (l1 ++ l2) = l1 ++ up_to c l2.
Proof.
  induction l1 as [|x l1 IH]; simpl; [reflexivity|].
  destruct (x =? c); [discriminate|]. simpl. intros H. now rewrite IH.
Qed.

Lemma up_to_not_in (c : Z) (l : list Z) :
  existsb (fun x => x =? c) l = false -> up_to c l = l.
Proof.
  intros H. pose proof (up_to_app_out c l [] H) as H'.
  now rewrite !app_nil_r in H'.
Qed.

Lemma enumerate_indices_until (c : Z) (fuel : nat) :
  forall (is_reverse : bool) (j r_stop : Z) (acc : list Z),
    enumerate_indices (list Z) (record_until c) fuel is_reverse j r_stop acc
    = (existsb (fun x => x =? c) (indices_walk fuel is_reverse j r_stop),
       acc ++ up_to c (indices_walk fuel is_reverse j r_stop)).
Proof.
  induction fuel as [|fuel IH]; intros is_reverse j r_stop acc;
    cbn [enumerate_indices indices_walk]; [now rewrite app_nil_r|].
  destruct (if is_reverse then r_stop <=? j else j <? r_stop);
    [|now rewrite app_nil_r].
  unfold record_until at 1. cbn [existsb up_to].
  destruct (j =? c); [reflexivity|]. cbn [orb].
  destruct is_reverse.
  - destruct (j =? 0); [reflexivity|].
    rewrite IH, <- app_assoc. reflexivity.
  - rewrite IH, <- app_assoc. reflexivity.
Qed.

Lemma enumerate_ranges_walk (fuel : nat) :
  forall (a : list GRange) (is_reverse : bool) (i stop : nat)
         (acc : list Z),
    enumerate_ranges (list Z) record_index fuel a is_reverse i stop acc
    = acc ++ ranges_walk fuel a is_reverse i stop.
Proof.
  induction fuel as [|fuel IH]; intros a is_reverse i stop acc;
    cbn [enumerate_ranges ranges_walk]; [now rewrite app_nil_r|].
  destruct (if is_reverse then Nat.leb stop i else Nat.ltb i stop);
    [|now rewrite app_nil_r].
  destruct (nth_error a i) as [r|]; [|now rewrite app_nil_r].
  cbv zeta. rewrite enumerate_indices_walk.
  destruct is_reverse.
  - destruct i as [|i']; [now rewrite app_nil_r|].
    rewrite IH, <- app_assoc. reflexivity.
  - rewrite IH, <- app_assoc. reflexivity.
Qed.

Lemma enumerate_ranges_until (c : Z) (fuel : nat) :
  forall (a : list GRange) (is_reverse : bool) (i stop : nat)
         (acc : list Z),
    enumerate_ranges (list Z) (record_until c) fuel a is_reverse i stop acc
    = acc ++ up_to c (ranges_walk fuel a is_reverse i stop).
Proof.
  induction fuel as [|fuel IH]; intros a is_reverse i stop acc;
    cbn [enumerate_ranges ranges_walk]; [now rewrite app_nil_r|].
  destruct (if is_reverse then Nat.leb stop i else Nat.ltb i stop);
    [|now rewrite app_nil_r].
  destruct (nth_error a i) as [r|]; [|now rewrite app_nil_r].
  cbv zeta. rewrite enumerate_indices_until.
  match goal with
  | |- context [existsb _ ?w] => destruct (existsb (fun x => x =? c) w) eqn:Hw
  end.
  - rewrite up_to_app_in by exact Hw. reflexivity.
  - rewrite up_to_app_out by exact Hw. rewrite (up_to_not_in _ _ Hw).
    destruct is_reverse.
    + destruct i as [|i']; [simpl; now rewrite app_nil_r|].
      rewrite IH, <- app_assoc. reflexivity.
    + rewrite IH, <- app_assoc. reflexivity.
Qed.

(** X18.  When the callback asks to stop at an index, the enumeration hands
    it the indices it would have handed to a callback that never stops, up
    to and including the first occurrence of that index, and no more. *)
Theorem enumerate_stops_at_cut_off (index_set : GIndexSet) (range : GRange)
    (flags cut_off : Z) :
  g_index_set_enumerate_in_range (list Z) (record_until cut_off) index_set
    range flags []
  = up_to cut_off (visited_in_range index_set range flags).
Proof.
  unfold visited_in_range, g_index_set_enumerate_in_range.
  destruct (ranges index_set) as [[|r a]|]; try reflexivity.
  destruct (length range =? 0); [reflexivity|].
  cbv zeta. rewrite enumerate_ranges_until, enumerate_ranges_walk.
  reflexivity.
Qed.

Lemma indices_walk_forward (n : nat) :
  forall j : Z,
    0 <= j -> j + Z.of_nat n <= G_MAXUINT ->
    indices_walk n false j (j + Z.of_nat n)
    = map (fun k => j + Z.of_nat k) (seq 0 n).
Proof.
  induction n as [|n IH]; intros j Hj Hmax; [reflexivity|].
  cbn [indices_walk].
  destruct (Z.ltb_spec j (j + Z.of_nat (S n))) as [_|Hge]; [|lia].
  assert (Hadd : guint_add j 1 = j + 1) by (apply guint_wrap_small; lia).
  rewrite Hadd.
  replace (j + Z.of_nat (S n)) with (j + 1 + Z.of_nat n) by lia.
  rewrite IH by lia. simpl seq. simpl map.
  rewrite <- seq_shift, map_map. f_equal; [lia|].
  apply map_ext. intros k. lia.
Qed.

Lemma indices_walk_backward (n : nat) :
  forall r_stop : Z,
    0 <= r_stop -> r_stop + Z.of_nat n - 1 <= G_MAXUINT ->
    indices_walk n true (r_stop + Z.of_nat n - 1) r_stop
    = rev (map (fun k => r_stop + Z.of_nat k) (seq 0 n)).
Proof.
  induction n as [|n IH]; intros r_stop H0 Hmax; [reflexivity|].
  cbn [indices_walk].
  destruct (Z.leb_spec r_stop (r_stop + Z.of_nat (S n) - 1)) as [_|Hlt];
    [|lia].
  rewrite seq_S, map_app, rev_app_distr. simpl rev. simpl app.
  f_equal; [lia|].
  destruct (Z.eqb_spec (r_stop + Z.of_nat (S n) - 1) 0) as [Hz|Hnz].
  - assert (Hn : n = O) by lia. subst n. reflexivity.
  - assert (Hsub : guint_sub (r_stop + Z.of_nat (S n) - 1) 1
                   = r_stop + Z.of_nat n - 1)
      by (unfold guint_sub; rewrite guint_wrap_small; lia).
    rewrite Hsub. apply IH; lia.
Qed.

Lemma range_walk_forward (r : GRange) :
  range_in_bounds r ->
  indices_walk (Z.to_nat (g_range_get_max r - location r)) false
    (location r) (g_range_get_max r)
  = range_indices r.
Proof.
  intros (H1 & H2 & H3). rewrite get_max_in_bounds by lia.
  replace (location r + length r - location r) with (length r) by lia.
  replace (location r + length r)
    with (location r + Z.of_nat (Z.to_nat (length r))) by lia.
  apply indices_walk_forward; lia.
Qed.

Lemma range_walk_backward (r : GRange) :
  range_in_bounds r ->
  indices_walk
    (Z.to_nat (guint_sub (g_range_get_max r) 1 - location r + 1)) true
    (guint_sub (g_range_get_max r) 1) (location r)
  = rev (range_indices r).
Proof.
  intros (H1 & H2 & H3). rewrite get_max_in_bounds by lia.
  assert (Hsub : guint_sub (location r + length r) 1
                 = location r + length r - 1)
    by (apply guint_wrap_small; lia).
  rewrite Hsub.
  replace (location r + length r - 1 - location r + 1) with (length r)
    by lia.
  replace (location r + length r - 1)
    with (location r + Z.of_nat (Z.to_nat (length r)) - 1) by lia.
  apply indices_walk_backward; lia.
Qed.

Lemma skipn_nth_cons (a : list GRange) (i : nat) (r : GRange) :
  nth_error a i = Some r -> skipn i a = r :: skipn (S i) a.
Proof.
  revert i. induction a as [|x a IH]; intros i H.
  - destruct i; discriminate.
  - destruct i as [|i]; simpl in *; [now injection H as ->|now apply IH].
Qed.

Lemma segment_empty (a : list GRange) (from to : nat) :
  (to <= from)%nat -> segment a from to = [].
Proof.
  intros H. unfold segment. replace (to - from)%nat with O by lia.
  reflexivity.
Qed.

Lemma segment_cons (a : list GRange) (i stop : nat) (r : GRange) :
  nth_error a i = Some r -> (i < stop)%nat ->
  segment a i stop = r :: segment a (S i) stop.
Proof.
  intros Hr Hlt. unfold segment. rewrite (skipn_nth_cons a i r Hr).
  replace (stop - i)%nat with (S (stop - S i)) by lia. reflexivity.
Qed.

Lemma firstn_S_nth (l : list GRange) (n : nat) (x : GRange) :
  nth_error l n = Some x -> firstn (S n) l = firstn n l ++ [x].
Proof.
  revert n. induction l as [|y l IH]; intros n H.
  - destruct n; discriminate.
  - destruct n as [|n]; simpl in *; [now injection H as ->|].
    f_equal. now apply IH.
Qed.

Lemma segment_snoc (a : list GRange) (i stop : nat) (r : GRange) :
  nth_error a i = Some r -> (stop <= i)%nat ->
  segment a stop (S i) = segment a stop i ++ [r].
Proof.
  intros Hr Hle. unfold segment.
  replace (S i - stop)%nat with (S (i - stop)) by lia.
  apply firstn_S_nth. rewrite nth_error_skipn.
  replace (stop + (i - stop))%nat with i by lia. exact Hr.
Qed.

Lemma segment_In (a : list GRange) (from to : nat) (r : GRange) :
  In r (segment a from to) -> In r a.
Proof.
  unfold segment. intros H.
  rewrite <- (firstn_skipn from a). apply in_or_app. right.
  rewrite <- (firstn_skipn (to - from) (skipn from a)).
  apply in_or_app. left. exact H.
Qed.

Lemma segment_ranges_above (a : list GRange) (lo : Z) (from to : nat) :
  ranges_above lo a -> exists lo', ranges_above lo' (segment a from to).
Proof.
  intros Hok. unfold segment.
  rewrite <- (firstn_skipn from a) in Hok.
  apply ranges_above_app in Hok. destruct Hok as [_ Hs].
  rewrite <- (firstn_skipn (to - from) (skipn from a)) in Hs.
  apply ranges_above_app in Hs. destruct Hs as [Hf _]. eauto.
Qed.

Lemma store_indices_app (a b : list GRange) :
  store_indices (a ++ b) = store_indices a ++ store_indices b.
Proof. unfold store_indices. apply flat_map_app. Qed.

Lemma ranges_walk_forward (fuel : nat) (a : list GRange) (lo : Z)
    (stop : nat) :
  0 <= lo -> ranges_above lo a -> (stop <= array_len a)%nat ->
  forall i : nat,
    (stop - i <= fuel)%nat ->
    ranges_walk fuel a false i stop = store_indices (segment a i stop).
Proof.
  intros Hlo Hok Hstop.
  induction fuel as [|fuel IH]; intros i Hfuel.
  - rewrite segment_empty by lia. reflexivity.
  - cbn [ranges_walk].
    destruct (Nat.ltb_spec i stop) as [Hlt|Hge];
      [|rewrite segment_empty by lia; reflexivity].
    destruct (nth_error a i) as [r|] eqn:Hr.
    2:{ apply nth_error_None in Hr. lia. }
    destruct (ranges_above_nth _ _ _ _ Hok Hr) as (H1 & H2 & H3).
    cbv zeta.
    rewrite (range_walk_forward r) by (unfold range_in_bounds; lia).
    rewrite Nat.add_1_r, IH by lia.
    rewrite (segment_cons a i stop r Hr Hlt). reflexivity.
Qed.

Lemma ranges_walk_backward (fuel : nat) (a : list GRange) (lo : Z)
    (stop : nat) :
  0 <= lo -> ranges_above lo a ->
  forall i : nat,
    (i < array_len a)%nat -> (S i <= fuel)%nat ->
    ranges_walk fuel a true i stop
    = rev (store_indices (segment a stop (S i))).
Proof.
  intros Hlo Hok.
  induction fuel as [|fuel IH]; intros i Hi Hfuel; [lia|].
  cbn [ranges_walk].
  destruct (Nat.leb_spec stop i) as [Hle|Hgt];
    [|rewrite segment_empty by lia; reflexivity].
  destruct (nth_error a i) as [r|] eqn:Hr.
  2:{ apply nth_error_None in Hr. lia. }
  destruct (ranges_above_nth _ _ _ _ Hok Hr) as (H1 & H2 & H3).
  cbv zeta.
  rewrite (range_walk_backward r) by (unfold range_in_bounds; lia).
  rewrite (segment_snoc a i stop r Hr Hle), store_indices_app, rev_app_distr.
  unfold store_indices at 1. simpl flat_map. rewrite app_nil_r.
  f_equal.
  destruct i as [|i'].
  - rewrite segment_empty by lia. reflexivity.
  - apply IH; lia.
Qed.

(** The positions between which the enumeration walks. *)
Lemma visited_in_range_walk (index_set : GIndexSet) (a : list GRange)
    (range : GRange) (flags : Z) :
  ranges index_set = Some a -> a <> [] -> length range <> 0 ->
  visited_in_range index_set range flags
  = ranges_walk (S (array_len a)) a
      (negb (Z.land flags G_INDEX_SET_ENUMERATE_REVERSE =? 0))
      (if Nat.leb (array_len a)
            (g_index_set_get_position a (location range))
       then O else g_index_set_get_position a (location range))
      (g_index_set_get_position a (guint_sub (g_range_get_max range) 1)).
Proof.
  intros Ha Hne Hlen. unfold visited_in_range, g_index_set_enumerate_in_range.
  rewrite Ha. destruct a as [|x a0]; [contradiction|].
  destruct (Z.eqb_spec (length range) 0) as [|_]; [contradiction|].
  cbv zeta. rewrite enumerate_ranges_walk. reflexivity.
Qed.

(** X19.  On a non-empty store that satisfies the invariant, with a query
    range that is not empty, the forward enumeration hands the callback the
    indices of the stored ranges from the resolved position of the start of
    the query range up to, and without, the resolved position of its last
    index, each range whole and in ascending order; the backward
    enumeration hands it the indices of the stored ranges from the resolved
    position of the last index up to, and with, the position it starts at,
    each range whole and in descending order. *)
Theorem visited_in_range_exact (index_set : GIndexSet) (a : list GRange)
    (range : GRange) :
  ranges index_set = Some a -> ranges_ok a -> a <> [] -> length range <> 0 ->
  let start :=
    if Nat.leb (array_len a) (g_index_set_get_position a (location range))
    then O else g_index_set_get_position a (location range) in
  let stop :=
    g_index_set_get_position a (guint_sub (g_range_get_max range) 1) in
  visited_in_range index_set range G_INDEX_SET_ENUMERATE_NONE
  = store_indices (segment a start stop)
  /\ visited_in_range index_set range G_INDEX_SET_ENUMERATE_REVERSE
     = rev (store_indices (segment a stop (S start))).
Proof.
  intros Ha Hok Hne Hlen start stop.
  assert (Hstart : (start < array_len a)%nat).
  { subst start. destruct (Nat.leb_spec (array_len a)
                             (g_index_set_get_position a (location range)));
      [|lia].
    destruct a; [contradiction|simpl; lia]. }
  assert (Hstop : (stop <= array_len a)%nat) by apply get_position_le.
  split.
  - rewrite (visited_in_range_walk index_set a range _ Ha Hne Hlen).
    change (negb (Z.land G_INDEX_SET_ENUMERATE_NONE
                    G_INDEX_SET_ENUMERATE_REVERSE =? 0)) with false.
    apply (ranges_walk_forward _ a 0); trivial; lia.
  - rewrite (visited_in_range_walk index_set a range _ Ha Hne Hlen).
    change (negb (Z.land G_INDEX_SET_ENUMERATE_REVERSE
                    G_INDEX_SET_ENUMERATE_REVERSE =? 0)) with true.
    apply (ranges_walk_backward _ a 0); trivial; lia.
Qed.

Lemma visited_in_range_exact_witness :
  visited_in_range set_even (G_RANGE_INIT 1 6) G_INDEX_SET_ENUMERATE_NONE
  = [2; 4]
  /\ visited_in_range set_even (G_RANGE_INIT 1 6)
       G_INDEX_SET_ENUMERATE_REVERSE = [].
Proof.
  exact (visited_in_range_exact set_even
           [G_RANGE_INIT 0 1; G_RANGE_INIT 2 1; G_RANGE_INIT 4 1;
            G_RANGE_INIT 6 1; G_RANGE_INIT 8 1] (G_RANGE_INIT 1 6) eq_refl
           ltac:(unfold ranges_ok; simpl; unfold G_MAXUINT; lia)
           ltac:(discriminate) ltac:(discriminate)).
Defined.

(** X20.  On a store that satisfies the invariant, whatever the query range
    and the direction, every index the enumeration hands to the callback is
    contained in the set. *)
Theorem enumeration_visits_contained (index_set : GIndexSet)
    (a : list GRange) (range : GRange) (flags : Z) :
  ranges index_set = Some a -> ranges_ok a ->
  Forall (fun j => g_index_set_contains_index index_set j = true)
    (visited_in_range index_set range flags).
Proof.
  intros Ha Hok.
  destruct a as [|x a0].
  { unfold visited_in_range, g_index_set_enumerate_in_range. rewrite Ha.
    constructor. }
  destruct (Z.eq_dec (length range) 0) as [H0|Hlen].
  { unfold visited_in_range, g_index_set_enumerate_in_range. rewrite Ha.
    rewrite H0. constructor. }
  remember (x :: a0) as a eqn:Hcons.
  assert (Hne : a <> []) by (subst a; discriminate).
  rewrite (visited_in_range_walk index_set a range flags Ha Hne Hlen).
  set (start := if Nat.leb _ _ then O else _).
  set (stop := g_index_set_get_position a _).
  assert (Hstart : (start < array_len a)%nat).
  { subst start. destruct (Nat.leb_spec (array_len a)
                             (g_index_set_get_position a (location range)));
      [|lia].
    subst a. simpl. lia. }
  assert (Hstop : (stop <= array_len a)%nat) by apply get_position_le.
  assert (Hseg : forall from to j,
             In j (store_indices (segment a from to)) ->
             g_index_set_contains_index index_set j = true).
  { intros from to j Hj. apply (contains_index_spec index_set a j Ha Hok).
    apply store_indices_In in Hj. destruct Hj as (r & Hin & Hr).
    exists r. split; [exact (segment_In a from to r Hin)|exact Hr]. }
  apply Forall_forall. intros j Hj.
  destruct (negb (Z.land flags G_INDEX_SET_ENUMERATE_REVERSE =? 0)).
  - rewrite (ranges_walk_backward _ a 0) in Hj by (trivial; lia).
    apply in_rev in Hj. exact (Hseg _ _ j Hj).
  - rewrite (ranges_walk_forward _ a 0) in Hj by (trivial; lia).
    exact (Hseg _ _ j Hj).
Qed.

Lemma enumeration_visits_contained_witness :
  Forall (fun j => g_index_set_contains_index set_0_10 j = true)
    (visited_in_range set_0_10 (G_RANGE_INIT 3 4)
       G_INDEX_SET_ENUMERATE_REVERSE).
Proof.
  apply (enumeration_visits_contained set_0_10 [G_RANGE_INIT 0 10]
           (G_RANGE_INIT 3 4) G_INDEX_SET_ENUMERATE_REVERSE eq_refl).
  unfold ranges_ok. simpl. unfold G_MAXUINT. lia.
Defined.

(** X21.  On a store that satisfies the invariant, the forward enumeration
    hands the callback strictly ascending indices and the backward
    enumeration strictly descending ones (ascending when read backwards):
    no index is handed over twice. *)
Theorem enumeration_in_order (index_set : GIndexSet) (a : list GRange)
    (range : GRange) :
  ranges index_set = Some a -> ranges_ok a ->
  StronglySorted Z.lt
    (visited_in_range index_set range G_INDEX_SET_ENUMERATE_NONE)
  /\ StronglySorted Z.lt
       (rev (visited_in_range index_set range G_INDEX_SET_ENUMERATE_REVERSE)).
Proof.
  intros Ha Hok.
  destruct a as [|x a0].
  { unfold visited_in_range, g_index_set_enumerate_in_range. rewrite Ha.
    split; constructor. }
  destruct (Z.eq_dec (length range) 0) as [H0|Hlen].
  { unfold visited_in_range, g_index_set_enumerate_in_range. rewrite Ha.
    rewrite H0. split; constructor. }
  assert (Hne : x :: a0 <> []) by discriminate.
  destruct (visited_in_range_exact index_set (x :: a0) range Ha Hok Hne Hlen)
    as [Hf Hb].
  rewrite Hf, Hb, rev_involutive.
  split.
  - destruct (segment_ranges_above (x :: a0) 0
                (if Nat.leb (array_len (x :: a0))
                      (g_index_set_get_position (x :: a0) (location range))
                 then O
                 else g_index_set_get_position (x :: a0) (location range))
                (g_index_set_get_position (x :: a0)
                   (guint_sub (g_range_get_max range) 1)) Hok)
      as [lo' Hseg].
    exact (store_indices_sorted _ lo' Hseg).
  - destruct (segment_ranges_above (x :: a0) 0
                (g_index_set_get_position (x :: a0)
                   (guint_sub (g_range_get_max range) 1))
                (S (if Nat.leb (array_len (x :: a0))
                         (g_index_set_get_position (x :: a0) (location range))
                    then O
                    else g_index_set_get_position (x :: a0) (location range)))
                Hok)
      as [lo' Hseg].
    exact (store_indices_sorted _ lo' Hseg).
Qed.

Lemma enumeration_in_order_witness :
  StronglySorted Z.lt
    (visited_in_range set_even (G_RANGE_INIT 1 6) G_INDEX_SET_ENUMERATE_NONE)
  /\ StronglySorted Z.lt
       (rev (visited_in_range set_even (G_RANGE_INIT 1 6)
               G_INDEX_SET_ENUMERATE_REVERSE)).
Proof.
  apply (enumeration_in_order set_even
           [G_RANGE_INIT 0 1; G_RANGE_INIT 2 1; G_RANGE_INIT 4 1;
            G_RANGE_INIT 6 1; G_RANGE_INIT 8 1] (G_RANGE_INIT 1 6) eq_refl).
  unfold ranges_ok. simpl. unfold G_MAXUINT. lia.
Defined.

(** ** GRange: union and intersection *)

(** X22.  For two ranges that do not reach past the largest [guint],
    [g_range_intersection] returns [TRUE] exactly when the ranges share an
    index, and the range it then stores is not empty and holds exactly the
    shared indices. *)
Theorem range_intersection_exact (range_a range_b : GRange) :
  0 <= location range_a -> 0 <= length range_a ->
  location range_a + length range_a <= G_MAXUINT ->
  0 <= location range_b -> 0 <= length range_b ->
  location range_b + length range_b <= G_MAXUINT ->
  match g_range_intersection range_a range_b with
  | Some res =>
      0 < length res
      /\ forall i, g_range_contains_location res i = true
                   <-> g_range_contains_location range_a i = true
                       /\ g_range_contains_location range_b i = true
  | None =>
      forall i, ~ (g_range_contains_location range_a i = true
                   /\ g_range_contains_location range_b i = true)
  end.
Proof.
  intros Ha1 Ha2 Ha3 Hb1 Hb2 Hb3. unfold g_range_intersection.
  fold (g_range_get_max range_a). fold (g_range_get_max range_b).
  rewrite (get_max_in_bounds range_a), (get_max_in_bounds range_b) by lia.
  destruct (Z.ltb_spec (Z.max (location range_a) (location range_b))
              (Z.min (location range_a + length range_a)
                 (location range_b + length range_b))) as [Hlt|Hge].
  - assert (Hsub : guint_sub
                     (Z.min (location range_a + length range_a)
                        (location range_b + length range_b))
                     (Z.max (location range_a) (location range_b))
                   = Z.min (location range_a + length range_a)
                       (location range_b + length range_b)
                     - Z.max (location range_a) (location range_b))
      by (apply guint_wrap_small; lia).
    rewrite Hsub. split; [simpl; lia|]. intros i.
    rewrite !contains_location_no_wrap by (simpl; lia).
    unfold in_range. simpl. lia.
  - intros i.
    rewrite !contains_location_no_wrap by lia. unfold in_range. lia.
Qed.

Lemma range_intersection_exact_witness :
  match g_range_intersection (G_RANGE_INIT 0 10) (G_RANGE_INIT 8 4) with
  | Some res =>
      0 < length res
      /\ forall i, g_range_contains_location res i = true
                   <-> g_range_contains_location (G_RANGE_INIT 0 10) i = true
                       /\ g_range_contains_location (G_RANGE_INIT 8 4) i = true
  | None =>
      forall i, ~ (g_range_contains_location (G_RANGE_INIT 0 10) i = true
                   /\ g_range_contains_location (G_RANGE_INIT 8 4) i = true)
  end.
Proof.
  apply (range_intersection_exact (G_RANGE_INIT 0 10) (G_RANGE_INIT 8 4));
    simpl; unfold G_MAXUINT; lia.
Defined.

(** X23.  For two ranges that do not reach past the largest [guint],
    [g_range_union] gives a range that contains every index of either
    range; when neither range is empty it is the least such range: every
    range that contains both contains it. *)
Theorem range_union_spans (range_a range_b : GRange) :
  0 <= location range_a -> 0 <= length range_a ->
  location range_a + length range_a <= G_MAXUINT ->
  0 <= location range_b -> 0 <= length range_b ->
  location range_b + length range_b <= G_MAXUINT ->
  (forall i, g_range_contains_location range_a i = true
             \/ g_range_contains_location range_b i = true ->
             g_range_contains_location (g_range_union range_a range_b) i
             = true)
  /\ (0 < length range_a -> 0 < length range_b ->
      forall range_c,
        0 <= location range_c -> 0 <= length range_c ->
        location range_c + length range_c <= G_MAXUINT ->
        (forall i, g_range_contains_location range_a i = true
                   \/ g_range_contains_location range_b i = true ->
                   g_range_contains_location range_c i = true) ->
        forall i,
          g_range_contains_location (g_range_union range_a range_b) i = true ->
          g_range_contains_location range_c i = true).
Proof.
  intros Ha1 Ha2 Ha3 Hb1 Hb2 Hb3.
  assert (Hu : forall i,
             g_range_contains_location (g_range_union range_a range_b) i = true
             <-> Z.min (location range_a) (location range_b) <= i
                 < Z.max (location range_a + length range_a)
                     (location range_b + length range_b)).
  { intros i. unfold g_range_union.
    fold (g_range_get_max range_a). fold (g_range_get_max range_b).
    rewrite (get_max_in_bounds range_a), (get_max_in_bounds range_b) by lia.
    assert (Hsub : guint_sub
                     (Z.max (location range_a + length range_a)
                        (location range_b + length range_b))
                     (Z.min (location range_a) (location range_b))
                   = Z.max (location range_a + length range_a)
                       (location range_b + length range_b)
                     - Z.min (location range_a) (location range_b))
      by (apply guint_wrap_small; lia).
    rewrite Hsub, contains_location_no_wrap by (simpl; lia).
    unfold in_range. simpl. lia. }
  split.
  - intros i Hi. apply Hu.
    rewrite !contains_location_no_wrap in Hi by lia.
    unfold in_range in Hi. lia.
  - intros Hna Hnb range_c Hc1 Hc2 Hc3 Hcover i Hi. apply Hu in Hi.
    assert (Hca : location range_c <= location range_a
                  /\ location range_a + length range_a
                     <= location range_c + length range_c).
    { pose proof (Hcover (location range_a)) as H1.
      pose proof (Hcover (location range_a + length range_a - 1)) as H2.
      rewrite !contains_location_no_wrap in H1, H2 by lia.
      unfold in_range in H1, H2. lia. }
    assert (Hcb : location range_c <= location range_b
                  /\ location range_b + length range_b
                     <= location range_c + length range_c).
    { pose proof (Hcover (location range_b)) as H1.
      pose proof (Hcover (location range_b + length range_b - 1)) as H2.
      rewrite !contains_location_no_wrap in H1, H2 by lia.
      unfold in_range in H1, H2. lia. }
    apply contains_location_no_wrap; trivial. unfold in_range. lia.
Qed.

Lemma range_union_spans_witness :
  (forall i, g_range_contains_location (G_RANGE_INIT 0 3) i = true
             \/ g_range_contains_location (G_RANGE_INIT 5 3) i = true ->
             g_range_contains_location
               (g_range_union (G_RANGE_INIT 0 3) (G_RANGE_INIT 5 3)) i = true)
  /\ (0 < length (G_RANGE_INIT 0 3) -> 0 < length (G_RANGE_INIT 5 3) ->
      forall range_c,
        0 <= location range_c -> 0 <= length range_c ->
        location range_c + length range_c <= G_MAXUINT ->
        (forall i, g_range_contains_location (G_RANGE_INIT 0 3) i = true
                   \/ g_range_contains_location (G_RANGE_INIT 5 3) i = true ->
                   g_range_contains_location range_c i = true) ->
        forall i,
          g_range_contains_location
            (g_range_union (G_RANGE_INIT 0 3) (G_RANGE_INIT 5 3)) i = true ->
          g_range_contains_location range_c i = true).
Proof.
  apply (range_union_spans (G_RANGE_INIT 0 3) (G_RANGE_INIT 5 3));
    simpl; unfold G_MAXUINT; lia.
Defined.

(** ** The initializers and the frozen set *)

(** X24.  For an index below the largest [guint], the three ways to
    initialize a set with the one index agree:
    [g_index_set_init_with_index], which writes the range into the array
    itself, [g_index_set_init_with_indicesv] with the one index and
    [g_index_set_init_with_range] with its range of length 1. *)
Theorem init_with_index_agrees (index_set : GIndexSet) (index_ : Z) :
  is_storable_index index_ = true ->
  g_index_set_init_with_indicesv index_set [index_]
  = Some (g_index_set_init_with_index index_set index_)
  /\ g_index_set_init_with_range index_set (G_RANGE_INIT index_ 1)
     = Some (g_index_set_init_with_index index_set index_).
Proof.
  intros Hi. unfold is_storable_index in Hi. apply andb_true_iff in Hi.
  destruct Hi as [Hg Hlt]. apply Z.ltb_lt in Hlt.
  assert (Hr : is_range (G_RANGE_INIT index_ 1) = true)
    by (unfold is_range; simpl; now rewrite Hg).
  assert (Hend : reaches_end (G_RANGE_INIT index_ 1) = false).
  { unfold reaches_end. simpl. apply Z.ltb_ge. lia. }
  destruct (init_with_range_queries index_set (G_RANGE_INIT index_ 1) Hr Hend)
    as (s' & Hinit & _); [simpl; lia|].
  assert (Hadd : g_index_set_add_range_internal [] (G_RANGE_INIT index_ 1)
                 = Some [G_RANGE_INIT index_ 1]).
  { destruct (add_range_internal_index [] (G_RANGE_INIT index_ 1) I Hr Hend)
      as (a' & Ha' & Hok' & Hsem).
    rewrite Ha'. f_equal.
    apply (ranges_above_unique a' [G_RANGE_INIT index_ 1] 0 Hok').
    - apply is_guint_spec in Hg. unfold ranges_ok. simpl. lia.
    - intros i. rewrite Hsem, index_in_store_cons.
      pose proof (index_in_store_nil i). tauto. }
  unfold g_index_set_init_with_indicesv, g_index_set_init_with_range,
    g_range_init_with_range.
  simpl map. simpl add_ranges_loop. rewrite Hadd. split; reflexivity.
Qed.

Lemma init_with_index_agrees_witness :
  g_index_set_init_with_indicesv g_index_set_alloc [0]
  = Some (g_index_set_init_with_index g_index_set_alloc 0)
  /\ g_index_set_init_with_range g_index_set_alloc (G_RANGE_INIT 0 1)
     = Some (g_index_set_init_with_index g_index_set_alloc 0).
Proof.
  apply (init_with_index_agrees g_index_set_alloc 0). reflexivity.
Defined.

(** X25.  [g_index_set_init_with_set] never copies a set that holds a
    range: it asks the set it has just emptied, not the source, for the
    ranges, gets NULL for the first one and hands it to the insertion,
    which reads through it.  With an empty or uninitialized source it
    returns the empty immutable set. *)
Theorem init_with_set_copies_nothing (index_set set : GIndexSet) :
  match ranges set with
  | Some (_ :: _) => g_index_set_init_with_set index_set set = None
  | _ =>
      exists s',
        g_index_set_init_with_set index_set set = Some s'
        /\ ranges s' = Some [] /\ is_mutable s' = false
  end.
Proof.
  unfold g_index_set_init_with_set.
  destruct (ranges set) as [[|r rs]|].
  - eexists. repeat split.
  - reflexivity.
  - eexists. repeat split.
Qed.

(** X26.  Once [g_index_set_make_immutable] was called, every insertion
    function ([g_index_set_add_index], [g_index_set_add_indices],
    [g_index_set_add_range], [g_index_set_add_set]) is refused and returns
    the set as it is; [g_index_set_init] makes the set mutable and empty
    again. *)
Theorem frozen_set_refuses_adds (index_set : GIndexSet) :
  (forall index_,
      g_index_set_add_index (g_index_set_make_immutable index_set) index_
      = Refused (g_index_set_make_immutable index_set))
  /\ (forall indices,
        g_index_set_add_indices (g_index_set_make_immutable index_set) indices
        = Refused (g_index_set_make_immutable index_set))
  /\ (forall range,
        g_index_set_add_range (g_index_set_make_immutable index_set) range
        = Refused (g_index_set_make_immutable index_set))
  /\ (forall set,
        g_index_set_add_set (g_index_set_make_immutable index_set) set
        = Refused (g_index_set_make_immutable index_set))
  /\ g_index_set_is_mutable
       (g_index_set_init (g_index_set_make_immutable index_set)) = true
  /\ g_index_set_get_size
       (g_index_set_init (g_index_set_make_immutable index_set)) = 0
  /\ forall i,
       g_index_set_contains_index
         (g_index_set_init (g_index_set_make_immutable index_set)) i = false.
Proof. repeat split. Qed.

(** ** gref.c: the reference counter *)

Lemma ref_times_acquire (n : nat) :
  forall (rc size : Z) (nf : bool) (k : nat),
    rc <> 0 -> Z.abs rc + Z.of_nat n <= G_MAXINT ->
    Ref.times n Ref.g_ref_acquire (Ref.Live (Ref.mkGRef rc size nf), k)
    = Some (Ref.Live
              (Ref.mkGRef (if rc <? 0 then rc - Z.of_nat n
                           else rc + Z.of_nat n) size nf), k).
Proof.
  unfold G_MAXINT.
  induction n as [|n IH]; intros rc size nf k Hrc Hmax.
  - simpl. destruct (rc <? 0); repeat f_equal; lia.
  - cbn [Ref.times Ref.g_ref_acquire Ref.ref_count Ref.alloc_size Ref.notify].
    destruct (Z.ltb_spec rc 0) as [Hneg|Hpos].
    + assert (Hw : Ref.gint_wrap (rc + -1) = rc - 1).
      { unfold Ref.gint_wrap.
        rewrite Z.mod_small by lia. lia. }
      rewrite Hw, IH by lia.
      destruct (Z.ltb_spec (rc - 1) 0); [|lia]. do 4 f_equal; lia.
    + destruct (Z.eqb_spec rc G_MAXINT) as [He|_];
        [unfold G_MAXINT in He; lia|].
      rewrite IH by lia.
      destruct (Z.ltb_spec (rc + 1) 0); [lia|]. do 4 f_equal; lia.
Qed.

Lemma ref_times_release (n : nat) :
  forall (rc size : Z) (nf : bool) (k : nat),
    Z.of_nat n < Z.abs rc ->
    Ref.times n Ref.g_ref_release (Ref.Live (Ref.mkGRef rc size nf), k)
    = Some (Ref.Live
              (Ref.mkGRef (if rc <? 0 then rc + Z.of_nat n
                           else rc - Z.of_nat n) size nf), k).
Proof.
  induction n as [|n IH]; intros rc size nf k Hn.
  - simpl. destruct (rc <? 0); repeat f_equal; lia.
  - cbn [Ref.times Ref.g_ref_release Ref.ref_count Ref.alloc_size Ref.notify].
    cbv zeta.
    destruct (Z.eqb_spec rc 0); [lia|].
    destruct (Z.eqb_spec rc (-1)); [lia|].
    destruct (Z.eqb_spec rc 1); [lia|]. cbn [orb].
    destruct (Z.ltb_spec 0 rc) as [Hpos|Hneg].
    + rewrite IH by lia.
      destruct (Z.ltb_spec (rc - 1) 0); [lia|].
      destruct (Z.ltb_spec rc 0); [lia|]. do 4 f_equal; lia.
    + rewrite IH by lia.
      destruct (Z.ltb_spec (rc + 1) 0); [|lia].
      destruct (Z.ltb_spec rc 0); [|lia]. do 4 f_equal; lia.
Qed.

(** X27.  References acquired and released in equal number leave the area
    as it was: after [n] calls of [g_ref_acquire] and then [n] calls of
    [g_ref_release] the header holds the same counter, the area is alive
    and [notify] was not called, for a plain and for an atomic counter
    alike, as long as the counter stays within [int]. *)
Theorem ref_acquire_release_balanced (n : nat) (real : Ref.GRef) (k : nat) :
  Ref.ref_count real <> 0 ->
  Ref.references real + Z.of_nat n <= G_MAXINT ->
  exists st,
    Ref.times n Ref.g_ref_acquire (Ref.Live real, k) = Some st
    /\ Ref.times n Ref.g_ref_release st = Some (Ref.Live real, k).
Proof.
  destruct real as [rc size nf]. unfold Ref.references. simpl.
  intros Hrc Hmax. eexists. split.
  - apply ref_times_acquire; trivial.
  - rewrite ref_times_release by (destruct (Z.ltb_spec rc 0); lia).
    destruct (Z.ltb_spec rc 0) as [Hneg|Hpos].
    + destruct (Z.ltb_spec (rc - Z.of_nat n) 0); [|lia].
      do 4 f_equal; lia.
    + destruct (Z.ltb_spec (rc + Z.of_nat n) 0); [lia|].
      do 4 f_equal; lia.
Qed.

Lemma ref_acquire_release_balanced_witness :
  exists st,
    Ref.times 3 Ref.g_ref_acquire (Ref.Live (Ref.mkGRef (-1) 16 true), O)
    = Some st
    /\ Ref.times 3 Ref.g_ref_release st
       = Some (Ref.Live (Ref.mkGRef (-1) 16 true), O).
Proof.
  apply (ref_acquire_release_balanced 3 (Ref.mkGRef (-1) 16 true) O).
  - simpl. discriminate.
  - unfold Ref.references, G_MAXINT. simpl. lia.
Defined.

(** X28.  An area allocated with a size other than 0 and referenced [n]
    more times survives the first [n] releases, with no call of [notify],
    and is destroyed by the release after them, which calls [notify]
    exactly once when one was given; this holds for the plain and for the
    atomic allocation. *)
Theorem ref_last_release_destroys (alloc_size : Z)
    (atomic clear nf : bool) (n : nat) :
  alloc_size <> 0 -> Z.of_nat n < G_MAXINT ->
  exists real st,
    Ref.g_ref_alloc_internal alloc_size atomic clear nf = Some real
    /\ Ref.times n Ref.g_ref_acquire (Ref.Live real, O) = Some st
    /\ (forall j, (j <= n)%nat ->
          exists real',
            Ref.times j Ref.g_ref_release st = Some (Ref.Live real', O)
            /\ Ref.references real' = Z.of_nat n + 1 - Z.of_nat j)
    /\ Ref.times (S n) Ref.g_ref_release st
       = Some (Ref.Freed, if nf then 1%nat else O).
Proof.
  intros Hsize Hn. unfold Ref.g_ref_alloc_internal.
  destruct (Z.eqb_spec alloc_size 0) as [|_]; [contradiction|].
  set (rc := if atomic then -1 else 1).
  assert (Hrc : rc = -1 \/ rc = 1) by (subst rc; destruct atomic; auto).
  eexists. eexists. split; [reflexivity|]. split.
  - apply ref_times_acquire; [lia|]. unfold G_MAXINT in *. lia.
  - split.
    + intros j Hj. eexists. split.
      * apply ref_times_release. destruct (Z.ltb_spec rc 0); lia.
      * unfold Ref.references. simpl.
        destruct (Z.ltb_spec rc 0);
          [destruct (Z.ltb_spec (rc - Z.of_nat n) 0)
          |destruct (Z.ltb_spec (rc + Z.of_nat n) 0)]; lia.
    + assert (Hlast : forall m rc0 k,
                 Z.abs rc0 = Z.of_nat (S m) ->
                 Ref.times (S m) Ref.g_ref_release
                   (Ref.Live (Ref.mkGRef rc0 alloc_size nf), k)
                 = Some (Ref.Freed, if nf then S k else k)).
      { induction m as [|m IH]; intros rc0 k Habs.
        - cbn [Ref.times Ref.g_ref_release Ref.ref_count]. cbv zeta.
          destruct (Z.eqb_spec rc0 0); [lia|].
          destruct (Z.eqb_spec rc0 (-1)); destruct (Z.eqb_spec rc0 1);
            try lia; reflexivity.
        - cbn [Ref.times Ref.g_ref_release Ref.ref_count Ref.alloc_size
                 Ref.notify]. cbv zeta.
          destruct (Z.eqb_spec rc0 0); [lia|].
          destruct (Z.eqb_spec rc0 (-1)); [lia|].
          destruct (Z.eqb_spec rc0 1); [lia|]. cbn [orb].
          destruct (Z.ltb_spec 0 rc0); apply IH; lia. }
      apply Hlast.
      destruct (Z.ltb_spec rc 0); lia.
Qed.

Lemma ref_last_release_destroys_witness :
  exists real st,
    Ref.g_ref_alloc_internal 16 false true true = Some real
    /\ Ref.times 1 Ref.g_ref_acquire (Ref.Live real, O) = Some st
    /\ (forall j, (j <= 1)%nat ->
          exists real',
            Ref.times j Ref.g_ref_release st = Some (Ref.Live real', O)
            /\ Ref.references real' = Z.of_nat 1 + 1 - Z.of_nat j)
    /\ Ref.times 2 Ref.g_ref_release st = Some (Ref.Freed, 1%nat).
Proof.
  apply (ref_last_release_destroys 16 false true true 1).
  - discriminate.
  - unfold G_MAXINT. simpl. lia.
Defined.

(** X29.  [g_ref_make_atomic] keeps the number of references and makes the
    counter atomic; a second call changes nothing; and it may be called
    before or after acquiring references with the same result. *)
Theorem ref_make_atomic_commutes (n : nat) (real : Ref.GRef) (k : nat) :
  0 < Ref.ref_count real ->
  Ref.ref_count real + Z.of_nat n <= G_MAXINT ->
  exists real' st,
    Ref.g_ref_make_atomic (Ref.Live real, k) = Some (Ref.Live real', k)
    /\ Ref.ref_count real' < 0
    /\ Ref.references real' = Ref.references real
    /\ Ref.g_ref_make_atomic (Ref.Live real', k) = Some (Ref.Live real', k)
    /\ Ref.times n Ref.g_ref_acquire (Ref.Live real', k) = Some st
    /\ match Ref.times n Ref.g_ref_acquire (Ref.Live real, k) with
       | Some st0 => Ref.g_ref_make_atomic st0 = Some st
       | None => False
       end.
Proof.
  destruct real as [rc size nf]. simpl. intros Hpos Hmax.
  exists (Ref.mkGRef (- rc) size nf). eexists.
  unfold Ref.g_ref_make_atomic, Ref.references. simpl.
  destruct (Z.ltb_spec rc 0) as [|_]; [lia|].
  destruct (Z.ltb_spec (- rc) 0) as [_|]; [|lia].
  split; [reflexivity|]. split; [lia|]. split; [lia|].
  split; [reflexivity|]. split.
  - apply ref_times_acquire; lia.
  - rewrite ref_times_acquire by lia.
    destruct (Z.ltb_spec rc 0); [lia|]. simpl.
    destruct (Z.ltb_spec (rc + Z.of_nat n) 0); [lia|].
    destruct (Z.ltb_spec (- rc) 0); [|lia]. do 4 f_equal; lia.
Qed.

Lemma ref_make_atomic_commutes_witness :
  exists real' st,
    Ref.g_ref_make_atomic (Ref.Live (Ref.mkGRef 2 16 false), O)
    = Some (Ref.Live real', O)
    /\ Ref.ref_count real' < 0
    /\ Ref.references real' = Ref.references (Ref.mkGRef 2 16 false)
    /\ Ref.g_ref_make_atomic (Ref.Live real', O) = Some (Ref.Live real', O)
    /\ Ref.times 3 Ref.g_ref_acquire (Ref.Live real', O) = Some st
    /\ match Ref.times 3 Ref.g_ref_acquire
               (Ref.Live (Ref.mkGRef 2 16 false), O) with
       | Some st0 => Ref.g_ref_make_atomic st0 = Some st
       | None => False
       end.
Proof.
  apply (ref_make_atomic_commutes 3 (Ref.mkGRef 2 16 false) O).
  - simpl. lia.
  - unfold G_MAXINT. simpl. lia.
Defined.

(** ** Containment of a range, against the specification *)

(** C7 fails as stated, in both directions.  On the store
    [[2147483640, 2147483660)] the stored range at the resolved position
    contains both ends of the range {2147483645, 5}, yet the answer is
    [false], because the queried range ends past the sentinel.  On the set
    initialized with [0,10) the answer for the range {5, 4294967295} is
    [true], because its end wraps to 4, yet the stored range does not
    contain its last index 4294967299. *)
Lemma contains_range_counterexample :
  ~ (g_index_set_contains_range set_across_not_found
       (G_RANGE_INIT 2147483645 5) = true
     <-> claimed_contains_range set_across_not_found
           (G_RANGE_INIT 2147483645 5))
  /\ ~ (g_index_set_contains_range set_0_10
          (G_RANGE_INIT 5 4294967295) = true
        <-> claimed_contains_range set_0_10 (G_RANGE_INIT 5 4294967295)).
Proof.
  split.
  - intros [_ H].
    assert (Hc : claimed_contains_range set_across_not_found
                   (G_RANGE_INIT 2147483645 5)).
    { exists [G_RANGE_INIT 2147483640 20], (G_RANGE_INIT 2147483640 20).
      unfold in_range. simpl. repeat split; lia. }
    specialize (H Hc). vm_compute in H. discriminate H.
  - intros [H _].
    destruct (H ltac:(vm_compute; reflexivity))
      as (a & r & Ha & Hr & _ & Hlast).
    injection Ha as <-. vm_compute in Hr. injection Hr as <-.
    unfold in_range in Hlast. simpl in Hlast. lia.
Qed.

(** C7, amended.  On a set whose store, if it has one, satisfies the
    invariant, for a range that is not empty and ends at or before the
    sentinel, [g_index_set_contains_range] answers [true] exactly when one
    stored range contains the start and the last index of the range, as
    integers; a stored range that contains the start is the one at the
    resolved position of the start.  On every set, for a range that is not
    empty, not longer than the sentinel and ends past the sentinel, the
    answer is [false].  On the set initialized with [0,10) the answers for
    (0,5), (0,11), (6,2) and (8,4) are true, false, true and false. *)
Theorem contains_range_resolved :
  (forall (index_set : GIndexSet) (range : GRange),
      (forall a, ranges index_set = Some a -> ranges_ok a) ->
      0 <= location range -> 0 < length range ->
      location range + length range <= G_INDEX_SET_NOT_FOUND ->
      (g_index_set_contains_range index_set range = true
       <-> exists a s,
             ranges index_set = Some a /\ In s a
             /\ in_range s (location range)
             /\ in_range s (location range + length range - 1))
      /\ (forall a s,
            ranges index_set = Some a -> In s a ->
            in_range s (location range) ->
            nth_error a (g_index_set_get_position a (location range))
            = Some s))
  /\ (forall (index_set : GIndexSet) (range : GRange),
        0 <= location range <= G_MAXUINT ->
        0 < length range <= G_INDEX_SET_NOT_FOUND ->
        G_INDEX_SET_NOT_FOUND < location range + length range ->
        g_index_set_contains_range index_set range = false)
  /\ g_index_set_contains_range set_0_10 (G_RANGE_INIT 0 5) = true
  /\ g_index_set_contains_range set_0_10 (G_RANGE_INIT 0 11) = false
  /\ g_index_set_contains_range set_0_10 (G_RANGE_INIT 6 2) = true
  /\ g_index_set_contains_range set_0_10 (G_RANGE_INIT 8 4) = false.
Proof.
  split; [|split; [|eval_conj]].
  2:{ intros index_set range Hloc Hlen Hpast.
      unfold g_index_set_contains_range, guint_sub.
      unfold G_INDEX_SET_NOT_FOUND, G_MAXINT, G_MAXUINT in *.
      rewrite guint_wrap_small by (unfold G_MAXUINT; lia).
      destruct (Z.eqb_spec (length range) 0) as [H0|_]; [lia|].
      destruct (Z.ltb_spec (2147483647 - length range) (location range));
        [reflexivity|lia]. }
  intros index_set range Hinv Hloc Hlen Hend.
  assert (Hsent : G_INDEX_SET_NOT_FOUND = 2147483647) by reflexivity.
  assert (Hmax : G_MAXUINT = 4294967295) by reflexivity.
  assert (Hin : forall L r0 R' s,
             ranges_ok (L ++ r0 :: R') ->
             Forall (fun r => location r + length r <= location range) L ->
             location range < location r0 + length r0 ->
             In s (L ++ r0 :: R') -> in_range s (location range) -> s = r0).
  { intros L r0 R' s Hok HL HR Hs Hsr. unfold in_range in Hsr.
    apply ranges_above_app in Hok. destruct Hok as [_ HokR].
    destruct HokR as (_ & _ & _ & HokR').
    apply in_app_or in Hs. destruct Hs as [Hs|[Hs|Hs]].
    - pose proof (ends_before_In L _ s HL Hs). lia.
    - now symmetry.
    - destruct (ranges_above_In _ _ _ HokR' Hs) as (Hlo & _). lia. }
  unfold g_index_set_contains_range, guint_sub.
  rewrite Hsent, guint_wrap_small by lia.
  destruct (Z.eqb_spec (length range) 0) as [H0|_]; [lia|].
  destruct (Z.ltb_spec (2147483647 - length range) (location range)) as [|_];
    [lia|].
  rewrite get_max_in_bounds, guint_wrap_small by lia.
  destruct (ranges index_set) as [a|];
    [|split; [split; [discriminate|]|];
      [intros (a & s & Ha & _)|intros a s Ha]; discriminate Ha].
  pose proof (Hinv a eq_refl) as Hok.
  destruct (get_position_spec a (location range) Hok)
    as (L & R & -> & Hpos & HL & HR).
  rewrite Hpos.
  destruct R as [|r0 R'].
  - rewrite app_nil_r in *.
    assert (Hnone : forall s, In s L -> ~ in_range s (location range)).
    { intros s Hs Hsr. unfold in_range in Hsr.
      pose proof (ends_before_In L _ s HL Hs). lia. }
    split.
    + replace (nth_error L (array_len L)) with (@None GRange)
        by (symmetry; apply nth_error_None; lia).
      split; [discriminate|].
      intros (a & s & [= <-] & Hs & Hsr & _). destruct (Hnone s Hs Hsr).
    + intros a s [= <-] Hs Hsr. destruct (Hnone s Hs Hsr).
  - rewrite nth_error_app_mid.
    assert (Hb0 : range_in_bounds r0).
    { assert (Hsplit := Hok). apply ranges_above_app in Hsplit.
      destruct Hsplit as [_ (_ & Hq2 & Hq3 & _)].
      pose proof (ranges_above_In _ _ r0 Hok
                    ltac:(apply in_or_app; right; left; reflexivity))
        as (Hq1 & _).
      unfold range_in_bounds. lia. }
    rewrite andb_true_iff, !(contains_location_in_bounds r0) by exact Hb0.
    split.
    + split.
      * intros [Hlo Hhi]. exists (L ++ r0 :: R'), r0.
        split; [reflexivity|]. split; [|split; assumption].
        apply in_or_app. right. left. reflexivity.
      * intros (a & s & [= <-] & Hs & Hsr & Hsl).
        rewrite <- (Hin L r0 R' s Hok HL HR Hs Hsr). split; assumption.
    + intros a s [= <-] Hs Hsr.
      rewrite Hpos, nth_error_app_mid.
      now rewrite (Hin L r0 R' s Hok HL HR Hs Hsr).
Qed.

Lemma contains_range_resolved_witness :
  (g_index_set_contains_range set_even (G_RANGE_INIT 4 1) = true
   <-> exists a s,
         ranges set_even = Some a /\ In s a
         /\ in_range s (location (G_RANGE_INIT 4 1))
         /\ in_range s (location (G_RANGE_INIT 4 1)
                        + length (G_RANGE_INIT 4 1) - 1))
  /\ (forall a s,
        ranges set_even = Some a -> In s a ->
        in_range s (location (G_RANGE_INIT 4 1)) ->
        nth_error a (g_index_set_get_position a (location (G_RANGE_INIT 4 1)))
        = Some s).
Proof.
  apply (proj1 contains_range_resolved set_even (G_RANGE_INIT 4 1)).
  - intros a [= <-]. unfold ranges_ok. simpl. unfold G_MAXUINT. lia.
  - simpl. lia.
  - simpl. lia.
  - unfold G_INDEX_SET_NOT_FOUND, G_MAXINT. simpl. lia.
Defined.
